(** * tunnel-manager: a shallow embedding of the reconciliation engine

    This development embeds the Go sources of the [sync] package
    ([internal/sync/state.go], [internal/sync/tunnel.go],
    [internal/sync/dns.go], the state deriver with its [chooseServicePort])
    and the sibling [chooseServicePort] of [cmd/tunnel-manager/main.go].

    Go strings are byte strings; they are modelled by [string] (a list of
    8-bit characters).  [strings.TrimSpace] and [strings.ToLower] are
    modelled on the ASCII range, which is exact for ASCII strings (every
    concrete input below is ASCII). *)

From Stdlib Require Import Ascii ZArith Lia Sorted.
From stdpp Require Import base list strings gmap sets pretty.

Open Scope Z_scope.

(* ================================================================= *)
(** ** Go string helpers ([strings] package) *)

Module GoStrings.

(** [unicode.IsSpace] on the ASCII range: '\t' '\n' '\v' '\f' '\r' ' '. *)
Definition is_space (c : ascii) : bool :=
  match nat_of_ascii c with
  | 9%nat | 10%nat | 11%nat | 12%nat | 13%nat | 32%nat => true
  | _ => false
  end.

Fixpoint trim_left (s : string) : string :=
  match s with
  | EmptyString => EmptyString
  | String c s' => if is_space c then trim_left s' else s
  end.

Fixpoint rev (s : string) : string :=
  match s with
  | EmptyString => EmptyString
  | String c s' => rev s' +:+ String c EmptyString
  end.

(** [strings.TrimSpace] *)
Definition TrimSpace (s : string) : string :=
  rev (trim_left (rev (trim_left s))).

(** [strings.HasPrefix] *)
Definition HasPrefix (s pre : string) : bool := String.prefix pre s.

(** [strings.HasSuffix] *)
Definition HasSuffix (s suf : string) : bool := String.prefix (rev suf) (rev s).

(** [strings.TrimSuffix]: removes one occurrence of the suffix. *)
Definition TrimSuffix (s suf : string) : string :=
  if HasSuffix s suf
  then String.substring 0 (String.length s - String.length suf) s
  else s.

(** [strings.Contains] *)
Fixpoint Contains (s sub : string) : bool :=
  String.prefix sub s ||
  match s with
  | EmptyString => false
  | String _ s' => Contains s' sub
  end.

(** [unicode.ToLower] on the ASCII range. *)
Definition lower_char (c : ascii) : ascii :=
  let n := nat_of_ascii c in
  if (65 <=? n)%nat && (n <=? 90)%nat then ascii_of_nat (n + 32) else c.

(** [strings.ToLower] *)
Fixpoint ToLower (s : string) : string :=
  match s with
  | EmptyString => EmptyString
  | String c s' => String (lower_char c) (ToLower s')
  end.

End GoStrings.

Import GoStrings.

(* ================================================================= *)
(** ** [internal/sync/state.go] *)

(** [SyncState]: [HostToService] is a Go map, [None] being the nil map. *)
Record SyncState := mkSyncState { HostToService : option (gmap string string) }.

Definition NewSyncState : SyncState := mkSyncState (Some ∅).

(** [len] of a Go map; the nil map has length 0. *)
Definition Len (s : SyncState) : nat :=
  match HostToService s with None => 0%nat | Some m => size m end.

(** Outcome of a Go call that returns an [error] and may panic. *)
Inductive go_err := NoError | GoError (msg : string) | GoPanic (msg : string).

(** [SyncState.Append]: lookup of the exact key, then map assignment;
    assigning into a nil map panics. *)
Definition Append (s : SyncState) (hostname service : string) : SyncState * go_err :=
  match HostToService s with
  | None => (s, GoPanic "assignment to entry in nil map")
  | Some m =>
      match m !! hostname with
      | Some old =>
          (s, GoError ("hostname " +:+ hostname +:+ " is already mapped to service "
                        +:+ old))
      | None => (mkSyncState (Some (<[hostname := service]> m)), NoError)
      end
  end.

(* ================================================================= *)
(** ** Structured logging ([log/slog]) *)

Inductive level := Debug | Info | Warn | Error.

(** A log line: level, message and the string-valued attributes. *)
Record log_line := mkLog {
  log_level : level;
  log_msg : string;
  log_attrs : list (string * string) }.

(* ================================================================= *)
(** ** [strconv.Atoi] on a 64-bit platform *)

Module Strconv.

Definition maxUint64 : Z := 2 ^ 64 - 1.

Definition digit_val (c : ascii) : option Z :=
  let n := nat_of_ascii c in
  if (48 <=? n)%nat && (n <=? 57)%nat then Some (Z.of_nat n - 48) else None.

(** The digit loop of [ParseUint] in base 10: [None] is a syntax error,
    [Some (v, false)] a range error with the saturated value. *)
Fixpoint scan (s : string) (n : Z) : option (Z * bool) :=
  match s with
  | EmptyString => Some (n, true)
  | String c s' =>
      match digit_val c with
      | None => None
      | Some d =>
          if n >=? maxUint64 / 10 + 1 then Some (maxUint64, false)
          else
            let n1 := n * 10 + d in
            if n1 >? maxUint64 then Some (maxUint64, false) else scan s' n1
      end
  end.

(** [strconv.ParseUint(s, 10, 64)]: the value and whether [err == nil];
    [None] for a syntax error (value 0). *)
Definition ParseUint (s : string) : option (Z * bool) :=
  match s with
  | EmptyString => None
  | _ => scan s 0
  end.

(** [strconv.Atoi(s)] = [ParseInt(s, 10, 0)]: the returned [int] and
    whether the error is nil. *)
Definition Atoi (s : string) : Z * bool :=
  let '(neg, body) :=
    match s with
    | String "-"%char b => (true, b)
    | String "+"%char b => (false, b)
    | _ => (false, s)
    end in
  match ParseUint body with
  | None => (0, false)
  | Some (un, ok) =>
      let cutoff := 2 ^ 63 in
      if negb neg && (un >=? cutoff) then (cutoff - 1, false)
      else if neg && (un >? cutoff) then (- cutoff, false)
      else ((if neg then - un else un), ok)
  end.

(** Go's conversion [int32(v)] of a 64-bit integer: truncation to the low
    32 bits, read as two's complement. *)
Definition to_int32 (v : Z) : Z :=
  let m := v mod 2 ^ 32 in
  if m >=? 2 ^ 31 then m - 2 ^ 32 else m.

End Strconv.

(* ================================================================= *)
(** ** Upstream port choice *)

(** The fields of a [corev1.Service] the deriver reads; [Ports] are the
    [Port] fields of [Spec.Ports] (int32). *)
Record Service := mkService {
  svc_Name : string;
  svc_Namespace : string;
  Annotations : gmap string string;
  Ports : list Z }.

(** [chooseServicePort] of the [sync] package (the state deriver): the
    returned int32 and the log lines.  After the warning on an invalid
    annotation the function does not return early: it goes on to the debug
    line and returns [int32(val)]. *)
Definition chooseServicePort (upstreamPortAnnotation : string) (svc : Service)
    : Z * list log_line :=
  match Annotations svc !! upstreamPortAnnotation with
  | Some raw0 =>
      if bool_decide (TrimSpace raw0 <> "") then
        let raw := TrimSpace raw0 in
        let '(val, ok) := Strconv.Atoi raw in
        let warn :=
          if negb ok || (val <=? 0) || (val >? 65535) then
            [mkLog Warn "service has invalid port annotation; falling back to first exposed port"
               [("namespace", svc_Namespace svc); ("service", svc_Name svc);
                ("annotation", upstreamPortAnnotation); ("invalidValue", raw)]]
          else [] in
        (Strconv.to_int32 val,
         warn ++ [mkLog Debug "service has port annotation; using it as upstream port"
                    [("namespace", svc_Namespace svc); ("service", svc_Name svc);
                     ("annotation", upstreamPortAnnotation)]])
      else
        match Ports svc with
        | port :: _ =>
            (port, [mkLog Debug "service has no port annotation; falling back to first exposed port"
                      [("namespace", svc_Namespace svc); ("service", svc_Name svc);
                       ("annotation", upstreamPortAnnotation)]])
        | [] =>
            (0, [mkLog Warn "service has no ports; cannot determine upstream port"
                   [("namespace", svc_Namespace svc); ("service", svc_Name svc);
                    ("annotation", upstreamPortAnnotation)]])
        end
  | None =>
      match Ports svc with
      | port :: _ =>
          (port, [mkLog Debug "service has no port annotation; falling back to first exposed port"
                    [("namespace", svc_Namespace svc); ("service", svc_Name svc);
                     ("annotation", upstreamPortAnnotation)]])
      | [] =>
          (0, [mkLog Warn "service has no ports; cannot determine upstream port"
                 [("namespace", svc_Namespace svc); ("service", svc_Name svc);
                  ("annotation", upstreamPortAnnotation)]])
      end
  end.

(** [chooseServicePort] of [cmd/tunnel-manager/main.go]: on an invalid
    annotation it warns and falls through to the first exposed port. *)
Definition chooseServicePort_main (upstreamPortAnnotation : string) (svc : Service)
    : Z * list log_line :=
  let fallback :=
    match Ports svc with
    | port :: _ => (port, [])
    | [] => (0, [mkLog Warn "service has no ports; cannot determine upstream port"
                   [("namespace", svc_Namespace svc); ("service", svc_Name svc)]])
    end in
  match Annotations svc !! upstreamPortAnnotation with
  | Some raw0 =>
      if bool_decide (TrimSpace raw0 <> "") then
        let raw := TrimSpace raw0 in
        let '(val, ok) := Strconv.Atoi raw in
        if negb ok || (val <=? 0) || (val >? 65535) then
          let '(p, logs) := fallback in
          (p, mkLog Warn "service has invalid annotation; falling back to first exposed port"
                [("namespace", svc_Namespace svc); ("service", svc_Name svc);
                 ("annotation", upstreamPortAnnotation); ("value", raw)] :: logs)
        else (Strconv.to_int32 val, [])
      else fallback
  | None => fallback
  end.

(* ================================================================= *)
(** ** The state deriver ([SyncKube]), per service *)

(** [strings.ReplaceAll(s, ",", " ")] *)
Fixpoint comma_to_space (s : string) : string :=
  match s with
  | EmptyString => EmptyString
  | String c s' =>
      String (if Ascii.eqb c ","%char then " "%char else c) (comma_to_space s')
  end.

(** [strings.Fields] (ASCII white space): the maximal runs of non-space
    bytes; [cur] is the field being read, reversed. *)
Fixpoint fields_aux (s : string) (cur : string) : list string :=
  match s with
  | EmptyString => if String.eqb cur "" then [] else [rev cur]
  | String c s' =>
      if is_space c
      then (if String.eqb cur "" then [] else [rev cur]) ++ fields_aux s' ""
      else fields_aux s' (String c cur)
  end.

Definition Fields (s : string) : list string := fields_aux s "".

(** The body of the service loop of [SyncKube]: the hostnames annotation,
    the port choice, then one [Append] per hostname (a failed [Append] is
    logged and skipped). *)
Definition SyncKube_service (hostnamesAnnotation upstreamPortAnnotation : string)
    (namespace : string) (svc : Service) (st : SyncState) : SyncState * list log_line :=
  match Annotations svc !! hostnamesAnnotation with
  | None => (st, [])
  | Some hostnamesStr =>
      if String.eqb (TrimSpace hostnamesStr) "" then (st, []) else
      let '(port, plogs) := chooseServicePort upstreamPortAnnotation svc in
      if bool_decide (port = 0) then
        (st, plogs ++ [mkLog Info "service has no usable port; skipping"
                         [("namespace", namespace); ("service", svc_Name svc)]])
      else
        let serviceURL := "http://" +:+ svc_Name svc +:+ "." +:+ namespace
                            +:+ ".svc.cluster.local:" +:+ pretty port in
        fold_left
          (fun '(st, logs) d =>
             let hostname := TrimSpace d in
             if String.eqb hostname "" then (st, logs) else
             let '(st', err) := Append st hostname serviceURL in
             match err with
             | NoError => (st', logs)
             | _ => (st', logs ++ [mkLog Warn "failed to map hostname to service; skipping"
                                     [("hostname", hostname); ("service", serviceURL)]])
             end)
          (Fields (comma_to_space hostnamesStr)) (st, plogs)
  end.

(* ================================================================= *)
(** ** [internal/sync/tunnel.go]: the ingress rule list *)

(** [TunnelIngressRule]; [OriginRequest] is never set and is omitted. *)
Record TunnelIngressRule := mkRule { Hostname : string; Rule_Service : string }.

(** [sort.Slice] with [less(i, j) = rules[i].Hostname < rules[j].Hostname]
    (byte-wise string order).  The keys of a Go map are distinct, so the
    sorted permutation is unique and an insertion sort computes it. *)
Fixpoint insert_rule (r : TunnelIngressRule) (l : list TunnelIngressRule)
    : list TunnelIngressRule :=
  match l with
  | [] => [r]
  | r' :: l' =>
      if String.ltb (Hostname r) (Hostname r') then r :: l else r' :: insert_rule r l'
  end.

Fixpoint sort_rules (l : list TunnelIngressRule) : list TunnelIngressRule :=
  match l with
  | [] => []
  | r :: l' => insert_rule r (sort_rules l')
  end.

(** The ingress rules [SyncTunnel] builds from the entries of
    [state.HostToService] in the order the [range] loop visits them. *)
Definition ingressRules (entries : list (string * string)) : list TunnelIngressRule :=
  sort_rules (map (fun '(host, service) => mkRule host service) entries)
    ++ [mkRule "" "http_status:404"].

(** The entries of a Go map, in some order; the nil map has none. *)
Definition entries_of (st : SyncState) : list (string * string) :=
  match HostToService st with None => [] | Some m => map_to_list m end.

(* ================================================================= *)
(** ** [internal/sync/dns.go]: pure helpers *)

Definition managedCommentMarker : string := "managed by tunnel-manager".

Record zoneSummary := mkZone { zone_ID : string; zone_Name : string }.

Record dnsRecord := mkRecord {
  ID : string;
  Type' : string;  (* Go field [Type]; [Type] is a keyword *)
  Name : string;
  Content : string;
  Comment : string }.

Definition normalizeHost (s : string) : string :=
  ToLower (TrimSuffix (TrimSpace s) ".").

Definition equalDNSHost (a b : string) : bool :=
  String.eqb (normalizeHost a) (normalizeHost b).

(** The match test of [bestMatchingZone]. *)
Definition zone_matches (hostname name : string) : bool :=
  String.eqb hostname name || HasSuffix hostname ("." +:+ name).

(** One iteration of the loop of [bestMatchingZone]. *)
Definition bmz_step (hostname best : string) (z : zoneSummary) : string :=
  let name := normalizeHost (zone_Name z) in
  if zone_matches hostname name then
    (if (String.length best <? String.length name)%nat then name else best)
  else best.

Definition bestMatchingZone (hostname0 : string) (zones : list zoneSummary) : string :=
  let hostname := normalizeHost hostname0 in
  fold_left (bmz_step hostname) zones "".

(* ================================================================= *)
(** ** The Cloudflare API and the reconciler's effects *)

(** The requests the reconciler issues.  A paged listing is one request
    whose reply carries every page. *)
Inductive call :=
  | GetZones (accountID : string)
  | GetDNSRecords (zoneID : string)
  | DeleteDNSRecord (zoneID recordID : string)
  | PostCNAME (zoneID hostname target : string)
  | PatchCNAME (zoneID recordID target : string)
  | PutTunnelConfig (accountID tunnelID : string) (ingress : list TunnelIngressRule).

(** The reply to a request: success, a transport or HTTP error, or a
    response whose body says [success: false]. *)
Inductive api_reply := Reply_ok | Reply_error (e : string) | Reply_not_success.

Inductive event :=
  | Req (c : call) (r : api_reply)
  | Logged (l : log_line).

(** The requests of a trace. *)
Definition requests (tr : list event) : list call :=
  omap (fun e => match e with Req c _ => Some c | Logged _ => None end) tr.

(** The log lines of a trace. *)
Definition logs (tr : list event) : list log_line :=
  omap (fun e => match e with Req _ _ => None | Logged l => Some l end) tr.

(** An ID the server gives a new record: longer than every ID of the zone,
    hence distinct from all of them. *)
Definition fresh_id (recs : list dnsRecord) : string :=
  "rec-" +:+ String.concat "" (map ID recs).

(** The provider's DNS data: the zones of the account and the records of
    each zone ID. *)
Definition upd_zone (f : string -> list dnsRecord) (zid : string) (l : list dnsRecord)
    : string -> list dnsRecord :=
  fun z => if String.eqb z zid then l else f z.

(** What a request does on the provider's records when it succeeds. *)
Definition apply_call (c : call) (recs : string -> list dnsRecord)
    : string -> list dnsRecord :=
  match c with
  | DeleteDNSRecord zid rid =>
      upd_zone recs zid (filter (fun r => negb (String.eqb (ID r) rid)) (recs zid))
  | PatchCNAME zid rid target =>
      upd_zone recs zid
        (map (fun r => if String.eqb (ID r) rid
                       then mkRecord (ID r) (Type' r) (Name r) target managedCommentMarker
                       else r) (recs zid))
  | PostCNAME zid host target =>
      upd_zone recs zid
        (recs zid ++ [mkRecord (fresh_id (recs zid)) "CNAME" host target managedCommentMarker])
  | _ => recs
  end.

(** The world: provider data, the trace of requests and log lines, and a
    clock that numbers requests and [range] loops. *)
Record world := mkWorld {
  w_zones : list zoneSummary;
  w_records : string -> list dnsRecord;
  w_trace : list event;
  w_tick : nat }.

Inductive result (A : Type) := Ok (a : A) | Err (e : string).
Arguments Ok {A} a.
Arguments Err {A} e.

(** State and error monad: Go's [(T, error)] results over the world. *)
Definition M (A : Type) : Type := world -> world * result A.

Global Instance M_ret : MRet M := fun A a w => (w, Ok a).
Global Instance M_bind : MBind M := fun A B f m w =>
  match m w with
  | (w', Ok a) => f a w'
  | (w', Err e) => (w', Err e)
  end.

Definition throw {A} (e : string) : M A := fun w => (w, Err e).

(** [fmt.Errorf("...: %w", err)] around a call. *)
Definition wrap {A} (f : string -> string) (m : M A) : M A := fun w =>
  match m w with
  | (w', Err e) => (w', Err (f e))
  | r => r
  end.

Definition gets {A} (f : world -> A) : M A := fun w => (w, Ok (f w)).

Definition after_log (w : world) (l : log_line) : world :=
  mkWorld (w_zones w) (w_records w) (w_trace w ++ [Logged l]) (w_tick w).

Definition after_tick (w : world) : world :=
  mkWorld (w_zones w) (w_records w) (w_trace w) (S (w_tick w)).

Definition log (lvl : level) (msg : string) (attrs : list (string * string)) : M unit :=
  fun w => (after_log w (mkLog lvl msg attrs), Ok tt).

Section Reconciler.

(** Go randomises the iteration order of every [range] over a map: the
    [n]-th loop visits the entries in the order [range_order n]. *)
Variable range_order : nat -> forall A : Type, list A -> list A.

(** The provider's reply to the [n]-th request. *)
Variable reply : nat -> call -> api_reply.

Definition range {A} (l : list A) : M (list A) := fun w =>
  (after_tick w, Ok (range_order (w_tick w) A l)).

Definition reply_ok (r : api_reply) : bool :=
  match r with Reply_ok => true | _ => false end.

(** The world after the current request [c], answered by [reply]. *)
Definition after_request (w : world) (c : call) : world :=
  let r := reply (w_tick w) c in
  mkWorld (w_zones w)
    (if reply_ok r then apply_call c (w_records w) else w_records w)
    (w_trace w ++ [Req c r]) (S (w_tick w)).

Definition request (c : call) : M api_reply := fun w =>
  (after_request w c, Ok (reply (w_tick w) c)).

(** [loadZones] *)
Definition loadZones (accountID : string) : M (list zoneSummary) :=
  r ← request (GetZones accountID);
  match r with
  | Reply_error e => throw ("GET /zones page 1: " +:+ e)
  | _ => gets w_zones
  end.

Definition is_address_or_cname (t : string) : bool :=
  String.eqb t "A" || String.eqb t "AAAA" || String.eqb t "CNAME".

(** [loadDNSRecords]: keeps the A, AAAA and CNAME records. *)
Definition loadDNSRecords (zoneID : string) : M (list dnsRecord) :=
  r ← request (GetDNSRecords zoneID);
  match r with
  | Reply_error e => throw ("GET /zones/" +:+ zoneID +:+ "/dns_records page 1: " +:+ e)
  | _ => recs ← gets (fun w => w_records w zoneID);
         mret (filter (fun r => is_address_or_cname (Type' r)) recs)
  end.

(** [deleteDNSRecord]: the response body is not inspected. *)
Definition deleteDNSRecord (zoneID recordID : string) : M unit :=
  r ← request (DeleteDNSRecord zoneID recordID);
  match r with
  | Reply_error e => throw ("DELETE /zones/" +:+ zoneID +:+ "/dns_records/" +:+ recordID
                            +:+ ": " +:+ e)
  | _ => mret tt
  end.

(** [createCNAMERecord] *)
Definition createCNAMERecord (zoneID hostname target : string) : M unit :=
  r ← request (PostCNAME zoneID hostname target);
  match r with
  | Reply_error e => throw ("POST /zones/" +:+ zoneID +:+ "/dns_records: " +:+ e)
  | Reply_not_success => throw "Cloudflare API reported failure creating CNAME"
  | Reply_ok => mret tt
  end.

(** [updateCNAMERecordTarget] *)
Definition updateCNAMERecordTarget (zoneID recordID target : string) : M unit :=
  r ← request (PatchCNAME zoneID recordID target);
  match r with
  | Reply_error e => throw ("PATCH /zones/" +:+ zoneID +:+ "/dns_records/" +:+ recordID
                            +:+ ": " +:+ e)
  | Reply_not_success => throw "Cloudflare API reported failure updating CNAME"
  | Reply_ok => mret tt
  end.

(** The index loop of [syncZoneRecords]: [cnameByName] (the last CNAME of
    each normalized name) and [hasAorAAAA]. *)
Definition index_records (records : list dnsRecord) : gmap string dnsRecord * gset string :=
  fold_left
    (fun '(cnameByName, hasAorAAAA) rec =>
       let name := normalizeHost (Name rec) in
       if String.eqb (Type' rec) "A" || String.eqb (Type' rec) "AAAA"
       then (cnameByName, {[name]} ∪ hasAorAAAA)
       else if String.eqb (Type' rec) "CNAME"
       then (<[name := rec]> cnameByName, hasAorAAAA)
       else (cnameByName, hasAorAAAA))
    records (∅, ∅).

(** The loop of [syncZoneRecords] over the existing CNAMEs; it returns
    the [seen] set. *)
Fixpoint handle_cnames (zoneID zoneName target : string) (hostSet : gset string)
    (cnames : list (string * dnsRecord)) (seen : gset string) : M (gset string) :=
  match cnames with
  | [] => mret seen
  | (name, rec) :: cnames' =>
      let shouldBeManaged := bool_decide (name ∈ hostSet) in
      let isManaged := Contains (Comment rec) managedCommentMarker in
      if negb shouldBeManaged && isManaged then
        log Info "deleting managed CNAME for hostname not present in SyncState"
          [("zone_id", zoneID); ("zone_name", zoneName); ("hostname", name);
           ("record_id", ID rec); ("content", Content rec)];;
        wrap (fun e => "delete CNAME record " +:+ ID rec +:+ " (" +:+ name +:+ "): " +:+ e)
          (deleteDNSRecord zoneID (ID rec));;
        handle_cnames zoneID zoneName target hostSet cnames' seen
      else if negb shouldBeManaged then
        log Warn "unmanaged CNAME for hostname not present in SyncState; leaving untouched"
          [("zone_id", zoneID); ("zone_name", zoneName); ("hostname", name);
           ("record_id", ID rec); ("content", Content rec)];;
        handle_cnames zoneID zoneName target hostSet cnames' seen
      else if isManaged then
        if negb (equalDNSHost (Content rec) target) then
          log Info "updating managed CNAME to tunnel target"
            [("zone_id", zoneID); ("zone_name", zoneName); ("hostname", name);
             ("record_id", ID rec); ("old_content", Content rec); ("new_content", target)];;
          wrap (fun e => "update CNAME record " +:+ ID rec +:+ " (" +:+ name +:+ "): " +:+ e)
            (updateCNAMERecordTarget zoneID (ID rec) target);;
          handle_cnames zoneID zoneName target hostSet cnames' ({[name]} ∪ seen)
        else
          log Debug "managed CNAME already pointing to tunnel; no change"
            [("zone_id", zoneID); ("zone_name", zoneName); ("hostname", name);
             ("record_id", ID rec)];;
          handle_cnames zoneID zoneName target hostSet cnames' ({[name]} ∪ seen)
      else
        log Warn "hostname present in SyncState but CNAME is not managed (no marker in comment); leaving untouched"
          [("zone_id", zoneID); ("zone_name", zoneName); ("hostname", name);
           ("record_id", ID rec); ("content", Content rec); ("comment", Comment rec)];;
        handle_cnames zoneID zoneName target hostSet cnames' ({[name]} ∪ seen)
  end.

(** [state.HostToService[host]] (a nil map reads as empty). *)
Definition lookup_service (state : SyncState) (host : string) : string :=
  match HostToService state with None => "" | Some m => default "" (m !! host) end.

(** The creation loop of [syncZoneRecords] over [hosts]. *)
Fixpoint create_missing (zoneID zoneName target : string) (state : SyncState)
    (seen hasAorAAAA : gset string) (hosts : list string) : M unit :=
  match hosts with
  | [] => mret tt
  | host :: hosts' =>
      if bool_decide (host ∈ seen) then
        create_missing zoneID zoneName target state seen hasAorAAAA hosts'
      else if bool_decide (host ∈ hasAorAAAA) then
        log Warn "A/AAAA records exist for hostname; skipping CNAME creation to avoid conflict"
          [("zone_id", zoneID); ("zone_name", zoneName); ("hostname", host)];;
        create_missing zoneID zoneName target state seen hasAorAAAA hosts'
      else
        let service := lookup_service state host in
        log Info "creating managed CNAME for hostname"
          [("zone_id", zoneID); ("zone_name", zoneName); ("hostname", host);
           ("target", target); ("service", service)];;
        wrap (fun e => "create CNAME for host " +:+ host +:+ ": " +:+ e)
          (createCNAMERecord zoneID host target);;
        create_missing zoneID zoneName target state seen hasAorAAAA hosts'
  end.

(** [syncZoneRecords] *)
Definition syncZoneRecords (zoneID zoneName : string) (hosts : list string)
    (state : SyncState) (target : string) : M unit :=
  log Info "syncing zone DNS" [("zone_id", zoneID); ("zone_name", zoneName)];;
  let hostSet : gset string := list_to_set hosts in
  records ← wrap (fun e => "loading DNS records: " +:+ e) (loadDNSRecords zoneID);
  let '(cnameByName, hasAorAAAA) := index_records records in
  cnames ← range (map_to_list cnameByName);
  seen ← handle_cnames zoneID zoneName target hostSet cnames ∅;
  create_missing zoneID zoneName target state seen hasAorAAAA hosts.

(** Step 2 of [SyncDNS]: distribute the hostnames over the zones. *)
Fixpoint distribute (accountID : string) (zones : list zoneSummary)
    (hs : list (string * string)) (zoneHosts : gmap string (list string))
    : M (gmap string (list string)) :=
  match hs with
  | [] => mret zoneHosts
  | (host, _) :: hs' =>
      let hostNorm := normalizeHost host in
      if String.eqb hostNorm "" then distribute accountID zones hs' zoneHosts
      else
        let zoneName := bestMatchingZone hostNorm zones in
        if String.eqb zoneName "" then
          log Warn "no matching zone found for hostname; skipping"
            [("hostname", hostNorm); ("account_id", accountID)];;
          distribute accountID zones hs' zoneHosts
        else
          distribute accountID zones hs'
            (<[zoneName := default [] (zoneHosts !! zoneName) ++ [hostNorm]]> zoneHosts)
  end.

(** Step 3 of [SyncDNS]: the loop over [zoneHosts]. *)
Fixpoint sync_zones (accountID target : string) (state : SyncState)
    (zoneIDByName : gmap string string) (zl : list (string * list string)) : M unit :=
  match zl with
  | [] => mret tt
  | (zoneName, hosts) :: zl' =>
      let zoneID := default "" (zoneIDByName !! zoneName) in
      if String.eqb zoneID "" then
        log Error "zone id not found for zone name; skipping zone"
          [("zone_name", zoneName); ("account_id", accountID)];;
        sync_zones accountID target state zoneIDByName zl'
      else
        wrap (fun e => "sync zone " +:+ zoneName +:+ " (" +:+ zoneID +:+ "): " +:+ e)
          (syncZoneRecords zoneID zoneName hosts state target);;
        sync_zones accountID target state zoneIDByName zl'
  end.

(** The [zoneIDByName] map of [SyncDNS]. *)
Definition zone_ids (zones : list zoneSummary) : gmap string string :=
  fold_left (fun acc z => <[zone_Name z := zone_ID z]> acc) zones ∅.

Record Config := mkConfig {
  CloudFlareAccountID : string;
  CloudFlareTunnelID : string }.

(** The fields of [runtime.Runtime] [SyncDNS] reads: the config pointer and
    whether [rt.Client.CloudFlareClient] is set. *)
Record Runtime := mkRuntime {
  rt_Config : option Config;
  rt_HasCloudFlareClient : bool }.

(** [SyncDNS] *)
Definition SyncDNS (rt : Runtime) (state : SyncState) : M unit :=
  if negb (rt_HasCloudFlareClient rt) then throw "cloudflare client is nil" else
  match rt_Config rt with
  | None => throw "config is nil"
  | Some cfg =>
      let accountID := CloudFlareAccountID cfg in
      let tunnelID := CloudFlareTunnelID cfg in
      match HostToService state with
      | None => log Info "no hostnames in SyncState; nothing to sync" []
      | Some m =>
          if (size m =? 0)%nat then log Info "no hostnames in SyncState; nothing to sync" []
          else
            let target := tunnelID +:+ ".cfargotunnel.com" in
            log Info "starting Cloudflare DNS sync"
              [("account_id", accountID); ("tunnel_id", tunnelID); ("target", target)];;
            zones ← wrap (fun e => "loading zones: " +:+ e) (loadZones accountID);
            match zones with
            | [] => log Warn "no zones found for account, nothing to sync"
                      [("account_id", accountID)]
            | _ =>
                let zoneIDByName := zone_ids zones in
                hs ← range (map_to_list m);
                zoneHosts ← distribute accountID zones hs ∅;
                zl ← range (map_to_list zoneHosts);
                sync_zones accountID target state zoneIDByName zl;;
                log Info "Cloudflare DNS sync finished successfully" []
            end
      end
  end.

(** [SyncTunnel] with [runtime.Config = cfg]. *)
Definition SyncTunnel (cfg : Config) (state : SyncState) : M unit :=
  es ← range (entries_of state);
  r ← request (PutTunnelConfig (CloudFlareAccountID cfg) (CloudFlareTunnelID cfg)
                 (ingressRules es));
  match r with
  | Reply_error e => throw ("error while updating tunnel configuration: " +:+ e)
  | _ => mret tt
  end.

End Reconciler.

(* ================================================================= *)
(** ** [internal/config/config.go] *)

Module config.

(** [time.Second]: a [time.Duration] is an int64 count of nanoseconds. *)
Definition Second : Z := 1000000000.

(** Go's int64 arithmetic wraps around: the low 64 bits, read as two's
    complement. *)
Definition to_int64 (v : Z) : Z :=
  let m := v mod 2 ^ 64 in
  if m >=? 2 ^ 63 then m - 2 ^ 64 else m.

Definition defaultServiceHostnamesAnnotation : string := "cloudflare-tunnel-hostnames".
Definition defaultServiceUpstreamPortAnnotation : string := "cloudflare-tunnel-upstream-port".
Definition defaultSyncInterval : Z := 15 * Second.
Definition defaultLogLevel : level := Info.

Record Config := mkConfig {
  CloudFlareAccountID : string;
  CloudFlareTunnelID : string;
  CloudFlareAPIToken : string;
  ServiceHostnamesAnnotation : string;
  ServiceUpstreamPortAnnotation : string;
  SyncInterval : Z;
  LogLevel : level }.

(** The errors [LoadConfig] returns, one per [fmt.Errorf] of the file:
    the missing-credentials message, and the messages that quote ([%q])
    the raw value of an invalid [LOG_LEVEL] or [SYNC_INTERVAL]. *)
Inductive config_error :=
  | ErrCredentials
  | ErrLogLevel (raw : string)
  | ErrSyncInterval (raw : string).

Definition ErrCredentials_msg : string :=
  "CLOUDFLARE_ACCOUNT_ID, CLOUDFLARE_TUNNEL_ID and CLOUDFLARE_API_TOKEN must be set".

(** [parseSyncInterval]; [Getenv] is [os.Getenv], which returns the empty
    string for an unset variable. *)
Definition parseSyncInterval (Getenv : string → string) : Z + config_error :=
  let raw := Getenv "SYNC_INTERVAL" in
  if String.eqb raw "" then inl defaultSyncInterval else
  let '(sec, ok) := Strconv.Atoi raw in
  if negb ok || (sec <=? 0) then inr (ErrSyncInterval raw)
  else inl (to_int64 (sec * Second)).

(** [LoadConfig] *)
Definition LoadConfig (Getenv : string → string) : Config + config_error :=
  let accountID := Getenv "CLOUDFLARE_ACCOUNT_ID" in
  let tunnelID := Getenv "CLOUDFLARE_TUNNEL_ID" in
  let apiToken := Getenv "CLOUDFLARE_API_TOKEN" in
  if String.eqb accountID "" || String.eqb tunnelID "" || String.eqb apiToken ""
  then inr ErrCredentials else
  let serviceHostnamesAnnotation :=
    let v := Getenv "SERVICE_HOSTNAMES_ANNOTATION" in
    if String.eqb v "" then defaultServiceHostnamesAnnotation else v in
  let serviceUpstreamPortAnnotation :=
    let v := Getenv "SERVICE_UPSTREAM_PORT_ANNOTATION" in
    if String.eqb v "" then defaultServiceUpstreamPortAnnotation else v in
  let logLevelEnv := Getenv "LOG_LEVEL" in
  let logLevel :=
    if String.eqb logLevelEnv "debug" then Some Debug
    else if String.eqb logLevelEnv "warn" then Some Warn
    else if String.eqb logLevelEnv "error" then Some Error
    else if String.eqb logLevelEnv "" then Some defaultLogLevel
    else None in
  match logLevel with
  | None => inr (ErrLogLevel logLevelEnv)
  | Some logLevel =>
      match parseSyncInterval Getenv with
      | inr e => inr e
      | inl syncInterval =>
          inl (mkConfig accountID tunnelID apiToken serviceHostnamesAnnotation
                 serviceUpstreamPortAnnotation syncInterval logLevel)
      end
  end.

End config.

(* ================================================================= *)
(** ** The paging loops of [loadZones] and [loadDNSRecords] *)

(** The loop of both functions: [get p] is the reply to the request for
    page [p], an error or the page's [Result] with the [Page] and
    [TotalPages] fields of its [ResultInfo]; [keep] is what the loop
    appends of a page ([loadDNSRecords] keeps A, AAAA and CNAME records
    only) and [errf p e] the error returned when page [p] fails.  Go's
    loop has no bound: [fuel] counts its iterations, and [None] means it
    is still running when the fuel is spent. *)
Fixpoint paged {A} (keep : list A → list A) (errf : Z → string → string)
    (get : Z → result (list A * Z * Z)) (fuel : nat) (page : Z) (acc : list A)
    : option (result (list A)) :=
  match fuel with
  | O => None
  | S fuel' =>
      match get page with
      | Err e => Some (Err (errf page e))
      | Ok (res, pg, totalPages) =>
          let acc' := acc ++ keep res in
          if (totalPages <=? pg) || (totalPages =? 0) then Some (Ok acc')
          else paged keep errf get fuel' (page + 1) acc'
      end
  end.

(** [loadZones], pages fetched by [get]. *)
Definition loadZones_paged (get : Z → result (list zoneSummary * Z * Z)) (fuel : nat)
    : option (result (list zoneSummary)) :=
  paged (λ l, l) (λ p e, "GET /zones page " +:+ pretty p +:+ ": " +:+ e) get fuel 1 [].

(** [loadDNSRecords] of zone [zoneID], pages fetched by [get]. *)
Definition loadDNSRecords_paged (zoneID : string) (get : Z → result (list dnsRecord * Z * Z))
    (fuel : nat) : option (result (list dnsRecord)) :=
  paged (filter (λ r, is_address_or_cname (Type' r)))
    (λ p e, "GET /zones/" +:+ zoneID +:+ "/dns_records page " +:+ pretty p +:+ ": " +:+ e)
    get fuel 1 [].

(* ================================================================= *)
(** ** [SyncKube] ([internal/sync], part_003) and [runSync]
       ([cmd/tunnel-manager/main.go]) over a cluster *)

(** [sort.Strings]: ascending byte-wise order (an insertion sort; equal
    strings are indistinguishable, so stability does not matter). *)
Fixpoint insert_string (s : string) (l : list string) : list string :=
  match l with
  | [] => [s]
  | s' :: l' => if String.ltb s' s then s' :: insert_string s l' else s :: l
  end.

Fixpoint sort_strings (l : list string) : list string :=
  match l with
  | [] => []
  | s :: l' => insert_string s (sort_strings l')
  end.

(** The Kubernetes API as both functions see it: [namespacesList] is the
    outcome of listing the namespaces, [listServices ns] that of listing
    the services of namespace [ns].  Log lines are not modelled here. *)
Definition SyncKube (hostnamesAnnotation upstreamPortAnnotation : string)
    (namespacesList : result (list string)) (listServices : string → result (list Service))
    : result SyncState :=
  match namespacesList with
  | Err e => Err ("failed to list namespaces: " +:+ e)
  | Ok namespaces =>
      Ok (fold_left
            (λ newState namespace,
               match listServices namespace with
               | Err _ => newState
               | Ok svcs =>
                   fold_left
                     (λ st svc, fst (SyncKube_service hostnamesAnnotation
                                       upstreamPortAnnotation namespace svc st))
                     svcs newState
               end)
            (sort_strings namespaces) NewSyncState)
  end.

(** The rules the loop of [runSync] appends for service [svc] of
    namespace [nsName]; [IngressRule] of [main.go] has the fields of
    [TunnelIngressRule]. *)
Definition runSync_service (hostnamesAnnotation upstreamPortAnnotation nsName : string)
    (svc : Service) : list TunnelIngressRule :=
  match Annotations svc !! hostnamesAnnotation with
  | None => []
  | Some hostnamesStr =>
      if String.eqb (TrimSpace hostnamesStr) "" then [] else
      let port := fst (chooseServicePort_main upstreamPortAnnotation svc) in
      if bool_decide (port = 0) then [] else
      let serviceURL := "http://" +:+ svc_Name svc +:+ "." +:+ nsName
                          +:+ ".svc.cluster.local:" +:+ pretty port in
      flat_map (λ d, let host := TrimSpace d in
                     if String.eqb host "" then [] else [mkRule host serviceURL])
        (Fields (comma_to_space hostnamesStr))
  end.

(** The rules [runSync] collects, before sorting. *)
Definition runSync_rules (hostnamesAnnotation upstreamPortAnnotation : string)
    (namespacesList : result (list string)) (listServices : string → result (list Service))
    : result (list TunnelIngressRule) :=
  match namespacesList with
  | Err e => Err ("failed to list namespaces: " +:+ e)
  | Ok namespaces =>
      Ok (flat_map
            (λ nsName, match listServices nsName with
                       | Err _ => []
                       | Ok svcs => flat_map (runSync_service hostnamesAnnotation
                                                upstreamPortAnnotation nsName) svcs
                       end)
            (sort_strings namespaces))
  end.

(** [runSync].  [sort.Slice] is not stable: with two rules of one hostname
    their order is the library's, and [sort_slice] stands for it. *)
Definition runSync (sort_slice : list TunnelIngressRule → list TunnelIngressRule)
    (reply : nat → call → api_reply) (cfg : config.Config)
    (namespacesList : result (list string)) (listServices : string → result (list Service))
    : M unit :=
  match runSync_rules (config.ServiceHostnamesAnnotation cfg)
          (config.ServiceUpstreamPortAnnotation cfg) namespacesList listServices with
  | Err e => throw e
  | Ok ingressRules =>
      r ← request reply (PutTunnelConfig (config.CloudFlareAccountID cfg)
                          (config.CloudFlareTunnelID cfg)
                          (sort_slice ingressRules ++ [mkRule "" "http_status:404"]));
      match r with
      | Reply_error e => throw ("error while updating tunnel configuration: " +:+ e)
      | _ => mret tt
      end
  end.

(** The (hostname, service URL) pairs the service loop of [SyncKube] or
    [runSync] takes from service [svc] of namespace [nsName], in order,
    [portOf] being the port choice of the caller. *)
Definition service_pairs (portOf : Service → Z) (hostnamesAnnotation nsName : string)
    (svc : Service) : list (string * string) :=
  match Annotations svc !! hostnamesAnnotation with
  | None => []
  | Some hostnamesStr =>
      if String.eqb (TrimSpace hostnamesStr) "" then [] else
      let port := portOf svc in
      if bool_decide (port = 0) then [] else
      let serviceURL := "http://" +:+ svc_Name svc +:+ "." +:+ nsName
                          +:+ ".svc.cluster.local:" +:+ pretty port in
      flat_map (λ d, let host := TrimSpace d in
                     if String.eqb host "" then [] else [(host, serviceURL)])
        (Fields (comma_to_space hostnamesStr))
  end.

(** The pairs of the whole cluster: namespaces in ascending order, the
    services of each in the order listed, namespaces whose services cannot
    be listed skipped. *)
Definition cluster_pairs (portOf : Service → Z) (hostnamesAnnotation : string)
    (listServices : string → result (list Service)) (namespaces : list string)
    : list (string * string) :=
  flat_map (λ ns, match listServices ns with
                  | Err _ => []
                  | Ok svcs => flat_map (service_pairs portOf hostnamesAnnotation ns) svcs
                  end)
    (sort_strings namespaces).

(** A collected pair as an ingress rule. *)
Definition rule_of (p : string * string) : TunnelIngressRule :=
  let '(host, service) := p in mkRule host service.

(** A byte a field of [strings.Fields] of a comma-free string can hold. *)
Definition field_char (c : ascii) : Prop := is_space c = false ∧ c ≠ ","%char.

(** Successive [Append]s, their errors ignored, as [SyncKube] does them. *)
Definition append_all (st : SyncState) (pairs : list (string * string)) : SyncState :=
  fold_left (λ st '(h, v), fst (Append st h v)) pairs st.

(** The value of the first pair of [pairs] whose key is [h]. *)
Fixpoint first_value (h : string) (pairs : list (string * string)) : option string :=
  match pairs with
  | [] => None
  | (k, v) :: ps => if String.eqb k h then Some v else first_value h ps
  end.

(* ================================================================= *)
(** * Concrete runs *)

(** Inputs for the concrete runs below: an account ["acc"] with tunnel
    ["tun"], a Cloudflare client, the [range] that keeps Go's iteration
    order as the list order, and an API that answers every request. *)
Definition ex_cfg : Config := mkConfig "acc" "tun".

Definition ex_rt : Runtime := mkRuntime (Some ex_cfg) true.

Definition ex_target : string := "tun.cfargotunnel.com".

Definition in_order : nat → ∀ A, list A → list A := λ _ _ l, l.

Definition all_ok : nat → call → api_reply := λ _ _, Reply_ok.

(** An API whose record creations in zone [zid] fail with HTTP 500. *)
Definition failing_post_in (zid : string) : nat → call → api_reply :=
  λ _ c, match c with
         | PostCNAME z _ _ => if String.eqb z zid then Reply_error "HTTP 500" else Reply_ok
         | _ => Reply_ok
         end.

Definition ex_zones : list zoneSummary :=
  [mkZone "Z1" "example.com"; mkZone "Z2" "other.org"].

Definition managed_cname (id name content : string) : dnsRecord :=
  mkRecord id "CNAME" name content managedCommentMarker.

(** A world whose zone ["Z1"] holds [r1] and zone ["Z2"] holds [r2]. *)
Definition ex_world (zones : list zoneSummary) (r1 r2 : list dnsRecord) : world :=
  mkWorld zones (λ z, if String.eqb z "Z1" then r1 else if String.eqb z "Z2" then r2 else [])
    [] 0.

Definition ex_state (hs : list string) : SyncState :=
  mkSyncState (Some (list_to_map ((λ h, (h, "http://web.default.svc.cluster.local:80")) <$> hs))).

(** A Service whose hostname annotation ends in two dots. *)
Definition ex_service_two_dots : Service :=
  mkService "web" "default"
    {["cloudflare-tunnel-hostnames" := "a.example.com.."]} [8080%Z].

(* ================================================================= *)
(** * Proofs *)

(* ----------------------------------------------------------------- *)
(** ** Zone choice *)

Lemma bmz_fold_inv (h : string) (zones : list zoneSummary) (best0 : string) :
  let best := fold_left (bmz_step h) zones best0 in
  (String.length best0 <= String.length best)%nat ∧
  (∀ z, z ∈ zones → zone_matches h (normalizeHost (zone_Name z)) = true →
        (String.length (normalizeHost (zone_Name z)) <= String.length best)%nat) ∧
  (best = best0 ∨ ∃ z, z ∈ zones ∧ zone_matches h (normalizeHost (zone_Name z)) = true ∧
                        normalizeHost (zone_Name z) = best).
Proof.
  revert best0. induction zones as [|z zs IH]; intros best0; simpl.
  - split; [lia|]. split; [intros z Hz; inversion Hz|]. by left.
  - destruct (IH (bmz_step h best0 z)) as (Hle & Hall & Hwho).
    unfold bmz_step in *.
    destruct (zone_matches h (normalizeHost (zone_Name z))) eqn:Hm.
    + destruct (String.length best0 <? String.length (normalizeHost (zone_Name z)))%nat eqn:Hlt.
      * apply Nat.ltb_lt in Hlt. split; [lia|]. split.
        -- intros z' Hz' Hm'. apply elem_of_cons in Hz' as [->|Hz']; [lia|]. by apply Hall.
        -- destruct Hwho as [Hb|(z' & Hz' & Hm' & Hn')].
           ++ right. exists z. split; [by left|]. split; [done|]. by rewrite Hb.
           ++ right. exists z'. split; [by right|]. done.
      * apply Nat.ltb_ge in Hlt. split; [lia|]. split.
        -- intros z' Hz' Hm'. apply elem_of_cons in Hz' as [->|Hz']; [lia|]. by apply Hall.
        -- destruct Hwho as [Hb|(z' & Hz' & Hm' & Hn')]; [by left|].
           right. exists z'. split; [by right|]. done.
    + split; [lia|]. split.
      * intros z' Hz' Hm'. apply elem_of_cons in Hz' as [->|Hz']; [congruence|]. by apply Hall.
      * destruct Hwho as [Hb|(z' & Hz' & Hm' & Hn')]; [by left|].
        right. exists z'. split; [by right|]. done.
Qed.

Lemma requests_snoc_req tr c r : requests (tr ++ [Req c r]) = requests tr ++ [c].
Proof. unfold requests. rewrite omap_app. reflexivity. Qed.

Lemma requests_snoc_log tr l : requests (tr ++ [Logged l]) = requests tr.
Proof. unfold requests. rewrite omap_app. simpl. by rewrite app_nil_r. Qed.

(** Every key of [zoneHosts] is a non-empty zone name with a non-empty
    list; every hostname filed under it is non-empty, has it as best
    matching zone, and is the normalized form of a hostname of [src]. *)
Definition zone_hosts_ok (zones : list zoneSummary) (src : string → Prop)
    (zh : gmap string (list string)) : Prop :=
  ∀ zn l, zh !! zn = Some l → zn ≠ "" ∧ l ≠ [] ∧
    ∀ h, h ∈ l → h ≠ "" ∧ bestMatchingZone h zones = zn ∧
                 ∃ host, src host ∧ h = normalizeHost host.

Lemma zone_hosts_ok_empty zones src : zone_hosts_ok zones src ∅.
Proof. intros zn l H. by rewrite lookup_empty in H. Qed.

Lemma distribute_spec accountID zones hs acc w :
  ∃ w' zh,
    distribute accountID zones hs acc w = (w', Ok zh) ∧
    (∀ src : string → Prop, (∀ host s, (host, s) ∈ hs → src host) →
       zone_hosts_ok zones src acc → zone_hosts_ok zones src zh) ∧
    (∀ zn l, acc !! zn = Some l → ∃ l', zh !! zn = Some l' ∧ ∀ x, x ∈ l → x ∈ l') ∧
    (∀ host s, (host, s) ∈ hs → normalizeHost host ≠ "" →
       bestMatchingZone (normalizeHost host) zones ≠ "" →
       ∃ l, zh !! bestMatchingZone (normalizeHost host) zones = Some l ∧
            normalizeHost host ∈ l) ∧
    w_zones w' = w_zones w ∧ w_records w' = w_records w ∧ w_tick w' = w_tick w ∧
    requests (w_trace w') = requests (w_trace w).
Proof.
  revert acc w. induction hs as [|[host svc] hs IH]; intros acc w; simpl.
  - exists w, acc. split; [done|]. split; [done|]. split.
    + intros zn l Hl. exists l. split; [done|]. done.
    + split; [intros ?? Hin; inversion Hin|]. done.
  - destruct (String.eqb (normalizeHost host) "") eqn:He.
    + destruct (IH acc w) as (w' & zh & Hrun & Hok & Hmono & Hin & Hfr).
      exists w', zh. split; [done|]. split.
      { intros src Hsrc. apply Hok. intros h s Hh. apply (Hsrc h s). by right. }
      split; [done|]. split; [|done].
      intros host' s' Hm Hne Hb. apply elem_of_cons in Hm as [Hm|Hm].
      * injection Hm as -> ->. apply String.eqb_eq in He. congruence.
      * by eapply Hin.
    + destruct (String.eqb (bestMatchingZone (normalizeHost host) zones) "") eqn:Hz.
      * unfold mbind, M_bind, log. simpl.
        set (w1 := after_log _ _).
        destruct (IH acc w1) as (w' & zh & Hrun & Hok & Hmono & Hin & Hz' & Hr' & Ht' & Hq').
        exists w', zh. rewrite Hrun. split; [done|]. split.
        { intros src Hsrc. apply Hok. intros h s Hh. apply (Hsrc h s). by right. }
        split; [done|].
        split.
        -- intros host' s' Hm Hne Hb. apply elem_of_cons in Hm as [Hm|Hm].
           ++ injection Hm as -> ->. apply String.eqb_eq in Hz. congruence.
           ++ by eapply Hin.
        -- subst w1; simpl in *. rewrite Hz', Hr', Ht', Hq'.
           split; [done|]. split; [done|]. split; [done|]. apply requests_snoc_log.
      * set (zn := bestMatchingZone (normalizeHost host) zones) in *.
        set (acc' := <[zn := default [] (acc !! zn) ++ [normalizeHost host]]> acc).
        destruct (IH acc' w) as (w' & zh & Hrun & Hok & Hmono & Hin & Hfr).
        exists w', zh. split; [done|]. split.
        -- intros src Hsrc Hacc. apply Hok.
           { intros h s Hh. apply (Hsrc h s). by right. }
           intros k l Hl. subst acc'.
           destruct (decide (k = zn)) as [->|Hne].
           ++ rewrite lookup_insert_eq in Hl. injection Hl as <-.
              apply String.eqb_neq in Hz. split; [done|].
              split; [destruct (default [] (acc !! zn)); discriminate|].
              intros h Hh. apply elem_of_app in Hh as [Hh|Hh].
              ** destruct (acc !! zn) as [l0|] eqn:Hl0; simpl in Hh; [|inversion Hh].
                 by apply (Hacc zn l0 Hl0).
              ** apply list_elem_of_singleton in Hh as ->.
                 apply String.eqb_neq in He. split; [done|]. split; [done|].
                 exists host. split; [|done]. apply (Hsrc host svc). by left.
           ++ rewrite lookup_insert_ne in Hl by congruence. by apply (Hacc k l).
        -- split.
           ++ intros k l Hl. destruct (decide (k = zn)) as [->|Hne].
              ** destruct (Hmono zn (l ++ [normalizeHost host])) as (l' & Hl' & Hsub).
                 { subst acc'. rewrite lookup_insert_eq, Hl. done. }
                 exists l'. split; [done|]. intros x Hx. apply Hsub. set_solver.
              ** apply Hmono. subst acc'. rewrite lookup_insert_ne by congruence. done.
           ++ split; [|done]. intros host' s' Hm Hne Hb. apply elem_of_cons in Hm as [Hm|Hm].
              ** injection Hm as -> ->.
                 destruct (Hmono zn (default [] (acc !! zn) ++ [normalizeHost host]))
                   as (l' & Hl' & Hsub).
                 { subst acc'. by rewrite lookup_insert_eq. }
                 exists l'. split; [done|]. apply Hsub. set_solver.
              ** by eapply Hin.
Qed.

(** C5: [bestMatchingZone] returns the normalized name of the longest zone
    that equals the normalized hostname or is a dot-separated suffix of it
    ("" when none matches); step 2 of [SyncDNS] files every non-empty
    normalized hostname under that zone name, and a hostname whose best
    zone is "" is filed nowhere (skipped).  For zones [example.com] and
    [sub.example.com], [api.sub.example.com] goes to [sub.example.com]. *)
Theorem bestMatchingZone_longest_suffix (hostname : string) (zones : list zoneSummary) :
  let h := normalizeHost hostname in
  let best := bestMatchingZone hostname zones in
  (∀ z, z ∈ zones → zone_matches h (normalizeHost (zone_Name z)) = true →
        (String.length (normalizeHost (zone_Name z)) <= String.length best)%nat) ∧
  (best = "" ∨ ∃ z, z ∈ zones ∧ zone_matches h (normalizeHost (zone_Name z)) = true ∧
                    normalizeHost (zone_Name z) = best) ∧
  ((∀ z, z ∈ zones → zone_matches h (normalizeHost (zone_Name z)) = false) → best = "") ∧
  (∀ accountID (hs : list (string * string)) (w : world),
     ∃ w' zh, distribute accountID zones hs ∅ w = (w', Ok zh) ∧
       (∀ zn l, zh !! zn = Some l → zn ≠ "" ∧
                ∀ x, x ∈ l → x ≠ "" ∧ bestMatchingZone x zones = zn) ∧
       (∀ host s, (host, s) ∈ hs → normalizeHost host ≠ "" →
          bestMatchingZone (normalizeHost host) zones ≠ "" →
          ∃ l, zh !! bestMatchingZone (normalizeHost host) zones = Some l ∧
               normalizeHost host ∈ l)) ∧
  bestMatchingZone "api.sub.example.com"
    [mkZone "z1" "example.com"; mkZone "z2" "sub.example.com"] = "sub.example.com".
Proof.
  intros h best.
  destruct (bmz_fold_inv h zones "") as (_ & Hall & Hwho).
  split; [exact Hall|]. split; [exact Hwho|]. split.
  - intros Hnone. destruct Hwho as [Hb|(z & Hz & Hm & _)]; [exact Hb|].
    rewrite (Hnone z Hz) in Hm. discriminate.
  - split; [|reflexivity].
    intros accountID hs w.
    destruct (distribute_spec accountID zones hs ∅ w) as (w' & zh & Hrun & Hok & _ & Hin & _).
    exists w', zh. split; [exact Hrun|]. split.
    + intros zn l Hl.
      destruct (Hok (λ _, True) (λ _ _ _, I) (zone_hosts_ok_empty _ _) zn l Hl)
        as (Hzn & _ & Hall').
      split; [done|]. intros x Hx. destruct (Hall' x Hx) as (? & ? & _). done.
    + exact Hin.
Qed.

(* ----------------------------------------------------------------- *)
(** ** Upstream port choice *)

(** C6: on the service of the spec's example (port annotation ["invalid"],
    ports 8080 and 9090) the deriver's [chooseServicePort] returns 0, not
    8080, and [SyncKube] skips the service; the sibling [chooseServicePort]
    of [main.go] falls back to 8080. *)
Theorem chooseServicePort_invalid_annotation_returns_zero :
  let svc := mkService "web" "default"
               {[ "cloudflare-tunnel-upstream-port" := "invalid";
                  "cloudflare-tunnel-hostnames" := "web.example.com" ]}
               [8080; 9090] in
  fst (chooseServicePort "cloudflare-tunnel-upstream-port" svc) = 0 ∧
  fst (SyncKube_service "cloudflare-tunnel-hostnames" "cloudflare-tunnel-upstream-port"
         "default" svc NewSyncState) = NewSyncState ∧
  fst (chooseServicePort_main "cloudflare-tunnel-upstream-port" svc) = 8080.
Proof. vm_compute. repeat split; reflexivity. Qed.

(* ----------------------------------------------------------------- *)
(** ** [SyncState.Append] *)

(** C7 (counterexample): [Append] compares hostnames as exact strings:
    after [Append("a.example.com", Y)], [Append("A.example.com", X)]
    succeeds, and two keys with the same normalized name map to different
    targets. *)
Lemma Append_case_variant_accepted :
  let '(s1, e1) := Append NewSyncState "a.example.com" "Y" in
  let '(s2, e2) := Append s1 "A.example.com" "X" in
  e1 = NoError ∧ e2 = NoError ∧
  normalizeHost "A.example.com" = normalizeHost "a.example.com" ∧
  (match HostToService s2 with
   | Some m => m !! "a.example.com" = Some "Y" ∧ m !! "A.example.com" = Some "X"
   | None => False
   end).
Proof. vm_compute. repeat split; reflexivity. Qed.

(** C7 (amended): on a non-nil map, [Append(h, t)] fails exactly when the
    string [h] is already a key, and then leaves the state unchanged; it
    inserts [h ↦ t] otherwise.  So [Append("a.example.com", X)] after
    [Append("a.example.com", Y)] fails and the mapping stays at [Y].  On a
    nil map [Append] panics. *)
Theorem Append_exact_key (m : gmap string string) (h t : string) :
  (∀ old, m !! h = Some old →
     ∃ msg, Append (mkSyncState (Some m)) h t = (mkSyncState (Some m), GoError msg)) ∧
  (m !! h = None →
     Append (mkSyncState (Some m)) h t = (mkSyncState (Some (<[h := t]> m)), NoError) ∧
     (<[h := t]> m) !! h = Some t) ∧
  (m !! "a.example.com" = None → ∀ X Y : string,
     let '(s1, e1) := Append (mkSyncState (Some m)) "a.example.com" Y in
     let '(s2, e2) := Append s1 "a.example.com" X in
     e1 = NoError ∧ e2 ≠ NoError ∧ s2 = s1 ∧
     (match HostToService s2 with
      | Some m2 => m2 !! "a.example.com" = Some Y
      | None => False
      end)) ∧
  (∃ msg, Append (mkSyncState None) h t = (mkSyncState None, GoPanic msg)).
Proof.
  split; [|split; [|split]].
  - intros old Hold. unfold Append. simpl. rewrite Hold. eexists. reflexivity.
  - intros Hnone. unfold Append. simpl. rewrite Hnone. split; [reflexivity|].
    apply lookup_insert_eq.
  - intros Hnone X Y. unfold Append at 1. simpl. rewrite Hnone.
    unfold Append. simpl. rewrite lookup_insert_eq.
    split; [done|]. split; [done|]. split; [done|]. apply lookup_insert_eq.
  - eexists. reflexivity.
Qed.

(* ----------------------------------------------------------------- *)
(** ** The ingress rule list *)

Definition rule_le (a b : TunnelIngressRule) : Prop :=
  String.leb (Hostname a) (Hostname b) = true.

Lemma ltb_false_leb (a b : string) : String.ltb a b = false → String.leb b a = true.
Proof.
  unfold String.ltb, String.leb. rewrite (String.compare_antisym b a).
  destruct (String.compare a b); simpl; congruence.
Qed.

Lemma ltb_leb (a b : string) : String.ltb a b = true → String.leb a b = true.
Proof. unfold String.ltb, String.leb. destruct (String.compare a b); congruence. Qed.

Lemma insert_rule_perm r l : insert_rule r l ≡ₚ r :: l.
Proof.
  induction l as [|r' l IH]; simpl; [done|].
  destruct (String.ltb (Hostname r) (Hostname r')); [done|].
  rewrite IH. apply perm_swap.
Qed.

Lemma sort_rules_perm l : sort_rules l ≡ₚ l.
Proof.
  induction l as [|r l IH]; simpl; [done|].
  by rewrite insert_rule_perm, IH.
Qed.

Lemma insert_rule_hdrel x r l :
  HdRel rule_le x l → rule_le x r → HdRel rule_le x (insert_rule r l).
Proof.
  destruct l as [|r' l]; simpl; intros Hx Hr.
  - by constructor.
  - destruct (String.ltb (Hostname r) (Hostname r')); constructor; [done|].
    by inversion Hx.
Qed.

Lemma insert_rule_sorted r l : Sorted rule_le l → Sorted rule_le (insert_rule r l).
Proof.
  induction l as [|r' l IH]; simpl; intros Hs.
  - by repeat constructor.
  - destruct (String.ltb (Hostname r) (Hostname r')) eqn:Hlt.
    + constructor; [done|]. constructor. by apply ltb_leb.
    + inversion Hs as [|? ? Hs' Hhd]; subst. constructor; [by apply IH|].
      apply insert_rule_hdrel; [done|]. by apply ltb_false_leb.
Qed.

Lemma sort_rules_sorted l : Sorted rule_le (sort_rules l).
Proof.
  induction l as [|r l IH]; simpl; [constructor|]. by apply insert_rule_sorted.
Qed.

Lemma entries_of_len0 st : Len st = 0%nat → entries_of st = [].
Proof.
  unfold Len, entries_of. destruct (HostToService st) as [m|]; [|done].
  intros Hs. apply map_size_empty_inv in Hs as ->. apply map_to_list_empty.
Qed.

Lemma filter_none {A} (P : A → Prop) `{∀ x, Decision (P x)} (l : list A) :
  (∀ x, x ∈ l → ¬ P x) → filter P l = [].
Proof.
  induction l as [|x l IH]; intros Hl; [done|].
  rewrite filter_cons_False; [|apply Hl; by left].
  apply IH. intros y Hy. apply Hl. by right.
Qed.

(** The ingress list of any visiting order of the entries, given that no
    key is the empty string. *)
Lemma ingressRules_shape (es : list (string * string)) :
  (∀ h s, (h, s) ∈ es → h ≠ "") →
  let rules := ingressRules es in
  last rules = Some (mkRule "" "http_status:404") ∧
  length (filter (λ r, Hostname r = "") rules) = 1%nat ∧
  Sorted rule_le (removelast rules) ∧
  (es = [] → rules = [mkRule "" "http_status:404"]).
Proof.
  intros Hne rules. unfold rules, ingressRules.
  split; [apply last_snoc|]. split; [|split].
  - rewrite filter_app.
    rewrite (filter_none _ (sort_rules _)); [reflexivity|].
    intros x Hx. rewrite sort_rules_perm in Hx.
    apply list_elem_of_fmap in Hx as ([h s] & -> & Hin). simpl.
    by apply (Hne h s).
  - rewrite removelast_last. apply sort_rules_sorted.
  - intros ->. reflexivity.
Qed.

(** [SyncTunnel] issues one request, the [PUT] of [ingressRules] of the
    entries in the visiting order of its [range] loop. *)
Lemma SyncTunnel_request range_order reply cfg st w :
  requests (w_trace (fst (SyncTunnel range_order reply cfg st w))) =
    requests (w_trace w) ++
    [PutTunnelConfig (CloudFlareAccountID cfg) (CloudFlareTunnelID cfg)
       (ingressRules (range_order (w_tick w) _ (entries_of st)))].
Proof.
  unfold SyncTunnel, mbind, M_bind, range, request. simpl.
  destruct (reply _ _); simpl; apply requests_snoc_req.
Qed.

(** C8 (counterexample): a [SyncState] built by [Append] with the empty
    hostname publishes two rules without hostname, the catch-all not being
    the only one. *)
Lemma SyncTunnel_empty_hostname_two_terminal_rules :
  let st := fst (Append NewSyncState "" "http://web.default.svc.cluster.local:80") in
  requests (w_trace (fst (SyncTunnel (fun _ _ l => l) (fun _ _ => Reply_ok)
                            (mkConfig "acc" "tun") st (mkWorld [] (fun _ => []) [] 0)))) =
    [PutTunnelConfig "acc" "tun"
       [mkRule "" "http://web.default.svc.cluster.local:80"; mkRule "" "http_status:404"]].
Proof. vm_compute. reflexivity. Qed.

(** C8 (amended): for every [SyncState] none of whose hostnames is the
    empty string (as [SyncKube] builds them), in every visiting order, the
    published rule list ends with the rule [{service: http_status:404}],
    has exactly one rule without hostname, is sorted by hostname before
    it, and is that single rule when the state is empty. *)
Theorem SyncTunnel_catch_all_last range_order reply
    (Hperm : ∀ n A (l : list A), range_order n A l ≡ₚ l)
    (cfg : Config) (st : SyncState) (w : world) :
  (∀ h s, (h, s) ∈ entries_of st → h ≠ "") →
  ∃ rules,
    requests (w_trace (fst (SyncTunnel range_order reply cfg st w))) =
      requests (w_trace w) ++
      [PutTunnelConfig (CloudFlareAccountID cfg) (CloudFlareTunnelID cfg) rules] ∧
    last rules = Some (mkRule "" "http_status:404") ∧
    length (filter (λ r, Hostname r = "") rules) = 1%nat ∧
    Sorted rule_le (removelast rules) ∧
    (Len st = 0%nat → rules = [mkRule "" "http_status:404"]).
Proof.
  intros Hne.
  set (es := range_order (w_tick w) _ (entries_of st)).
  assert (Hes : es ≡ₚ entries_of st) by apply Hperm.
  destruct (ingressRules_shape es) as (Hlast & Hone & Hsorted & Hnil).
  { intros h s Hin. apply (Hne h s). by rewrite <- Hes. }
  exists (ingressRules es). split; [apply SyncTunnel_request|].
  split; [done|]. split; [done|]. split; [done|].
  intros H0. apply Hnil. apply entries_of_len0 in H0.
  rewrite H0 in Hes. by apply Permutation_nil.
Qed.

(** The catch-all theorem at a one-host state, with Go's iteration order
    the listed order and every request answered with success. *)
Lemma SyncTunnel_catch_all_last_witness :
  let st := mkSyncState (Some {["a.example.com" := "http://web.default.svc.cluster.local:80"]}) in
  let cfg := mkConfig "acc" "tun" in
  (∀ h s, (h, s) ∈ entries_of st → h ≠ "") ∧
  ∃ rules,
    requests (w_trace (fst (SyncTunnel (λ _ _ l, l) (λ _ _, Reply_ok) cfg st
                                        (mkWorld [] (λ _, []) [] 0)))) =
      [PutTunnelConfig "acc" "tun" rules] ∧
    last rules = Some (mkRule "" "http_status:404") ∧
    length (filter (λ r, Hostname r = "") rules) = 1%nat ∧
    Sorted rule_le (removelast rules) ∧
    (Len st = 0%nat → rules = [mkRule "" "http_status:404"]).
Proof.
  intros st cfg.
  assert (Hne : ∀ h s, (h, s) ∈ entries_of st → h ≠ "").
  { intros h s Hin. vm_compute in Hin.
    apply list_elem_of_singleton in Hin. injection Hin as -> _. discriminate. }
  split; [exact Hne|].
  apply (SyncTunnel_catch_all_last (λ _ _ l, l) (λ _ _, Reply_ok)
           (λ n A l, reflexivity l) cfg st (mkWorld [] (λ _, []) [] 0) Hne).
Defined.

(* ----------------------------------------------------------------- *)
(** ** A Hoare logic for the reconciler's monad *)

Section Hoare.

Definition hoare {A} (P : world → Prop) (m : M A)
    (Q : A → world → Prop) (E : string → world → Prop) : Prop :=
  ∀ w, P w → match m w with
             | (w', Ok a) => Q a w'
             | (w', Err e) => E e w'
             end.

Lemma hoare_ret {A} (P : world → Prop) (a : A) Q E :
  (∀ w, P w → Q a w) → hoare P (mret a) Q E.
Proof. intros H w Hw. by apply H. Qed.

Lemma hoare_bind {A B} P (m : M A) (f : A → M B) Q R E :
  hoare P m Q E → (∀ a, hoare (Q a) (f a) R E) → hoare P (m ≫= f) R E.
Proof.
  intros Hm Hf w Hw. unfold mbind, M_bind.
  specialize (Hm w Hw). destruct (m w) as [w' [a|e]]; [|done].
  by apply Hf.
Qed.

Lemma hoare_conseq {A} (P P' : world → Prop) (m : M A) (Q Q' : A → world → Prop)
    (E E' : string → world → Prop) :
  hoare P' m Q' E' → (∀ w, P w → P' w) → (∀ a w, Q' a w → Q a w) →
  (∀ e w, E' e w → E e w) → hoare P m Q E.
Proof.
  intros H HP HQ HE w Hw. specialize (H w (HP w Hw)).
  destruct (m w) as [w' [a|e]]; auto.
Qed.

Lemma hoare_throw {A} (P : world → Prop) e (Q : A → world → Prop) E :
  (∀ w, P w → E e w) → hoare P (throw e) Q E.
Proof. intros H w Hw. by apply H. Qed.

Lemma hoare_wrap {A} f P (m : M A) Q E :
  hoare P m Q (λ e w, E (f e) w) → hoare P (wrap f m) Q E.
Proof.
  intros H w Hw. specialize (H w Hw). unfold wrap.
  destruct (m w) as [w' [a|e]]; done.
Qed.

Lemma hoare_log lvl msg attrs (Q : unit → world → Prop) E :
  hoare (λ w, Q tt (after_log w (mkLog lvl msg attrs))) (log lvl msg attrs) Q E.
Proof. intros w Hw. done. Qed.

Lemma hoare_gets {A} (f : world → A) Q E : hoare (λ w, Q (f w) w) (gets f) Q E.
Proof. intros w Hw. done. Qed.

Lemma hoare_range range_order {A} (l : list A) Q E :
  hoare (λ w, Q (range_order (w_tick w) A l) (after_tick w)) (range range_order l) Q E.
Proof. intros w Hw. done. Qed.

Lemma hoare_request reply c Q E :
  hoare (λ w, Q (reply (w_tick w) c) (after_request reply w c)) (request reply c) Q E.
Proof. intros w Hw. done. Qed.

Lemma hoare_pre {A} (P : world → Prop) (m : M A) Q E :
  (∀ w0, P w0 → hoare (λ w, w = w0) m Q E) → hoare P m Q E.
Proof. intros H w Hw. apply (H w Hw w eq_refl). Qed.

End Hoare.

(** Apply the Hoare rule of the head of the program. *)
Ltac hstep :=
  lazymatch goal with
  | |- hoare _ (mbind _ _) _ _ => eapply hoare_bind
  | |- hoare _ (wrap _ _) _ _ => apply hoare_wrap
  | |- hoare _ (log _ _ _) _ _ => eapply hoare_conseq; [apply hoare_log| | |]
  | |- hoare _ (request _ _) _ _ => eapply hoare_conseq; [apply hoare_request| | |]
  | |- hoare _ (range _ _) _ _ => eapply hoare_conseq; [apply hoare_range| | |]
  | |- hoare _ (gets _) _ _ => eapply hoare_conseq; [apply hoare_gets| | |]
  | |- hoare _ (mret _) _ _ => apply hoare_ret
  | |- hoare _ (throw _) _ _ => apply hoare_throw
  end.

(* ----------------------------------------------------------------- *)
(** ** The index of [syncZoneRecords] *)

(** A record the reconciler owns: its comment carries the marker. *)
Definition is_managed (rec : dnsRecord) : bool :=
  Contains (Comment rec) managedCommentMarker.

Definition is_address (rec : dnsRecord) : Prop :=
  Type' rec = "A" ∨ Type' rec = "AAAA".

Lemma index_records_acc (L : list dnsRecord) (cm0 : gmap string dnsRecord)
    (ha0 : gset string) :
  let '(cm, ha) :=
    fold_left
      (fun '((cnameByName, hasAorAAAA) : gmap string dnsRecord * gset string) rec =>
         let name := normalizeHost (Name rec) in
         if String.eqb (Type' rec) "A" || String.eqb (Type' rec) "AAAA"
         then (cnameByName, {[name]} ∪ hasAorAAAA)
         else if String.eqb (Type' rec) "CNAME"
         then (<[name := rec]> cnameByName, hasAorAAAA)
         else (cnameByName, hasAorAAAA)) L (cm0, ha0) in
  (∀ n rec, cm !! n = Some rec →
     cm0 !! n = Some rec ∨ (rec ∈ L ∧ Type' rec = "CNAME" ∧ normalizeHost (Name rec) = n)) ∧
  (∀ n, is_Some (cm0 !! n) → is_Some (cm !! n)) ∧
  (∀ rec, rec ∈ L → Type' rec = "CNAME" → is_Some (cm !! normalizeHost (Name rec))) ∧
  (∀ h, h ∈ ha ↔ h ∈ ha0 ∨ ∃ rec, rec ∈ L ∧ is_address rec ∧ normalizeHost (Name rec) = h).
Proof.
  revert cm0 ha0. induction L as [|r L IH]; intros cm0 ha0; simpl.
  - split; [intros; by left|]. split; [done|]. split; [intros ? Hr; inversion Hr|].
    intros h. split; [by left|]. intros [H|(? & Hr & _)]; [done|inversion Hr].
  - unfold is_address.
    destruct (String.eqb (Type' r) "A" || String.eqb (Type' r) "AAAA") eqn:Ha.
    + specialize (IH cm0 ({[normalizeHost (Name r)]} ∪ ha0)).
      destruct (fold_left _ L _) as [cm ha]. destruct IH as (H1 & H2 & H3 & H4).
      split.
      { intros n rec Hn. destruct (H1 n rec Hn) as [?|(? & ? & ?)]; [by left|].
        right. split; [by right|]. done. }
      split; [done|]. split.
      { intros rec Hr Hc. apply elem_of_cons in Hr as [->|Hr]; [|by apply H3].
        rewrite Hc in Ha. discriminate. }
      intros h. rewrite H4. split.
      * intros [Hh|(rec & Hr & Hx & Hn)].
        -- apply elem_of_union in Hh as [Hh|Hh]; [|by left].
           apply elem_of_singleton in Hh as ->. right. exists r.
           split; [by left|]. split; [|done].
           apply orb_true_iff in Ha as [Ha|Ha]; apply String.eqb_eq in Ha; auto.
        -- right. exists rec. split; [by right|]. done.
      * intros [Hh|(rec & Hr & Hx & Hn)]; [left; set_solver|].
        apply elem_of_cons in Hr as [->|Hr]; [left; set_solver|].
        right. by exists rec.
    + destruct (String.eqb (Type' r) "CNAME") eqn:Hc.
      * specialize (IH (<[normalizeHost (Name r) := r]> cm0) ha0).
        destruct (fold_left _ L _) as [cm ha]. destruct IH as (H1 & H2 & H3 & H4).
        split.
        { intros n rec Hn. destruct (H1 n rec Hn) as [Hn0|(? & ? & ?)].
          - destruct (decide (n = normalizeHost (Name r))) as [->|Hne].
            + rewrite lookup_insert_eq in Hn0. injection Hn0 as <-.
              right. split; [by left|]. split; [by apply String.eqb_eq|done].
            + rewrite lookup_insert_ne in Hn0 by congruence. by left.
          - right. split; [by right|]. done. }
        split.
        { intros n Hn. apply H2. destruct (decide (n = normalizeHost (Name r))) as [->|Hne].
          - rewrite lookup_insert_eq. by eexists.
          - by rewrite lookup_insert_ne by congruence. }
        split.
        { intros rec Hr Hrc. apply elem_of_cons in Hr as [->|Hr]; [|by apply H3].
          apply H2. rewrite lookup_insert_eq. by eexists. }
        intros h. rewrite H4. split.
        -- intros [Hh|(rec & Hr & Hx & Hn)]; [by left|]. right. exists rec.
           split; [by right|]. done.
        -- intros [Hh|(rec & Hr & Hx & Hn)]; [by left|].
           apply elem_of_cons in Hr as [->|Hr]; [|right; by exists rec].
           exfalso. apply orb_false_iff in Ha as [Ha1 Ha2].
           destruct Hx as [Hx|Hx]; rewrite Hx in *; discriminate.
      * specialize (IH cm0 ha0).
        destruct (fold_left _ L _) as [cm ha]. destruct IH as (H1 & H2 & H3 & H4).
        split.
        { intros n rec Hn. destruct (H1 n rec Hn) as [?|(? & ? & ?)]; [by left|].
          right. split; [by right|]. done. }
        split; [done|]. split.
        { intros rec Hr Hrc. apply elem_of_cons in Hr as [->|Hr]; [|by apply H3].
          rewrite Hrc in Hc. discriminate. }
        intros h. rewrite H4. split.
        -- intros [Hh|(rec & Hr & Hx & Hn)]; [by left|]. right. exists rec.
           split; [by right|]. done.
        -- intros [Hh|(rec & Hr & Hx & Hn)]; [by left|].
           apply elem_of_cons in Hr as [->|Hr]; [|right; by exists rec].
           exfalso. apply orb_false_iff in Ha as [Ha1 Ha2].
           destruct Hx as [Hx|Hx]; rewrite Hx in *; discriminate.
Qed.

(** [cnameByName] holds, under each normalized name, a listed CNAME of
    that name, and has an entry for every listed CNAME; [hasAorAAAA] is
    the set of normalized names of the listed A and AAAA records. *)
Lemma index_records_spec (L : list dnsRecord) :
  let '(cm, ha) := index_records L in
  (∀ n rec, cm !! n = Some rec →
     rec ∈ L ∧ Type' rec = "CNAME" ∧ normalizeHost (Name rec) = n) ∧
  (∀ rec, rec ∈ L → Type' rec = "CNAME" → is_Some (cm !! normalizeHost (Name rec))) ∧
  (∀ h, h ∈ ha ↔ ∃ rec, rec ∈ L ∧ is_address rec ∧ normalizeHost (Name rec) = h).
Proof.
  unfold index_records. pose proof (index_records_acc L ∅ ∅) as H.
  destruct (fold_left _ L _) as [cm ha]. destruct H as (H1 & _ & H3 & H4).
  split.
  { intros n rec Hn. destruct (H1 n rec Hn) as [Hn0|?]; [|done].
    by rewrite lookup_empty in Hn0. }
  split; [done|]. intros h. rewrite H4. set_solver.
Qed.

Lemma hoare_true {A} (m : M A) : hoare (λ _, True) m (λ _ _, True) (λ _ _, True).
Proof. intros w _. by destruct (m w) as [? []]. Qed.

Lemma hoare_conj {A} P (m : M A) Q1 Q2 E1 E2 :
  hoare P m Q1 E1 → hoare P m Q2 E2 →
  hoare P m (λ a w, Q1 a w ∧ Q2 a w) (λ e w, E1 e w ∧ E2 e w).
Proof.
  intros H1 H2 w Hw. specialize (H1 w Hw). specialize (H2 w Hw).
  destruct (m w) as [w' [a|e]]; by split.
Qed.

(** The loop over the existing CNAMEs adds to [seen] exactly the names
    of the loop that are desired. *)
Lemma handle_cnames_seen reply zid zn target hostSet cnames seen :
  hoare (λ _, True) (handle_cnames reply zid zn target hostSet cnames seen)
    (λ seen' _, ∀ x, x ∈ seen' ↔ x ∈ seen ∨ ((∃ rec, (x, rec) ∈ cnames) ∧ x ∈ hostSet))
    (λ _ _, True).
Proof.
  revert seen. induction cnames as [|[name rec] cnames IH]; intros seen; simpl.
  - apply hoare_ret. intros w _ x. split; [by left|]. intros [?|[[? Hx] _]]; [done|].
    inversion Hx.
  - assert (Hstep : ∀ seen', (∀ x, x ∈ seen' ↔ x ∈ seen ∨ (x = name ∧ name ∈ hostSet)) →
              hoare (λ _, True) (handle_cnames reply zid zn target hostSet cnames seen')
                (λ seen'' _, ∀ x, x ∈ seen'' ↔ x ∈ seen ∨
                   ((∃ rec0, (x, rec0) ∈ (name, rec) :: cnames) ∧ x ∈ hostSet))
                (λ _ _, True)).
    { intros seen' Hs'. eapply hoare_conseq; [apply IH|done| |done].
      intros seen'' w H x. cbv beta in H. rewrite H, Hs'. split.
      - intros [[?|[-> ?]]|[[r Hr] ?]]; [by left|right|right].
        + split; [|done]. exists rec. by left.
        + split; [|done]. exists r. by right.
      - intros [?|[[r Hr] Hx]]; [by left; left|].
        apply elem_of_cons in Hr as [Hr|Hr].
        + injection Hr as -> ->. left. by right.
        + right. split; [|done]. by exists r. }
    assert (Hin : ∀ seen' : gset string, name ∈ hostSet →
              (∀ x, x ∈ {[name]} ∪ seen' ↔ x ∈ seen' ∨ (x = name ∧ name ∈ hostSet))).
    { intros seen' Hn x. rewrite elem_of_union, elem_of_singleton. naive_solver. }
    assert (Hout : name ∉ hostSet → (∀ x, x ∈ seen ↔ x ∈ seen ∨ (x = name ∧ name ∈ hostSet))).
    { intros Hn x. naive_solver. }
    destruct (bool_decide (name ∈ hostSet)) eqn:Hb;
      [apply bool_decide_eq_true in Hb|apply bool_decide_eq_false in Hb];
      destruct (Contains (Comment rec) managedCommentMarker);
      [destruct (equalDNSHost (Content rec) target)| | |]; simpl;
      repeat (eapply hoare_bind; [apply hoare_true|intros ?]);
      apply Hstep; auto.
Qed.

(* ----------------------------------------------------------------- *)
(** ** Invariants of a reconciliation run

    A property of the world that survives every log line, every [range]
    loop and every request the reconciler may issue ([okc]) holds after
    each function of [dns.go], whether it returns or fails. *)

(** The requests [syncZoneRecords] may issue in zone [zoneID], given the
    records [R] the zone holds when it is listed. *)
Definition zone_calls_ok (okc : call → Prop) (zoneID target : string)
    (hosts : list string) (R : list dnsRecord) : Prop :=
  okc (GetDNSRecords zoneID) ∧
  (∀ rec, rec ∈ R → Type' rec = "CNAME" → is_managed rec = true →
     okc (DeleteDNSRecord zoneID (ID rec)) ∧ okc (PatchCNAME zoneID (ID rec) target)) ∧
  (∀ h, h ∈ hosts →
     (∀ rec, rec ∈ R → Type' rec = "CNAME" → normalizeHost (Name rec) ≠ h) →
     (∀ rec, rec ∈ R → is_address rec → normalizeHost (Name rec) ≠ h) →
     okc (PostCNAME zoneID h target)).

Section Frame.

Variable range_order : nat → ∀ A : Type, list A → list A.
Variable reply : nat → call → api_reply.
Hypothesis Hperm : ∀ n A (l : list A), range_order n A l ≡ₚ l.

Variable I : world → Prop.
Variable okc : call → Prop.
Hypothesis I_log : ∀ w l, I w → I (after_log w l).
Hypothesis I_tick : ∀ w, I w → I (after_tick w).
Hypothesis I_req : ∀ w c, I w → okc c → I (after_request reply w c).

Lemma frame_log lvl msg attrs : hoare I (log lvl msg attrs) (λ _, I) (λ _, I).
Proof. intros w Hw. by apply I_log. Qed.

Lemma frame_request c : okc c → hoare I (request reply c) (λ _, I) (λ _, I).
Proof. intros Hc w Hw. by apply I_req. Qed.

Lemma frame_range {A} (l : list A) : hoare I (range range_order l) (λ _, I) (λ _, I).
Proof. intros w Hw. by apply I_tick. Qed.

Ltac frame :=
  repeat first
    [ apply frame_log
    | apply frame_range
    | apply hoare_wrap
    | apply hoare_ret; by auto
    | apply hoare_throw; by auto
    | eapply hoare_bind ].

Lemma frame_reply {A} (k : api_reply → M A) c :
  okc c → (∀ r, hoare I (k r) (λ _, I) (λ _, I)) →
  hoare I (r ← request reply c; k r) (λ _, I) (λ _, I).
Proof. intros Hc Hk. eapply hoare_bind; [by apply frame_request|]. exact Hk. Qed.

Lemma frame_delete zid rid :
  okc (DeleteDNSRecord zid rid) →
  hoare I (deleteDNSRecord reply zid rid) (λ _, I) (λ _, I).
Proof. intros Hc. apply frame_reply; [done|]. intros []; frame. Qed.

Lemma frame_update zid rid target :
  okc (PatchCNAME zid rid target) →
  hoare I (updateCNAMERecordTarget reply zid rid target) (λ _, I) (λ _, I).
Proof. intros Hc. apply frame_reply; [done|]. intros []; frame. Qed.

Lemma frame_create zid host target :
  okc (PostCNAME zid host target) →
  hoare I (createCNAMERecord reply zid host target) (λ _, I) (λ _, I).
Proof. intros Hc. apply frame_reply; [done|]. intros []; frame. Qed.

Lemma frame_handle_cnames zid zn target hostSet cnames seen :
  (∀ name rec, (name, rec) ∈ cnames → is_managed rec = true →
     okc (DeleteDNSRecord zid (ID rec)) ∧ okc (PatchCNAME zid (ID rec) target)) →
  hoare I (handle_cnames reply zid zn target hostSet cnames seen) (λ _, I) (λ _, I).
Proof.
  revert seen. induction cnames as [|[name rec] cnames IH]; intros seen Hc; simpl.
  - frame.
  - assert (IH' : ∀ seen', hoare I (handle_cnames reply zid zn target hostSet cnames seen')
                              (λ _, I) (λ _, I)).
    { intros seen'. apply IH. intros n r Hr. apply (Hc n r). by right. }
    fold (is_managed rec).
    destruct (is_managed rec) eqn:Hm; simpl.
    + destruct (Hc name rec ltac:(by left) Hm) as [Hd Hu].
      destruct (bool_decide (name ∈ hostSet)); simpl.
      * destruct (equalDNSHost (Content rec) target); simpl;
          (eapply hoare_bind; [apply frame_log|intros ?]);
          try apply IH'.
        eapply hoare_bind; [apply hoare_wrap, frame_update, Hu|intros ?]. apply IH'.
      * eapply hoare_bind; [apply frame_log|intros ?].
        eapply hoare_bind; [apply hoare_wrap, frame_delete, Hd|intros ?]. apply IH'.
    + destruct (bool_decide (name ∈ hostSet)); simpl;
        (eapply hoare_bind; [apply frame_log|intros ?]); apply IH'.
Qed.

Lemma frame_create_missing zid zn target st seen hasA hosts :
  (∀ h, h ∈ hosts → h ∉ seen → h ∉ hasA → okc (PostCNAME zid h target)) →
  hoare I (create_missing reply zid zn target st seen hasA hosts) (λ _, I) (λ _, I).
Proof.
  induction hosts as [|h hosts IH]; intros Hc; simpl.
  - frame.
  - assert (IH' : hoare I (create_missing reply zid zn target st seen hasA hosts)
                    (λ _, I) (λ _, I)).
    { apply IH. intros h' Hh'. apply Hc. by right. }
    destruct (bool_decide (h ∈ seen)) eqn:Hs; [done|].
    destruct (bool_decide (h ∈ hasA)) eqn:Ha.
    + eapply hoare_bind; [apply frame_log|intros ?]. apply IH'.
    + eapply hoare_bind; [apply frame_log|intros ?].
      eapply hoare_bind; [apply hoare_wrap, frame_create|intros ?]; [|apply IH'].
      apply Hc; [by left|by apply bool_decide_eq_false in Hs|by apply bool_decide_eq_false in Ha].
Qed.

Lemma frame_syncZoneRecords zid zn hosts st target R :
  zone_calls_ok okc zid target hosts R →
  hoare (λ w, I w ∧ w_records w zid = R)
    (syncZoneRecords range_order reply zid zn hosts st target) (λ _, I) (λ _, I).
Proof.
  intros (HG & HDU & HP). unfold syncZoneRecords.
  eapply hoare_bind with (Q := λ _ w, I w ∧ w_records w zid = R).
  { intros w [HI HR]. split; [by apply I_log|done]. }
  intros ?.
  eapply hoare_bind with
    (Q := λ recs w, I w ∧ recs = filter (λ r, is_address_or_cname (Type' r)) R).
  { apply hoare_wrap. unfold loadDNSRecords.
    eapply hoare_bind with (Q := λ _ w, I w ∧ w_records w zid = R).
    { intros w [HI HR]. split; [by apply I_req|].
      simpl. by destruct (reply_ok _). }
    intros r. destruct r.
    - intros w [HI HR]. simpl. split; [done|]. by rewrite HR.
    - apply hoare_throw. by intros w [HI _].
    - intros w [HI HR]. simpl. split; [done|]. by rewrite HR. }
  intros recs. apply hoare_pre. intros w1 [HI1 ->].
  pose proof (index_records_spec (filter (λ r, is_address_or_cname (Type' r)) R)) as Hspec.
  destruct (index_records _) as [cm ha]. destruct Hspec as (Hcm & Hcm2 & Hha).
  eapply hoare_bind with (Q := λ cn w, I w ∧ cn ≡ₚ map_to_list cm).
  { intros w ->. split; [by apply I_tick|]. apply Hperm. }
  intros cn. apply hoare_pre. intros w2 [HI2 Hcn].
  eapply hoare_bind.
  { eapply hoare_conseq;
      [apply hoare_conj;
         [apply frame_handle_cnames
         |eapply hoare_conseq; [apply handle_cnames_seen|done|done|done]]| | |].
    - intros name rec Hin Hm. rewrite Hcn in Hin. apply elem_of_map_to_list in Hin.
      destruct (Hcm _ _ Hin) as (Hr & Hc & _).
      apply list_elem_of_filter in Hr as [_ Hr]. by apply HDU.
    - intros w ->. exact HI2.
    - intros seen w H. exact H.
    - intros e w [H _]. exact H. }
  intros seen. apply hoare_pre. intros w3 [HI3 Hseen].
  eapply hoare_conseq; [apply frame_create_missing| |done|done]; [|by intros w ->].
  intros h Hh Hns Hna. apply HP; [done| |].
  - intros rec Hr Hc Hn. apply Hns, Hseen. right.
    split; [|by apply elem_of_list_to_set].
    destruct (Hcm2 rec) as [rec' Hrec']; [|done|].
    { apply list_elem_of_filter. split; [|done]. unfold is_address_or_cname.
      by rewrite Hc, orb_true_r. }
    exists rec'. rewrite Hcn, elem_of_map_to_list. by rewrite <- Hn.
  - intros rec Hr Ha Hn. apply Hna, Hha.
    exists rec. split; [|done]. apply list_elem_of_filter. split; [|done].
    unfold is_address_or_cname. destruct Ha as [-> | ->]; reflexivity.
Qed.

Lemma frame_sync_zones accountID target st zids zl :
  (∀ zn hosts zid, (zn, hosts) ∈ zl → zids !! zn = Some zid → zid ≠ "" →
     ∀ w, I w → zone_calls_ok okc zid target hosts (w_records w zid)) →
  hoare I (sync_zones range_order reply accountID target st zids zl) (λ _, I) (λ _, I).
Proof.
  induction zl as [|[zn hosts] zl IH]; intros Hz; simpl.
  - apply hoare_ret. done.
  - assert (IH' : hoare I (sync_zones range_order reply accountID target st zids zl)
                    (λ _, I) (λ _, I)).
    { apply IH. intros zn' hosts' zid' Hin. apply Hz. by right. }
    destruct (String.eqb (default "" (zids !! zn)) "") eqn:He.
    + eapply hoare_bind; [apply frame_log|intros ?]. apply IH'.
    + apply String.eqb_neq in He.
      destruct (zids !! zn) as [zid|] eqn:Hzid; simpl in *; [|done].
      eapply hoare_bind; [|intros ?; apply IH'].
      apply hoare_wrap. apply hoare_pre. intros w Hw.
      eapply hoare_conseq; [apply (frame_syncZoneRecords _ _ _ _ _ (w_records w zid))| |done|done].
      * eapply (Hz zn hosts zid); [by left|done|done|]. exact Hw.
      * intros w' ->. done.
Qed.

Lemma frame_distribute accountID zones hs acc :
  hoare I (distribute accountID zones hs acc) (λ _, I) (λ _, I).
Proof.
  revert acc. induction hs as [|[host svc] hs IH]; intros acc; simpl.
  - apply hoare_ret. done.
  - destruct (String.eqb _ ""); [apply IH|].
    destruct (String.eqb _ ""); [|apply IH].
    eapply hoare_bind; [apply frame_log|intros ?]. apply IH.
Qed.

End Frame.

(** The invariant through a whole [SyncDNS] run: the listing of the
    zones must be allowed, and, for every zone that receives hostnames,
    the requests of [syncZoneRecords] on it. *)
Lemma frame_SyncDNS range_order reply
    (Hperm : ∀ n A (l : list A), range_order n A l ≡ₚ l)
    (I : world → Prop) (okc : call → Prop)
    (I_log : ∀ w l, I w → I (after_log w l))
    (I_tick : ∀ w, I w → I (after_tick w))
    (I_req : ∀ w c, I w → okc c → I (after_request reply w c))
    (rt : Runtime) (st : SyncState) :
  (∀ cfg, rt_Config rt = Some cfg → okc (GetZones (CloudFlareAccountID cfg))) →
  (∀ cfg m zn hosts zid w, rt_Config rt = Some cfg → HostToService st = Some m →
     zn ≠ "" → hosts ≠ [] →
     (∀ h, h ∈ hosts → h ≠ "" ∧ bestMatchingZone h (w_zones w) = zn ∧
                       ∃ k, k ∈ dom m ∧ h = normalizeHost k) →
     zone_ids (w_zones w) !! zn = Some zid → zid ≠ "" → I w →
     zone_calls_ok okc zid (CloudFlareTunnelID cfg +:+ ".cfargotunnel.com") hosts
       (w_records w zid)) →
  hoare I (SyncDNS range_order reply rt st) (λ _, I) (λ _, I).
Proof.
  intros HZ Hzone. apply hoare_pre. intros w0 HI0.
  set (I' := λ w, I w ∧ w_zones w = w_zones w0).
  assert (I'_log : ∀ w l, I' w → I' (after_log w l)).
  { intros w l [HI Hz]. split; [by apply I_log|done]. }
  assert (I'_tick : ∀ w, I' w → I' (after_tick w)).
  { intros w [HI Hz]. split; [by apply I_tick|done]. }
  assert (I'_req : ∀ w c, I' w → okc c → I' (after_request reply w c)).
  { intros w c [HI Hz] Hc. split; [by apply I_req|done]. }
  eapply hoare_conseq with (P' := I') (Q' := λ _, I') (E' := λ _, I');
    [| intros w ->; by split | intros _ w [? _]; done | intros _ w [? _]; done].
  unfold SyncDNS.
  destruct (rt_HasCloudFlareClient rt); simpl; [|by apply hoare_throw].
  destruct (rt_Config rt) as [cfg|] eqn:Hcfg; [|by apply hoare_throw].
  destruct (HostToService st) as [m|] eqn:Hm; [|by eapply frame_log].
  destruct (size m =? 0)%nat; [by eapply frame_log|].
  eapply hoare_bind; [by eapply frame_log|intros ?].
  eapply hoare_bind with (Q := λ zones w, I' w ∧ zones = w_zones w0).
  { intros w [HI Hz]. unfold wrap, loadZones, mbind, M_bind, request, gets, throw; simpl.
    destruct (reply (w_tick w) _); simpl;
      (split; [apply I'_req; [by split|by apply HZ]|done]). }
  intros zones. apply hoare_pre. intros w1 [HI1 Hzones].
  destruct zones as [|z zs]; [eapply hoare_conseq; [by eapply frame_log|by intros w ->|done|done]|].
  set (zones := z :: zs) in *.
  eapply hoare_bind with (Q := λ hs w, I' w ∧ hs ≡ₚ map_to_list m).
  { intros w ->. split; [by apply I'_tick|apply Hperm]. }
  intros hs. apply hoare_pre. intros w2 [HI2 Hhs].
  destruct (distribute_spec (CloudFlareAccountID cfg) zones hs ∅ w2)
    as (w3 & zh & Hrun & Hok & _).
  eapply hoare_bind with (Q := λ zh' w, I' w ∧ zh' = zh).
  { intros w ->. pose proof (frame_distribute I' I'_log (CloudFlareAccountID cfg) zones hs ∅ w2 HI2)
      as H3. rewrite Hrun in H3 |- *. by split. }
  intros zh'. apply hoare_pre. intros w4 [HI4 ->].
  eapply hoare_bind with (Q := λ zl w, I' w ∧ zl ≡ₚ map_to_list zh).
  { intros w ->. split; [by apply I'_tick|apply Hperm]. }
  intros zl. apply hoare_pre. intros w5 [HI5 Hzl].
  eapply hoare_bind; [|intros ?; by eapply frame_log].
  eapply hoare_conseq; [eapply (frame_sync_zones range_order reply Hperm I' okc)| |done|done];
    [done|done|done| |by intros w ->].
  intros zn hosts zid Hin Hzid Hne w [HI Hz].
  rewrite Hzl in Hin. apply elem_of_map_to_list in Hin.
  assert (Hsrc : ∀ host s, (host, s) ∈ hs → (λ k, k ∈ dom m) host).
  { intros host s Hh. rewrite Hhs in Hh. apply elem_of_map_to_list in Hh.
    simpl. apply elem_of_dom. by eexists. }
  destruct (Hok _ Hsrc (zone_hosts_ok_empty zones _) zn hosts Hin) as (Hzn & Hhosts & Hall).
  eapply (Hzone cfg m zn hosts zid w); try done.
  - intros h Hh. rewrite Hz, <- Hzones. apply Hall, Hh.
  - rewrite Hz, <- Hzones. done.
Qed.

(* ----------------------------------------------------------------- *)
(** ** Traces and the provider's records *)

(** The requests issued since [w0] all satisfy [okc]. *)
Definition calls_since (okc : call → Prop) (w0 w : world) : Prop :=
  ∃ new, requests (w_trace w) = requests (w_trace w0) ++ new ∧ Forall okc new.

Lemma calls_since_refl okc w : calls_since okc w w.
Proof. exists []. by rewrite app_nil_r. Qed.

Lemma calls_since_log okc w0 w l : calls_since okc w0 w → calls_since okc w0 (after_log w l).
Proof. intros [new [H Hf]]. exists new. simpl. by rewrite requests_snoc_log. Qed.

Lemma calls_since_tick okc w0 w : calls_since okc w0 w → calls_since okc w0 (after_tick w).
Proof. done. Qed.

Lemma calls_since_req okc reply w0 w c :
  calls_since okc w0 w → okc c → calls_since okc w0 (after_request reply w c).
Proof.
  intros [new [H Hf]] Hc. exists (new ++ [c]). simpl.
  rewrite requests_snoc_req, H, app_assoc. split; [done|].
  apply Forall_app. by split; [|constructor].
Qed.

Lemma string_length_app (s1 s2 : string) :
  String.length (s1 +:+ s2) = (String.length s1 + String.length s2)%nat.
Proof. induction s1 as [|a s1 IH]; simpl; [reflexivity|by rewrite IH]. Qed.

Lemma string_length_concat x (l : list string) :
  x ∈ l → (String.length x <= String.length (String.concat "" l))%nat.
Proof.
  induction l as [|y l IH]; intros Hx; [inversion Hx|].
  destruct l as [|y' l].
  - apply list_elem_of_singleton in Hx as ->. simpl. lia.
  - change (String.concat "" (y :: y' :: l)) with (y +:+ "" +:+ String.concat "" (y' :: l)).
    rewrite !string_length_app. apply elem_of_cons in Hx as [->|Hx]; [lia|].
    specialize (IH Hx). lia.
Qed.

(** The ID of a created record differs from every ID of its zone. *)
Lemma fresh_id_new (recs : list dnsRecord) rec : rec ∈ recs → ID rec ≠ fresh_id recs.
Proof.
  intros Hr Heq. unfold fresh_id in Heq.
  assert (Hle : (String.length (ID rec) <= String.length (String.concat "" (map ID recs)))%nat).
  { apply string_length_concat. by apply list_elem_of_fmap_2. }
  apply (f_equal String.length) in Heq. rewrite string_length_app in Heq. simpl in Heq. lia.
Qed.

Lemma upd_zone_other f zid l z : z ≠ zid → upd_zone f zid l z = f z.
Proof. intros Hne. unfold upd_zone. by rewrite (proj2 (String.eqb_neq z zid) Hne). Qed.

Lemma upd_zone_same f zid l : upd_zone f zid l zid = l.
Proof. unfold upd_zone. by rewrite String.eqb_refl. Qed.

(** The zone a request works on. *)
Definition zone_of (c : call) : option string :=
  match c with
  | GetDNSRecords z | DeleteDNSRecord z _ | PostCNAME z _ _ | PatchCNAME z _ _ => Some z
  | _ => None
  end.

Lemma apply_call_other_zone c recs z : zone_of c ≠ Some z → apply_call c recs z = recs z.
Proof.
  intros Hz. destruct c; simpl in *; try done; apply upd_zone_other; congruence.
Qed.

(** A record whose ID is unique in its zone survives every request that
    neither deletes nor patches that ID there. *)
Definition keeps_record (z : string) (r : dnsRecord) (recs : string → list dnsRecord) : Prop :=
  r ∈ recs z ∧ ∀ r', r' ∈ recs z → ID r' = ID r → r' = r.

Definition spares (z rid : string) (c : call) : Prop :=
  c ≠ DeleteDNSRecord z rid ∧ ∀ t, c ≠ PatchCNAME z rid t.

Lemma apply_call_keeps z r c recs :
  keeps_record z r recs → spares z (ID r) c → keeps_record z r (apply_call c recs).
Proof.
  intros [Hin Huniq] [Hd Hp]. unfold keeps_record.
  destruct (decide (zone_of c = Some z)) as [Hz|Hz];
    [|by rewrite apply_call_other_zone].
  destruct c; simpl in Hz; try discriminate; injection Hz as ->; cbn [apply_call]; try rewrite upd_zone_same.
  - by split.
  - assert (Hne : recordID ≠ ID r) by (intros ->; by apply Hd).
    split.
    + apply list_elem_of_filter. split; [|done].
      by rewrite (proj2 (String.eqb_neq _ _) (not_eq_sym Hne)).
    + intros r' Hr' Hid. apply list_elem_of_filter in Hr' as [_ Hr']. by apply Huniq.
  - split; [apply elem_of_app; by left|].
    intros r' Hr' Hid. apply elem_of_app in Hr' as [Hr'|Hr']; [by apply Huniq|].
    apply list_elem_of_singleton in Hr' as ->. simpl in Hid.
    exfalso. by apply (fresh_id_new (recs z) r).
  - assert (Hne : recordID ≠ ID r) by (intros ->; by apply (Hp target)).
    split.
    + apply list_elem_of_fmap. exists r. split; [|done].
      by rewrite (proj2 (String.eqb_neq _ _) (not_eq_sym Hne)).
    + intros r' Hr' Hid. apply list_elem_of_fmap in Hr' as (r0 & -> & Hr0).
      destruct (String.eqb (ID r0) recordID) eqn:He.
      * apply String.eqb_eq in He. simpl in Hid. congruence.
      * by apply Huniq.
Qed.

(** An event of the trace stays in it. *)
Lemma in_trace_log ev w l : ev ∈ w_trace w → ev ∈ w_trace (after_log w l).
Proof. intros H. simpl. apply elem_of_app. by left. Qed.

Lemma in_trace_tick ev w : ev ∈ w_trace w → ev ∈ w_trace (after_tick w).
Proof. done. Qed.

Lemma in_trace_req reply ev w c : ev ∈ w_trace w → ev ∈ w_trace (after_request reply w c).
Proof. intros H. simpl. apply elem_of_app. by left. Qed.

Lemma in_trace_handle_cnames reply ev zid zn target hostSet cnames seen :
  hoare (λ w, ev ∈ w_trace w) (handle_cnames reply zid zn target hostSet cnames seen)
    (λ _ w, ev ∈ w_trace w) (λ _ w, ev ∈ w_trace w).
Proof.
  eapply (frame_handle_cnames reply (λ w, ev ∈ w_trace w) (λ _, True));
    eauto using in_trace_log, in_trace_req.
Qed.

Lemma in_trace_create_missing reply ev zid zn target st seen hasA hosts :
  hoare (λ w, ev ∈ w_trace w) (create_missing reply zid zn target st seen hasA hosts)
    (λ _ w, ev ∈ w_trace w) (λ _ w, ev ∈ w_trace w).
Proof.
  eapply (frame_create_missing reply (λ w, ev ∈ w_trace w) (λ _, True));
    eauto using in_trace_log, in_trace_req.
Qed.

(** The warning of the loop over existing CNAMEs for a desired hostname
    whose CNAME does not carry the marker. *)
Definition warn_unmanaged (zid zn name : string) (rec : dnsRecord) : log_line :=
  mkLog Warn "hostname present in SyncState but CNAME is not managed (no marker in comment); leaving untouched"
    [("zone_id", zid); ("zone_name", zn); ("hostname", name);
     ("record_id", ID rec); ("content", Content rec); ("comment", Comment rec)].

(** The warning of the creation loop for a hostname with address records. *)
Definition warn_address (zid zn host : string) : log_line :=
  mkLog Warn "A/AAAA records exist for hostname; skipping CNAME creation to avoid conflict"
    [("zone_id", zid); ("zone_name", zn); ("hostname", host)].

Lemma handle_cnames_warns reply zid zn target hostSet cnames seen name rec :
  (name, rec) ∈ cnames → name ∈ hostSet → is_managed rec = false →
  hoare (λ _, True) (handle_cnames reply zid zn target hostSet cnames seen)
    (λ _ w, Logged (warn_unmanaged zid zn name rec) ∈ w_trace w) (λ _ _, True).
Proof.
  intros Hin Hn Hm. revert seen. induction cnames as [|[name' rec'] cnames IH]; intros seen;
    [inversion Hin|].
  apply elem_of_cons in Hin as [Heq|Hin].
  - injection Heq as <- <-. simpl. unfold is_managed in Hm. rewrite Hm.
    rewrite (bool_decide_eq_true_2 _ Hn). simpl.
    eapply hoare_bind with (Q := λ _ w, Logged (warn_unmanaged zid zn name rec) ∈ w_trace w).
    { intros w _. simpl. apply elem_of_app. right. by left. }
    intros ?. eapply hoare_conseq; [apply (in_trace_handle_cnames _ (Logged (warn_unmanaged zid zn name rec)))|done|done|done].
  - simpl. destruct (bool_decide (name' ∈ hostSet));
      destruct (Contains (Comment rec') managedCommentMarker);
      [destruct (equalDNSHost (Content rec') target)| | |]; simpl;
      repeat (eapply hoare_bind; [apply hoare_true|intros ?]); by apply IH.
Qed.

Lemma create_missing_warns reply zid zn target st seen hasA hosts host :
  host ∈ hosts → host ∉ seen → host ∈ hasA →
  hoare (λ _, True) (create_missing reply zid zn target st seen hasA hosts)
    (λ _ w, Logged (warn_address zid zn host) ∈ w_trace w) (λ _ _, True).
Proof.
  intros Hin Hs Ha. induction hosts as [|h hosts IH]; [inversion Hin|].
  apply elem_of_cons in Hin as [->|Hin].
  - simpl. rewrite (bool_decide_eq_false_2 _ Hs), (bool_decide_eq_true_2 _ Ha).
    eapply hoare_bind with (Q := λ _ w, Logged (warn_address zid zn h) ∈ w_trace w).
    { intros w _. simpl. apply elem_of_app. right. by left. }
    intros ?. eapply hoare_conseq; [apply (in_trace_create_missing _ (Logged (warn_address zid zn h)))|done|done|done].
  - simpl. destruct (bool_decide (h ∈ seen)); [by apply IH|].
    destruct (bool_decide (h ∈ hasA)); simpl;
      repeat (eapply hoare_bind; [apply hoare_true|intros ?]); by apply IH.
Qed.

Lemma after_request_get_records reply w z :
  w_records (after_request reply w (GetDNSRecords z)) = w_records w.
Proof. simpl. by destruct (reply_ok _). Qed.

(** A successful [syncZoneRecords] ran both loops to completion on the
    index of the records the zone held when it started. *)
Lemma syncZoneRecords_ok_inv range_order reply
    (Hperm : ∀ n A (l : list A), range_order n A l ≡ₚ l)
    zid zn hosts st target w w' :
  syncZoneRecords range_order reply zid zn hosts st target w = (w', Ok tt) →
  let '(cm, ha) := index_records (filter (λ r, is_address_or_cname (Type' r)) (w_records w zid)) in
  ∃ cn w2 seen w3,
    cn ≡ₚ map_to_list cm ∧
    handle_cnames reply zid zn target (list_to_set hosts) cn ∅ w2 = (w3, Ok seen) ∧
    create_missing reply zid zn target st seen ha hosts w3 = (w', Ok tt).
Proof.
  unfold syncZoneRecords, loadDNSRecords, request, gets, throw, log, wrap, range.
  cbv [mbind M_bind]. simpl.
  destruct (reply (w_tick w) (GetDNSRecords zid)); simpl; try discriminate;
    (destruct (reply_ok _); simpl);
    destruct (index_records _) as [cm ha];
    (destruct (handle_cnames _ _ _ _ _ _ _ _) as [w3 [seen|e]] eqn:Hh; [|discriminate]);
    intros Hc; (eexists _, _, seen, w3; split; [apply Hperm|]; split; [exact Hh|exact Hc]).
Qed.

Lemma keeps_record_log z r w l :
  keeps_record z r (w_records w) → keeps_record z r (w_records (after_log w l)).
Proof. done. Qed.

Lemma keeps_record_req reply z r w c :
  keeps_record z r (w_records w) → spares z (ID r) c →
  keeps_record z r (w_records (after_request reply w c)).
Proof. intros H Hc. simpl. destruct (reply_ok _); [by apply apply_call_keeps|done]. Qed.

(** A managed record of a zone whose IDs are unique differs in ID from
    an unmanaged record of that zone. *)
Lemma managed_spares z r zid rec recs target :
  keeps_record z r recs → is_managed r = false →
  rec ∈ recs zid → is_managed rec = true →
  spares z (ID r) (DeleteDNSRecord zid (ID rec)) ∧
  spares z (ID r) (PatchCNAME zid (ID rec) target).
Proof.
  intros [_ Huniq] Hm Hrec Hmr.
  assert (Hne : zid = z → ID rec ≠ ID r).
  { intros -> Hid. rewrite (Huniq rec Hrec Hid) in Hmr. congruence. }
  split; split; try (intros t; intros Heq; injection Heq as -> ? ->; by apply Hne);
    try (intros Heq; injection Heq as -> ?; by apply Hne); discriminate.
Qed.

(* ================================================================= *)
(** ** Claims on the DNS reconciler *)

(** C3: a record without the managed marker, whose ID is unique in its
    zone, is neither deleted nor patched by a [SyncDNS] run and is still
    in its zone afterwards, whether the run succeeds or fails.  In
    particular, when it is the only CNAME of a desired hostname of the
    zone being synchronised, no CNAME is created for that hostname and a
    successful [syncZoneRecords] logs the "not managed" warning for it. *)
Theorem SyncDNS_unmanaged_untouched range_order reply
    (Hperm : ∀ n A (l : list A), range_order n A l ≡ₚ l)
    (rt : Runtime) (st : SyncState) (w : world) (z : string) (r : dnsRecord)
    (Hr : r ∈ w_records w z) (Hm : is_managed r = false)
    (Huniq : ∀ r', r' ∈ w_records w z → ID r' = ID r → r' = r) :
  (let w' := fst (SyncDNS range_order reply rt st w) in
   r ∈ w_records w' z ∧ calls_since (spares z (ID r)) w w') ∧
  (∀ zn hosts target,
     Type' r = "CNAME" → normalizeHost (Name r) ∈ hosts →
     (∀ r', r' ∈ w_records w z → Type' r' = "CNAME" →
            normalizeHost (Name r') = normalizeHost (Name r) → r' = r) →
     let '(w', res) := syncZoneRecords range_order reply z zn hosts st target w in
     calls_since (λ c, spares z (ID r) c ∧ ∀ t, c ≠ PostCNAME z (normalizeHost (Name r)) t)
       w w' ∧
     (res = Ok tt → Logged (warn_unmanaged z zn (normalizeHost (Name r)) r) ∈ w_trace w')).
Proof.
  assert (Hk : keeps_record z r (w_records w)) by (split; done).
  split.
  - set (I := λ w', keeps_record z r (w_records w') ∧ calls_since (spares z (ID r)) w w').
    assert (HI : hoare I (SyncDNS range_order reply rt st) (λ _, I) (λ _, I)).
    { apply (frame_SyncDNS range_order reply Hperm I (spares z (ID r))).
      - intros w1 l [H1 H2]. split; [done|by apply calls_since_log].
      - intros w1 [H1 H2]. done.
      - intros w1 c [H1 H2] Hc. split; [by apply keeps_record_req|by apply calls_since_req].
      - intros cfg _. split; [discriminate|intros t; discriminate].
      - intros cfg m zn hosts zid w1 _ _ _ _ _ _ _ [H1 _]. split; [|split].
        + split; [discriminate|intros t; discriminate].
        + intros rec Hrec _ Hmr. by apply (managed_spares z r zid rec (w_records w1)).
        + intros h _ _ _. split; [discriminate|intros t; discriminate]. }
    specialize (HI w (conj Hk (calls_since_refl _ w))).
    destruct (SyncDNS range_order reply rt st w) as [w' [a|e]]; simpl;
      destruct HI as [[Hin _] Hc]; by split.
  - intros zn hosts target Hc Hn Hcn.
    set (n := normalizeHost (Name r)) in *.
    set (okc := λ c, spares z (ID r) c ∧ ∀ t, c ≠ PostCNAME z n t).
    assert (HI : hoare (λ w1, calls_since okc w w1 ∧ w_records w1 z = w_records w z)
                   (syncZoneRecords range_order reply z zn hosts st target)
                   (λ _, calls_since okc w) (λ _, calls_since okc w)).
    { apply (frame_syncZoneRecords range_order reply Hperm (calls_since okc w) okc);
        [apply calls_since_log|done|apply calls_since_req|].
      split; [|split].
      - split; [split; [discriminate|intros t; discriminate]|intros t; discriminate].
      - intros rec Hrec _ Hmr.
        destruct (managed_spares z r z rec (w_records w) target Hk Hm Hrec Hmr) as [Hd Hp].
        split; (split; [done|intros t; discriminate]).
      - intros h _ Hnc _. split; [split; [discriminate|intros t; discriminate]|].
        intros t Heq. apply (Hnc r Hr Hc). injection Heq. intros Ht Hhn. rewrite Hhn. done. }
    specialize (HI w (conj (calls_since_refl _ w) eq_refl)).
    destruct (syncZoneRecords range_order reply z zn hosts st target w) as [w' res] eqn:Hrun.
    split; [by destruct res|].
    intros ->. apply syncZoneRecords_ok_inv in Hrun; [|done].
    pose proof (index_records_spec (filter (λ r, is_address_or_cname (Type' r)) (w_records w z)))
      as Hspec.
    destruct (index_records _) as [cm ha].
    destruct Hspec as (Hcm & Hcm2 & _).
    destruct Hrun as (cn & w2 & seen & w3 & Hcn' & Hh & Hcr).
    assert (Hrf : r ∈ filter (λ r, is_address_or_cname (Type' r)) (w_records w z)).
    { apply list_elem_of_filter. split; [|done]. unfold is_address_or_cname.
      by rewrite Hc, orb_true_r. }
    destruct (Hcm2 r Hrf Hc) as [r' Hr'].
    destruct (Hcm _ _ Hr') as (Hr'f & Hr'c & Hr'n).
    apply list_elem_of_filter in Hr'f as [_ Hr'w].
    rewrite (Hcn r' Hr'w Hr'c Hr'n) in Hr'.
    assert (Hin : (n, r) ∈ cn) by (rewrite Hcn'; by apply elem_of_map_to_list).
    pose proof (handle_cnames_warns reply z zn target (list_to_set hosts) cn ∅ n r Hin
                  ltac:(by apply elem_of_list_to_set) Hm w2 I) as H3.
    rewrite Hh in H3.
    pose proof (in_trace_create_missing reply (Logged (warn_unmanaged z zn n r))
                  z zn target st seen ha hosts w3 H3) as H4.
    by rewrite Hcr in H4.
Qed.

(** A request that concerns another hostname than [host]: no CNAME is
    created for [host], and only CNAMEs of [R] with another normalized
    name are deleted or patched. *)
Definition not_for_host (R : list dnsRecord) (host : string) (c : call) : Prop :=
  match c with
  | PostCNAME _ h _ => h ≠ host
  | DeleteDNSRecord _ rid | PatchCNAME _ rid _ =>
      ∃ rec, rec ∈ R ∧ Type' rec = "CNAME" ∧ ID rec = rid ∧ normalizeHost (Name rec) ≠ host
  | _ => True
  end.

(** C4: in a zone with no CNAME whose normalized name is the desired
    hostname [host] and an A or AAAA record whose normalized name is
    [host], [syncZoneRecords] issues no request for [host]: it creates no
    CNAME for it and deletes or patches only CNAMEs of other names; when
    it succeeds it has logged the address-conflict warning for [host]. *)
Theorem syncZoneRecords_address_conflict range_order reply
    (Hperm : ∀ n A (l : list A), range_order n A l ≡ₚ l)
    zid zn hosts st target (w : world) host
    (Hh : host ∈ hosts)
    (Hnoc : ∀ rec, rec ∈ w_records w zid → Type' rec = "CNAME" → normalizeHost (Name rec) ≠ host)
    (Ha : ∃ rec, rec ∈ w_records w zid ∧ is_address rec ∧ normalizeHost (Name rec) = host) :
  let '(w', res) := syncZoneRecords range_order reply zid zn hosts st target w in
  calls_since (not_for_host (w_records w zid) host) w w' ∧
  (res = Ok tt → Logged (warn_address zid zn host) ∈ w_trace w').
Proof.
  set (okc := not_for_host (w_records w zid) host).
  assert (HI : hoare (λ w1, calls_since okc w w1 ∧ w_records w1 zid = w_records w zid)
                 (syncZoneRecords range_order reply zid zn hosts st target)
                 (λ _, calls_since okc w) (λ _, calls_since okc w)).
  { apply (frame_syncZoneRecords range_order reply Hperm (calls_since okc w) okc);
      [apply calls_since_log|done|apply calls_since_req|].
    split; [done|split].
    - intros rec Hrec Hc _. split; exists rec; repeat split; try done; by apply Hnoc.
    - intros h _ _ Hna Heq. destruct Ha as (rec & Hrec & Hadr & Hn).
      apply (Hna rec Hrec Hadr). by rewrite Hn. }
  specialize (HI w (conj (calls_since_refl _ w) eq_refl)).
  destruct (syncZoneRecords range_order reply zid zn hosts st target w) as [w' res] eqn:Hrun.
  split; [by destruct res|].
  intros ->. apply syncZoneRecords_ok_inv in Hrun; [|done].
  pose proof (index_records_spec (filter (λ r, is_address_or_cname (Type' r)) (w_records w zid)))
    as Hspec.
  destruct (index_records _) as [cm ha].
  destruct Hspec as (Hcm & _ & Hha).
  destruct Hrun as (cn & w2 & seen & w3 & Hcn & Hhc & Hcr).
  pose proof (handle_cnames_seen reply zid zn target (list_to_set hosts) cn ∅ w2 I) as Hseen.
  rewrite Hhc in Hseen.
  assert (Hns : host ∉ seen).
  { intros Hs. apply Hseen in Hs as [Hs|[[rec Hrec] _]]; [set_solver|].
    rewrite Hcn in Hrec. apply elem_of_map_to_list in Hrec.
    destruct (Hcm _ _ Hrec) as (Hrf & Hc & Hn).
    apply list_elem_of_filter in Hrf as [_ Hrw]. by apply (Hnoc rec). }
  assert (Hha' : host ∈ ha).
  { apply Hha. destruct Ha as (rec & Hrec & Hadr & Hn). exists rec.
    split; [|done]. apply list_elem_of_filter. split; [|done].
    unfold is_address_or_cname. destruct Hadr as [-> | ->]; reflexivity. }
  pose proof (create_missing_warns reply zid zn target st seen ha hosts host Hh Hns Hha' w3 I)
    as H4.
  by rewrite Hcr in H4.
Qed.

Lemma in_requests_create_missing reply c zid zn target st seen hasA hosts :
  hoare (λ w, c ∈ requests (w_trace w)) (create_missing reply zid zn target st seen hasA hosts)
    (λ _ w, c ∈ requests (w_trace w)) (λ _ w, c ∈ requests (w_trace w)).
Proof.
  eapply (frame_create_missing reply (λ w, c ∈ requests (w_trace w)) (λ _, True)); try done.
  - intros w l H. simpl. by rewrite requests_snoc_log.
  - intros w c' H _. simpl. rewrite requests_snoc_req. apply elem_of_app. by left.
Qed.

Lemma in_requests_handle_cnames reply c zid zn target hostSet cnames seen :
  hoare (λ w, c ∈ requests (w_trace w)) (handle_cnames reply zid zn target hostSet cnames seen)
    (λ _ w, c ∈ requests (w_trace w)) (λ _ w, c ∈ requests (w_trace w)).
Proof.
  eapply (frame_handle_cnames reply (λ w, c ∈ requests (w_trace w)) (λ _, True)); try done.
  - intros w l H. simpl. by rewrite requests_snoc_log.
  - intros w c' H _. simpl. rewrite requests_snoc_req. apply elem_of_app. by left.
Qed.

Lemma handle_cnames_deletes reply zid zn target hostSet cnames seen name rec :
  (name, rec) ∈ cnames → name ∉ hostSet → is_managed rec = true →
  hoare (λ _, True) (handle_cnames reply zid zn target hostSet cnames seen)
    (λ _ w, DeleteDNSRecord zid (ID rec) ∈ requests (w_trace w)) (λ _ _, True).
Proof.
  intros Hin Hn Hm. revert seen. induction cnames as [|[name' rec'] cnames IH]; intros seen;
    [inversion Hin|].
  apply elem_of_cons in Hin as [Heq|Hin].
  - injection Heq as <- <-. simpl. unfold is_managed in Hm. rewrite Hm.
    rewrite (bool_decide_eq_false_2 _ Hn). simpl.
    eapply hoare_bind; [apply hoare_true|intros ?].
    eapply hoare_bind with (Q := λ _ w, DeleteDNSRecord zid (ID rec) ∈ requests (w_trace w)).
    { apply hoare_wrap. intros w _. unfold deleteDNSRecord, request; cbv [mbind M_bind].
      assert (Hq : DeleteDNSRecord zid (ID rec) ∈
                     requests (w_trace (after_request reply w (DeleteDNSRecord zid (ID rec))))).
      { simpl. rewrite requests_snoc_req. apply elem_of_app. right. by left. }
      destruct (reply (w_tick w) _); simpl; first [exact Hq|exact I]. }
    intros ?. eapply hoare_conseq;
      [apply (in_requests_handle_cnames _ (DeleteDNSRecord zid (ID rec)))|done|done|done].
  - simpl. destruct (bool_decide (name' ∈ hostSet));
      destruct (Contains (Comment rec') managedCommentMarker);
      [destruct (equalDNSHost (Content rec') target)| | |]; simpl;
      repeat (eapply hoare_bind; [apply hoare_true|intros ?]); by apply IH.
Qed.

(** X14: when [syncZoneRecords] succeeds on a zone, it has issued the
    deletion of every managed CNAME of the zone whose normalized name is
    not among the zone's desired hostnames and that is the only CNAME of
    that normalized name. *)
Theorem syncZoneRecords_deletes_orphan range_order reply
    (Hperm : ∀ n A (l : list A), range_order n A l ≡ₚ l)
    zid zn hosts st target (w : world) (rec : dnsRecord)
    (Hrec : rec ∈ w_records w zid) (Hc : Type' rec = "CNAME")
    (Hm : is_managed rec = true) (Hn : normalizeHost (Name rec) ∉ hosts)
    (Huniq : ∀ r', r' ∈ w_records w zid → Type' r' = "CNAME" →
                   normalizeHost (Name r') = normalizeHost (Name rec) → r' = rec) :
  let '(w', res) := syncZoneRecords range_order reply zid zn hosts st target w in
  res = Ok tt → DeleteDNSRecord zid (ID rec) ∈ requests (w_trace w').
Proof.
  destruct (syncZoneRecords range_order reply zid zn hosts st target w) as [w' res] eqn:Hrun.
  intros ->. apply syncZoneRecords_ok_inv in Hrun; [|done].
  pose proof (index_records_spec (filter (λ r, is_address_or_cname (Type' r)) (w_records w zid)))
    as Hspec.
  destruct (index_records _) as [cm ha].
  destruct Hspec as (Hcm & Hcm2 & _).
  destruct Hrun as (cn & w2 & seen & w3 & Hcn & Hh & Hcr).
  assert (Hrf : rec ∈ filter (λ r, is_address_or_cname (Type' r)) (w_records w zid)).
  { apply list_elem_of_filter. split; [|done]. unfold is_address_or_cname.
    by rewrite Hc, orb_true_r. }
  destruct (Hcm2 rec Hrf Hc) as [r' Hr'].
  destruct (Hcm _ _ Hr') as (Hr'f & Hr'c & Hr'n).
  apply list_elem_of_filter in Hr'f as [_ Hr'w].
  rewrite (Huniq r' Hr'w Hr'c Hr'n) in Hr'.
  assert (Hin : (normalizeHost (Name rec), rec) ∈ cn)
    by (rewrite Hcn; by apply elem_of_map_to_list).
  assert (Hns : normalizeHost (Name rec) ∉ (list_to_set hosts : gset string))
    by (by rewrite elem_of_list_to_set).
  pose proof (handle_cnames_deletes reply zid zn target (list_to_set hosts) cn ∅ _ rec
                Hin Hns Hm w2 I) as H3.
  rewrite Hh in H3.
  pose proof (in_requests_create_missing reply (DeleteDNSRecord zid (ID rec))
                zid zn target st seen ha hosts w3 H3) as H4.
  by rewrite Hcr in H4.
Qed.

(** The zone IDs [SyncDNS] files a hostname of the state under: the ID
    of the best matching zone of a normalized hostname of the state. *)
Definition assigned_zone (zones : list zoneSummary) (st : SyncState) (z : string) : Prop :=
  ∃ m k, HostToService st = Some m ∧ k ∈ dom m ∧
    bestMatchingZone (normalizeHost k) zones ≠ "" ∧
    zone_ids zones !! bestMatchingZone (normalizeHost k) zones = Some z.

(** C10 (amended): with a Cloudflare client and a config, [SyncDNS] on
    a nil or empty state succeeds without any request; on any state it
    issues only the zone listing and requests on zones that receive one of
    its hostnames, and leaves the records of every other zone unchanged,
    whether it succeeds or fails.  Without a client or a config it fails. *)
Theorem SyncDNS_zone_frame range_order reply
    (Hperm : ∀ n A (l : list A), range_order n A l ≡ₚ l)
    (rt : Runtime) (st : SyncState) (w : world) (cfg : Config)
    (Hcl : rt_HasCloudFlareClient rt = true) (Hcfg : rt_Config rt = Some cfg) :
  let '(w', res) := SyncDNS range_order reply rt st w in
  ((HostToService st = None ∨ ∃ m, HostToService st = Some m ∧ size m = 0%nat) →
     res = Ok tt ∧ requests (w_trace w') = requests (w_trace w)) ∧
  calls_since (λ c, c = GetZones (CloudFlareAccountID cfg) ∨
                    ∃ z, zone_of c = Some z ∧ assigned_zone (w_zones w) st z) w w' ∧
  (∀ z, ¬ assigned_zone (w_zones w) st z → w_records w' z = w_records w z).
Proof.
  set (okc := λ c, c = GetZones (CloudFlareAccountID cfg) ∨
                   ∃ z, zone_of c = Some z ∧ assigned_zone (w_zones w) st z).
  set (I := λ w', calls_since okc w w' ∧ w_zones w' = w_zones w ∧
                  ∀ z, ¬ assigned_zone (w_zones w) st z → w_records w' z = w_records w z).
  assert (HI : hoare I (SyncDNS range_order reply rt st) (λ _, I) (λ _, I)).
  { apply (frame_SyncDNS range_order reply Hperm I okc).
    - intros w1 l (H1 & H2 & H3). split; [by apply calls_since_log|done].
    - intros w1 (H1 & H2 & H3). done.
    - intros w1 c (H1 & H2 & H3) Hc. split; [by apply calls_since_req|]. split; [done|].
      intros z Hz. simpl. rewrite <- (H3 z Hz).
      destruct (reply_ok _); [|done]. apply apply_call_other_zone.
      destruct Hc as [->|(z' & Hz' & Ha)]; [done|]. rewrite Hz'. intros [= ->]. by apply Hz.
    - intros cfg' Hcfg'. rewrite Hcfg in Hcfg'. injection Hcfg' as <-. by left.
    - intros cfg' m zn hosts zid w1 _ Hm Hzn Hne Hhosts Hzid _ (_ & Hz1 & _).
      assert (Ha : assigned_zone (w_zones w) st zid).
      { destruct hosts as [|h hosts]; [done|].
        destruct (Hhosts h ltac:(by left)) as (Hh & Hb & k & Hk & ->).
        exists m, k. rewrite <- Hz1, Hb. done. }
      split; [|split].
      + right. by exists zid.
      + intros rec _ _ _. split; right; by exists zid.
      + intros h _ _ _. right. by exists zid. }
  specialize (HI w (conj (calls_since_refl _ w) (conj eq_refl (λ _ _, eq_refl)))).
  assert (Hempty : (HostToService st = None ∨ ∃ m, HostToService st = Some m ∧ size m = 0%nat) →
            ∃ l, SyncDNS range_order reply rt st w = (after_log w l, Ok tt)).
  { intros Hst. unfold SyncDNS. rewrite Hcl, Hcfg. simpl.
    destruct Hst as [-> | (m & -> & Hs)]; [by eexists|].
    rewrite Hs. simpl. by eexists. }
  destruct (SyncDNS range_order reply rt st w) as [w' res] eqn:Hrun.
  split.
  - intros Hst. destruct (Hempty Hst) as [l Hl]. injection Hl as -> ->.
    split; [done|]. simpl. apply requests_snoc_log.
  - destruct res; destruct HI as (H1 & _ & H3); by split.
Qed.

(* ----------------------------------------------------------------- *)
(** ** Failures of a run *)

(** A request whose reply the code turns into an error: any error of a
    deletion, and any reply but success of a creation or an update. *)
Definition call_failed (c : call) (r : api_reply) : Prop :=
  match c with
  | DeleteDNSRecord _ _ => match r with Reply_error _ => True | _ => False end
  | PostCNAME _ _ _ | PatchCNAME _ _ _ => r ≠ Reply_ok
  | _ => False
  end.

Definition no_failed (tr : list event) : Prop :=
  ∀ c r, Req c r ∈ tr → ¬ call_failed c r.

(** The error text names the record of the failed request. *)
Definition record_err (c : call) (e : string) : Prop :=
  match c with
  | DeleteDNSRecord _ rid =>
      ∃ name rest, e = "delete CNAME record " +:+ rid +:+ " (" +:+ name +:+ "): " +:+ rest
  | PatchCNAME _ rid _ =>
      ∃ name rest, e = "update CNAME record " +:+ rid +:+ " (" +:+ name +:+ "): " +:+ rest
  | PostCNAME _ h _ => ∃ rest, e = "create CNAME for host " +:+ h +:+ ": " +:+ rest
  | _ => False
  end.

Definition zone_err (zid : string) (c : call) (e : string) : Prop :=
  zone_of c = Some zid ∧ record_err c e.

(** The error text of [SyncDNS] names the zone, its ID and the record. *)
Definition sync_err (zids : gmap string string) (c : call) (e : string) : Prop :=
  ∃ zn zid inner, e = "sync zone " +:+ zn +:+ " (" +:+ zid +:+ "): " +:+ inner ∧
    zids !! zn = Some zid ∧ zone_err zid c inner.

(** No request has failed since [w0]. *)
Definition clean (w0 w : world) : Prop :=
  ∃ suf, w_trace w = w_trace w0 ++ suf ∧ no_failed suf.

(** The last event since [w0] is the first failed request, and [e] is
    its error as [F] describes it. *)
Definition failed_last (F : call → string → Prop) (w0 : world) (e : string) (w : world) : Prop :=
  ∃ suf c r, w_trace w = w_trace w0 ++ suf ++ [Req c r] ∧ no_failed suf ∧
    call_failed c r ∧ F c e.

Definition fails (F : call → string → Prop) (w0 : world) (e : string) (w : world) : Prop :=
  clean w0 w ∨ failed_last F w0 e w.

Lemma clean_log w0 w l : clean w0 w → clean w0 (after_log w l).
Proof.
  intros [suf [H Hn]]. exists (suf ++ [Logged l]). simpl. rewrite H, app_assoc.
  split; [done|]. intros c r Hin. apply elem_of_app in Hin as [Hin|Hin]; [by apply Hn|].
  apply list_elem_of_singleton in Hin. discriminate.
Qed.

Lemma clean_tick w0 w : clean w0 w → clean w0 (after_tick w).
Proof. done. Qed.

Lemma clean_req reply w0 w c :
  clean w0 w → ¬ call_failed c (reply (w_tick w) c) → clean w0 (after_request reply w c).
Proof.
  intros [suf [H Hn]] Hc. exists (suf ++ [Req c (reply (w_tick w) c)]). simpl.
  rewrite H, app_assoc. split; [done|]. intros c' r' Hin.
  apply elem_of_app in Hin as [Hin|Hin]; [by apply Hn|].
  apply list_elem_of_singleton in Hin. by injection Hin as -> ->.
Qed.

Lemma failed_req reply (F : call → string → Prop) w0 w c e :
  clean w0 w → call_failed c (reply (w_tick w) c) → F c e →
  failed_last F w0 e (after_request reply w c).
Proof.
  intros [suf [H Hn]] Hc HF. exists suf, c, (reply (w_tick w) c). simpl.
  rewrite H, <- app_assoc. done.
Qed.

Lemma fails_wrap (F F' : call → string → Prop) f w0 :
  (∀ c e, F c e → F' c (f e)) → ∀ e w, fails F w0 e w → fails F' w0 (f e) w.
Proof.
  intros HF e w [Hc|(suf & c & r & H & Hn & Hf & He)]; [by left|right].
  exists suf, c, r. auto.
Qed.

Lemma fails_clean_log F w0 lvl msg attrs :
  hoare (clean w0) (log lvl msg attrs) (λ _, clean w0) (fails F w0).
Proof. intros w Hw. by apply clean_log. Qed.

Lemma fails_range range_order F w0 {A} (l : list A) :
  hoare (clean w0) (range range_order l) (λ _, clean w0) (fails F w0).
Proof. intros w Hw. done. Qed.

Lemma fails_delete reply w0 zid rid name :
  hoare (clean w0)
    (wrap (λ e, "delete CNAME record " +:+ rid +:+ " (" +:+ name +:+ "): " +:+ e)
       (deleteDNSRecord reply zid rid))
    (λ _, clean w0) (fails (zone_err zid) w0).
Proof.
  intros w Hw. cbv [wrap deleteDNSRecord request mbind M_bind mret M_ret throw].
  destruct (reply (w_tick w) (DeleteDNSRecord zid rid)) eqn:Hr; cbv beta iota.
  - apply clean_req; [done|]. rewrite Hr. simpl. tauto.
  - right. apply failed_req; [done|rewrite Hr; simpl; try done; discriminate|]. split; [done|]. by eexists _, _.
  - apply clean_req; [done|]. rewrite Hr. simpl. tauto.
Qed.

Lemma fails_update reply w0 zid rid target name :
  hoare (clean w0)
    (wrap (λ e, "update CNAME record " +:+ rid +:+ " (" +:+ name +:+ "): " +:+ e)
       (updateCNAMERecordTarget reply zid rid target))
    (λ _, clean w0) (fails (zone_err zid) w0).
Proof.
  intros w Hw. cbv [wrap updateCNAMERecordTarget request mbind M_bind mret M_ret throw].
  destruct (reply (w_tick w) (PatchCNAME zid rid target)) eqn:Hr; cbv beta iota.
  - apply clean_req; [done|]. rewrite Hr. simpl. tauto.
  - right. apply failed_req; [done|rewrite Hr; simpl; try done; discriminate|]. split; [done|]. by eexists _, _.
  - right. apply failed_req; [done|rewrite Hr; simpl; try done; discriminate|]. split; [done|]. by eexists _, _.
Qed.

Lemma fails_create reply w0 zid host target :
  hoare (clean w0)
    (wrap (λ e, "create CNAME for host " +:+ host +:+ ": " +:+ e)
       (createCNAMERecord reply zid host target))
    (λ _, clean w0) (fails (zone_err zid) w0).
Proof.
  intros w Hw. cbv [wrap createCNAMERecord request mbind M_bind mret M_ret throw].
  destruct (reply (w_tick w) (PostCNAME zid host target)) eqn:Hr; cbv beta iota.
  - apply clean_req; [done|]. rewrite Hr. simpl. tauto.
  - right. apply failed_req; [done|rewrite Hr; simpl; try done; discriminate|]. split; [done|]. by eexists.
  - right. apply failed_req; [done|rewrite Hr; simpl; try done; discriminate|]. split; [done|]. by eexists.
Qed.

Lemma fails_handle_cnames reply w0 zid zn target hostSet cnames seen :
  hoare (clean w0) (handle_cnames reply zid zn target hostSet cnames seen)
    (λ _, clean w0) (fails (zone_err zid) w0).
Proof.
  revert seen. induction cnames as [|[name rec] cnames IH]; intros seen; simpl.
  - intros w Hw. done.
  - destruct (bool_decide (name ∈ hostSet));
      destruct (Contains (Comment rec) managedCommentMarker);
      [destruct (equalDNSHost (Content rec) target)| | |]; simpl;
      (eapply hoare_bind; [apply fails_clean_log|intros ?]);
      try apply IH;
      (eapply hoare_bind; [first [apply fails_update|apply fails_delete]|intros ?]); apply IH.
Qed.

Lemma fails_create_missing reply w0 zid zn target st seen hasA hosts :
  hoare (clean w0) (create_missing reply zid zn target st seen hasA hosts)
    (λ _, clean w0) (fails (zone_err zid) w0).
Proof.
  induction hosts as [|h hosts IH]; simpl.
  - intros w Hw. done.
  - destruct (bool_decide (h ∈ seen)); [done|].
    destruct (bool_decide (h ∈ hasA));
      (eapply hoare_bind; [apply fails_clean_log|intros ?]); [done|].
    eapply hoare_bind; [apply fails_create|intros ?]. done.
Qed.

Lemma fails_syncZoneRecords range_order reply w0 zid zn hosts st target :
  hoare (clean w0) (syncZoneRecords range_order reply zid zn hosts st target)
    (λ _, clean w0) (fails (zone_err zid) w0).
Proof.
  unfold syncZoneRecords.
  eapply hoare_bind; [apply fails_clean_log|intros ?].
  eapply hoare_bind with (Q := λ _, clean w0).
  { intros w Hw. cbv [wrap loadDNSRecords request mbind M_bind mret M_ret throw gets].
    destruct (reply (w_tick w) (GetDNSRecords zid)); cbv beta iota;
      (try left); (apply clean_req; [done|simpl; tauto]). }
  intros recs. destruct (index_records recs) as [cm ha].
  eapply hoare_bind; [apply fails_range|intros cn].
  eapply hoare_bind; [apply fails_handle_cnames|intros seen].
  apply fails_create_missing.
Qed.

Lemma fails_sync_zones range_order reply w0 accountID target st zids zl :
  hoare (clean w0) (sync_zones range_order reply accountID target st zids zl)
    (λ _, clean w0) (fails (sync_err zids) w0).
Proof.
  induction zl as [|[zn hosts] zl IH]; simpl.
  - intros w Hw. done.
  - destruct (String.eqb (default "" (zids !! zn)) "") eqn:He.
    + eapply hoare_bind; [apply fails_clean_log|intros ?]. apply IH.
    + apply String.eqb_neq in He.
      destruct (zids !! zn) as [zid|] eqn:Hzid; simpl in *; [|done].
      eapply hoare_bind; [|intros ?; apply IH].
      apply hoare_wrap. eapply hoare_conseq; [apply fails_syncZoneRecords|done|done|].
      apply fails_wrap. intros c e Hce. by exists zn, zid, e.
Qed.

Lemma fails_distribute F w0 accountID zones hs acc :
  hoare (clean w0) (distribute accountID zones hs acc) (λ _, clean w0) (fails F w0).
Proof.
  revert acc. induction hs as [|[host svc] hs IH]; intros acc; simpl.
  - intros w Hw. done.
  - destruct (String.eqb _ ""); [apply IH|].
    destruct (String.eqb _ ""); [|apply IH].
    eapply hoare_bind; [apply fails_clean_log|intros ?]. apply IH.
Qed.

Lemma fails_SyncDNS range_order reply w0 rt st :
  hoare (λ w, w = w0) (SyncDNS range_order reply rt st)
    (λ _, clean w0) (fails (sync_err (zone_ids (w_zones w0))) w0).
Proof.
  assert (H0 : clean w0 w0).
  { exists []. split; [by rewrite app_nil_r|]. intros c r Hin. inversion Hin. }
  unfold SyncDNS.
  destruct (rt_HasCloudFlareClient rt); simpl; [|intros w ->; by left].
  destruct (rt_Config rt) as [cfg|]; [|intros w ->; by left].
  destruct (HostToService st) as [m|]; [|intros w ->; by apply clean_log].
  destruct (size m =? 0)%nat; [intros w ->; by apply clean_log|].
  eapply hoare_bind with (Q := λ _ w, clean w0 w ∧ w_zones w = w_zones w0).
  { intros w ->. split; [by apply clean_log|done]. }
  intros ?.
  eapply hoare_bind with (Q := λ zones w, clean w0 w ∧ zones = w_zones w0).
  { intros w [Hw Hz]. cbv [wrap loadZones request mbind M_bind throw gets].
    destruct (reply (w_tick w) _); cbv beta iota;
      [split; [|done]| left| split; [|done]]; (apply clean_req; [done|simpl; tauto]). }
  intros zones. apply hoare_pre. intros w1 [Hw1 Hz].
  eapply hoare_conseq with (P' := clean w0) (Q' := λ _, clean w0)
    (E' := fails (sync_err (zone_ids (w_zones w0))) w0); [|by intros w ->|done|done].
  destruct zones as [|z zs]; [apply fails_clean_log|].
  eapply hoare_bind; [apply fails_range|intros hs].
  eapply hoare_bind; [apply fails_distribute|intros zh].
  eapply hoare_bind; [apply fails_range|intros zl].
  eapply hoare_bind; [|intros ?; apply fails_clean_log].
  rewrite <- Hz. apply fails_sync_zones.
Qed.

(** The provider's records after a sequence of events: every request
    answered with success applied in order. *)
Definition replay (tr : list event) (recs : string → list dnsRecord) : string → list dnsRecord :=
  fold_left (λ acc ev, match ev with
                       | Req c r => if reply_ok r then apply_call c acc else acc
                       | Logged _ => acc
                       end) tr recs.

Definition replayed (w0 w : world) : Prop :=
  ∃ suf, w_trace w = w_trace w0 ++ suf ∧ w_records w = replay suf (w_records w0).

Lemma replayed_SyncDNS range_order reply
    (Hperm : ∀ n A (l : list A), range_order n A l ≡ₚ l) w0 rt st :
  hoare (replayed w0) (SyncDNS range_order reply rt st) (λ _, replayed w0) (λ _, replayed w0).
Proof.
  apply (frame_SyncDNS range_order reply Hperm (replayed w0) (λ _, True)).
  - intros w l [suf [H1 H2]]. exists (suf ++ [Logged l]). simpl.
    rewrite H1, app_assoc. split; [done|]. unfold replay. by rewrite fold_left_app.
  - done.
  - intros w c [suf [H1 H2]] _. exists (suf ++ [Req c (reply (w_tick w) c)]). simpl.
    rewrite H1, app_assoc. split; [done|]. rewrite H2. unfold replay.
    by rewrite fold_left_app.
  - done.
  - intros. done.
Qed.

(** C9 (amended): a failed creation, update or deletion ends the whole
    [SyncDNS] run, not only its zone: it is the last event of the run,
    no request failed before it, and the run returns the error
    "sync zone <zone name> (<zone id>): " followed by the text naming the
    record.  Zones not yet visited are not synchronised.  Nothing is
    rolled back: the records afterwards are those produced by every
    request answered with success, in every zone already visited. *)
Theorem SyncDNS_failure_ends_run range_order reply
    (Hperm : ∀ n A (l : list A), range_order n A l ≡ₚ l)
    (rt : Runtime) (st : SyncState) (w : world) :
  let '(w', res) := SyncDNS range_order reply rt st w in
  ∃ suf, w_trace w' = w_trace w ++ suf ∧
    w_records w' = replay suf (w_records w) ∧
    ∀ c r, Req c r ∈ suf → call_failed c r →
      ∃ e pre, res = Err e ∧ suf = pre ++ [Req c r] ∧ no_failed pre ∧
               sync_err (zone_ids (w_zones w)) c e.
Proof.
  pose proof (fails_SyncDNS range_order reply w rt st w eq_refl) as HF.
  assert (HR0 : replayed w w) by (exists []; by rewrite app_nil_r).
  pose proof (replayed_SyncDNS range_order reply Hperm w rt st w HR0) as HR.
  destruct (SyncDNS range_order reply rt st w) as [w' [a|e]]; simpl in HF, HR;
    destruct HR as (suf & Htr & Hrec); exists suf; split; [done| |done|];
    split; [done| |done|].
  - destruct HF as (suf' & Htr' & Hn). rewrite Htr in Htr'. apply app_inv_head in Htr' as <-.
    intros c r Hin Hc. by destruct (Hn c r Hin Hc).
  - destruct HF as [(suf' & Htr' & Hn)|(pre & c0 & r0 & Htr' & Hn & Hc0 & He)].
    + rewrite Htr in Htr'. apply app_inv_head in Htr' as <-.
      intros c r Hin Hc. by destruct (Hn c r Hin Hc).
    + rewrite Htr in Htr'. apply app_inv_head in Htr' as ->.
      intros c r Hin Hc. apply elem_of_app in Hin as [Hin|Hin]; [by destruct (Hn c r Hin Hc)|].
      apply list_elem_of_singleton in Hin. injection Hin as -> ->.
      by exists e, pre.
Qed.

(* ----------------------------------------------------------------- *)
(** ** Concrete runs of the DNS reconciler *)

(** C1: the hostname annotation "a.example.com.." of a Service becomes
    the SyncState key "a.example.com.." ([SyncKube] trims only spaces).
    Its normalized form "a.example.com." still ends in a dot, so the first
    [SyncDNS] run creates the CNAME "a.example.com.", and the second run,
    on the same state and the world the first left, normalizes that name
    to "a.example.com", finds it undesired, deletes the record it made and
    creates it again: the second run issues two mutating calls. *)
Theorem SyncDNS_rerun_recreates_record :
  let st := fst (SyncKube_service "cloudflare-tunnel-hostnames"
                   "cloudflare-tunnel-upstream-port" "default" ex_service_two_dots
                   NewSyncState) in
  let w0 := ex_world [mkZone "Z1" "example.com"] [] [] in
  let '(w1, res1) := SyncDNS in_order all_ok ex_rt st w0 in
  let '(w2, res2) := SyncDNS in_order all_ok ex_rt st w1 in
  HostToService st = Some {["a.example.com.." := "http://web.default.svc.cluster.local:8080"]} ∧
  res1 = Ok tt ∧ res2 = Ok tt ∧
  requests (w_trace w1) =
    [GetZones "acc"; GetDNSRecords "Z1"; PostCNAME "Z1" "a.example.com." ex_target] ∧
  requests (w_trace w2) = requests (w_trace w1) ++
    [GetZones "acc"; GetDNSRecords "Z1"; DeleteDNSRecord "Z1" "rec-";
     PostCNAME "Z1" "a.example.com." ex_target] ∧
  w_records w2 "Z1" = w_records w1 "Z1".
Proof.
  vm_compute. repeat split.
Qed.

(** C2 (code bug): with the desired hostname "a.example.com" only, zone "Z2"
    (other.org) receives no hostname and is never visited, so its managed
    CNAME "z.other.org", whose name is not desired, is not deleted although
    the run succeeds; the managed orphan of the visited zone "Z1" is. *)
Theorem SyncDNS_orphan_in_unvisited_zone_kept :
  let r1 := managed_cname "r1" "z.example.com" "old.cfargotunnel.com" in
  let r2 := managed_cname "r2" "z.other.org" ex_target in
  let '(w', res) := SyncDNS in_order all_ok ex_rt (ex_state ["a.example.com"])
                      (ex_world ex_zones [r1] [r2]) in
  res = Ok tt ∧
  requests (w_trace w') =
    [GetZones "acc"; GetDNSRecords "Z1"; DeleteDNSRecord "Z1" "r1";
     PostCNAME "Z1" "a.example.com" ex_target] ∧
  w_records w' "Z2" = [r2].
Proof.
  vm_compute. repeat split.
Qed.

(** On an empty state [SyncDNS] returns at once, so a managed CNAME
    whose name is desired by no one stays. *)
Theorem SyncDNS_empty_state_keeps_orphans range_order reply (w : world) :
  SyncDNS range_order reply ex_rt NewSyncState w =
    (after_log w (mkLog Info "no hostnames in SyncState; nothing to sync" []), Ok tt).
Proof.
  reflexivity.
Qed.

(** C9: with desired hostnames in zones "Z1" and "Z2", [range] visiting
    "Z2" first and the creation in "Z2" failing, the run ends with an error
    naming the zone and the host, and zone "Z1" is never even listed: the
    failure aborts the whole run, not that zone only. *)
Theorem SyncDNS_failure_skips_remaining_zones :
  let '(w', res) := SyncDNS in_order (failing_post_in "Z2") ex_rt
                      (ex_state ["a.example.com"; "b.other.org"]) (ex_world ex_zones [] []) in
  res = Err ("sync zone other.org (Z2): create CNAME for host b.other.org: "
             +:+ "POST /zones/Z2/dns_records: HTTP 500") ∧
  requests (w_trace w') =
    [GetZones "acc"; GetDNSRecords "Z2"; PostCNAME "Z2" "b.other.org" ex_target] ∧
  (∀ c, c ∈ requests (w_trace w') → zone_of c ≠ Some "Z1").
Proof.
  vm_compute. split; [reflexivity|split; [reflexivity|]].
  intros c Hc. repeat (apply elem_of_cons in Hc as [->|Hc]; [discriminate|]).
  by apply elem_of_nil in Hc.
Qed.

(** C10: without a Cloudflare client, [SyncDNS] on an empty state fails
    instead of returning success. *)
Theorem SyncDNS_empty_state_without_client_fails :
  let w := ex_world ex_zones [] [] in
  SyncDNS in_order all_ok (mkRuntime (Some ex_cfg) false) NewSyncState w =
    (w, Err "cloudflare client is nil").
Proof.
  reflexivity.
Qed.

(* ----------------------------------------------------------------- *)
(** ** Instances of the reconciler theorems *)

Lemma SyncDNS_unmanaged_untouched_witness :
  let r := mkRecord "u1" "CNAME" "a.example.com" "elsewhere.net" "owned by someone else" in
  let w := ex_world [mkZone "Z1" "example.com"] [r] [] in
  (∀ n A (l : list A), in_order n A l ≡ₚ l) ∧
  r ∈ w_records w "Z1" ∧ is_managed r = false ∧
  (∀ r', r' ∈ w_records w "Z1" → ID r' = ID r → r' = r) ∧
  r ∈ w_records (fst (SyncDNS in_order all_ok ex_rt (ex_state ["a.example.com"]) w)) "Z1".
Proof.
  intros r w.
  assert (Hp : ∀ n A (l : list A), in_order n A l ≡ₚ l) by (intros; reflexivity).
  assert (Hr : r ∈ w_records w "Z1") by (apply list_elem_of_singleton; reflexivity).
  assert (Hm : is_managed r = false) by reflexivity.
  assert (Hu : ∀ r', r' ∈ w_records w "Z1" → ID r' = ID r → r' = r)
    by (intros r' Hr' _; by apply list_elem_of_singleton in Hr').
  split; [exact Hp|split; [exact Hr|split; [exact Hm|split; [exact Hu|]]]].
  exact (proj1 (proj1 (SyncDNS_unmanaged_untouched in_order all_ok Hp ex_rt
                         (ex_state ["a.example.com"]) w "Z1" r Hr Hm Hu))).
Defined.

Lemma syncZoneRecords_address_conflict_witness :
  let a := mkRecord "a1" "A" "a.example.com" "192.0.2.1" "" in
  let w := ex_world [mkZone "Z1" "example.com"] [a] [] in
  (∀ n A (l : list A), in_order n A l ≡ₚ l) ∧
  "a.example.com" ∈ ["a.example.com"] ∧
  (∀ rec, rec ∈ w_records w "Z1" → Type' rec = "CNAME" → normalizeHost (Name rec) ≠ "a.example.com") ∧
  (∃ rec, rec ∈ w_records w "Z1" ∧ is_address rec ∧ normalizeHost (Name rec) = "a.example.com") ∧
  let '(w', res) := syncZoneRecords in_order all_ok "Z1" "example.com" ["a.example.com"]
                      (ex_state ["a.example.com"]) ex_target w in
  calls_since (not_for_host (w_records w "Z1") "a.example.com") w w' ∧
  (res = Ok tt → Logged (warn_address "Z1" "example.com" "a.example.com") ∈ w_trace w').
Proof.
  intros a w.
  assert (Hp : ∀ n A (l : list A), in_order n A l ≡ₚ l) by (intros; reflexivity).
  assert (Hh : "a.example.com" ∈ ["a.example.com"]) by (apply list_elem_of_singleton; reflexivity).
  assert (Hn : ∀ rec, rec ∈ w_records w "Z1" → Type' rec = "CNAME" →
                      normalizeHost (Name rec) ≠ "a.example.com").
  { intros rec Hrec Ht. apply list_elem_of_singleton in Hrec. subst rec. discriminate. }
  assert (Ha : ∃ rec, rec ∈ w_records w "Z1" ∧ is_address rec ∧
                      normalizeHost (Name rec) = "a.example.com").
  { exists a. split; [by apply list_elem_of_singleton|]. split; [by left|reflexivity]. }
  split; [exact Hp|split; [exact Hh|split; [exact Hn|split; [exact Ha|]]]].
  exact (syncZoneRecords_address_conflict in_order all_ok Hp "Z1" "example.com" ["a.example.com"]
           (ex_state ["a.example.com"]) ex_target w "a.example.com" Hh Hn Ha).
Defined.

Lemma syncZoneRecords_deletes_orphan_witness :
  let rec := managed_cname "r1" "z.example.com" "old.cfargotunnel.com" in
  let w := ex_world [mkZone "Z1" "example.com"] [rec] [] in
  (∀ n A (l : list A), in_order n A l ≡ₚ l) ∧
  rec ∈ w_records w "Z1" ∧ Type' rec = "CNAME" ∧ is_managed rec = true ∧
  (normalizeHost (Name rec) ∉ ["a.example.com"]) ∧
  (∀ r', r' ∈ w_records w "Z1" → Type' r' = "CNAME" →
         normalizeHost (Name r') = normalizeHost (Name rec) → r' = rec) ∧
  let '(w', res) := syncZoneRecords in_order all_ok "Z1" "example.com" ["a.example.com"]
                      (ex_state ["a.example.com"]) ex_target w in
  res = Ok tt → DeleteDNSRecord "Z1" (ID rec) ∈ requests (w_trace w').
Proof.
  intros rec w.
  assert (Hp : ∀ n A (l : list A), in_order n A l ≡ₚ l) by (intros; reflexivity).
  assert (Hr : rec ∈ w_records w "Z1") by (apply list_elem_of_singleton; reflexivity).
  assert (Hc : Type' rec = "CNAME") by reflexivity.
  assert (Hm : is_managed rec = true) by reflexivity.
  assert (Hn : normalizeHost (Name rec) ∉ ["a.example.com"]).
  { intros Hin. apply list_elem_of_singleton in Hin. vm_compute in Hin. discriminate. }
  assert (Hu : ∀ r', r' ∈ w_records w "Z1" → Type' r' = "CNAME" →
                     normalizeHost (Name r') = normalizeHost (Name rec) → r' = rec)
    by (intros r' Hr' _ _; by apply list_elem_of_singleton in Hr').
  split; [exact Hp|split; [exact Hr|split; [exact Hc|split; [exact Hm|split; [exact Hn|]]]]].
  split; [exact Hu|].
  exact (syncZoneRecords_deletes_orphan in_order all_ok Hp "Z1" "example.com" ["a.example.com"]
           (ex_state ["a.example.com"]) ex_target w rec Hr Hc Hm Hn Hu).
Defined.

Lemma SyncDNS_failure_ends_run_witness :
  (∀ n A (l : list A), in_order n A l ≡ₚ l) ∧
  let w := ex_world ex_zones [] [] in
  let '(w', res) := SyncDNS in_order (failing_post_in "Z2") ex_rt
                      (ex_state ["a.example.com"; "b.other.org"]) w in
  ∃ suf, w_trace w' = w_trace w ++ suf ∧
    w_records w' = replay suf (w_records w) ∧
    ∀ c r, Req c r ∈ suf → call_failed c r →
      ∃ e pre, res = Err e ∧ suf = pre ++ [Req c r] ∧ no_failed pre ∧
               sync_err (zone_ids (w_zones w)) c e.
Proof.
  assert (Hp : ∀ n A (l : list A), in_order n A l ≡ₚ l) by (intros; reflexivity).
  split; [exact Hp|].
  exact (SyncDNS_failure_ends_run in_order (failing_post_in "Z2") Hp ex_rt
           (ex_state ["a.example.com"; "b.other.org"]) (ex_world ex_zones [] [])).
Defined.

Lemma SyncDNS_zone_frame_witness :
  let st := ex_state ["a.example.com"] in
  let w := ex_world ex_zones [] [managed_cname "r2" "z.other.org" ex_target] in
  (∀ n A (l : list A), in_order n A l ≡ₚ l) ∧
  rt_HasCloudFlareClient ex_rt = true ∧ rt_Config ex_rt = Some ex_cfg ∧
  let w' := fst (SyncDNS in_order all_ok ex_rt st w) in
  (∀ z, ¬ assigned_zone (w_zones w) st z → w_records w' z = w_records w z).
Proof.
  intros st w.
  assert (Hp : ∀ n A (l : list A), in_order n A l ≡ₚ l) by (intros; reflexivity).
  split; [exact Hp|split; [reflexivity|split; [reflexivity|]]].
  pose proof (SyncDNS_zone_frame in_order all_ok Hp ex_rt st w ex_cfg eq_refl eq_refl) as H.
  destruct (SyncDNS in_order all_ok ex_rt st w) as [w' res].
  exact (proj2 (proj2 H)).
Defined.

(* ================================================================= *)
(** * Further properties of the code *)

(* ----------------------------------------------------------------- *)
(** ** [SyncState.Append] in sequence *)

Lemma first_value_is_Some h pairs : is_Some (first_value h pairs) ↔ h ∈ map fst pairs.
Proof.
  induction pairs as [|[k v] ps IH]; simpl.
  - split; [intros [? [=]]|intros Hin; by apply elem_of_nil in Hin].
  - rewrite elem_of_cons. destruct (String.eqb_spec k h) as [->|Hne].
    + split; [by left|eauto].
    + rewrite IH. split; [by right|intros [->|?]; [congruence|done]].
Qed.

Lemma append_all_lookup (m : gmap string string) pairs :
  ∃ m', HostToService (append_all (mkSyncState (Some m)) pairs) = Some m' ∧
        ∀ h, m' !! h = match m !! h with
                       | Some v => Some v
                       | None => first_value h pairs
                       end.
Proof.
  revert m. induction pairs as [|[k v] ps IH]; intros m; simpl.
  - exists m. split; [done|]. intros h. by destruct (m !! h).
  - unfold append_all in *. simpl. unfold Append at 2. simpl.
    destruct (m !! k) as [old|] eqn:Hk; simpl.
    + destruct (IH m) as (m' & Hm' & Hl). exists m'. split; [done|].
      intros h. rewrite Hl. destruct (m !! h) eqn:Hh; [done|].
      destruct (String.eqb_spec k h) as [->|]; [congruence|done].
    + destruct (IH (<[k := v]> m)) as (m' & Hm' & Hl). exists m'. split; [done|].
      intros h. rewrite Hl. destruct (String.eqb_spec k h) as [->|Hne].
      * by rewrite lookup_insert_eq, Hk.
      * by rewrite lookup_insert_ne.
Qed.

(** X1: appending the pairs of a list to a new [SyncState] one by one,
    as [SyncKube] does, maps every hostname to the service of the first
    pair naming it (a later pair with the same hostname is refused), and
    the state's [Len] is the number of distinct hostnames of the list. *)
Theorem append_all_first_wins (pairs : list (string * string)) :
  ∃ m, HostToService (append_all NewSyncState pairs) = Some m ∧
       (∀ h, m !! h = first_value h pairs) ∧
       Len (append_all NewSyncState pairs) = size (list_to_set (map fst pairs) : gset string).
Proof.
  destruct (append_all_lookup ∅ pairs) as (m & Hm & Hl).
  exists m. unfold NewSyncState. split; [done|]. split; [intros h; by rewrite Hl|].
  unfold Len. rewrite Hm, <- size_dom. f_equal. apply set_eq. intros h.
  rewrite elem_of_dom, elem_of_list_to_set, Hl, lookup_empty. apply first_value_is_Some.
Qed.

(* ----------------------------------------------------------------- *)
(** ** [LoadConfig] *)

Lemma parseSyncInterval_err Getenv e :
  config.parseSyncInterval Getenv = inr e → e = config.ErrSyncInterval (Getenv "SYNC_INTERVAL").
Proof.
  unfold config.parseSyncInterval.
  destruct (String.eqb _ _); [by intros [=]|].
  destruct (Strconv.Atoi _) as [sec ok]. destruct (negb ok || (sec <=? 0)); by intros [=].
Qed.

(** X2: [LoadConfig] returns the missing-credentials error exactly when
    one of CLOUDFLARE_ACCOUNT_ID, CLOUDFLARE_TUNNEL_ID and
    CLOUDFLARE_API_TOKEN is empty or unset, whatever the other variables
    hold: that check comes first. *)
Theorem LoadConfig_credentials (Getenv : string → string) :
  config.LoadConfig Getenv = inr config.ErrCredentials ↔
  Getenv "CLOUDFLARE_ACCOUNT_ID" = "" ∨ Getenv "CLOUDFLARE_TUNNEL_ID" = "" ∨
  Getenv "CLOUDFLARE_API_TOKEN" = "".
Proof.
  unfold config.LoadConfig.
  destruct (String.eqb_spec (Getenv "CLOUDFLARE_ACCOUNT_ID") "") as [Ha|Ha];
    [simpl; tauto|];
  destruct (String.eqb_spec (Getenv "CLOUDFLARE_TUNNEL_ID") "") as [Ht|Ht];
    [simpl; tauto|];
  destruct (String.eqb_spec (Getenv "CLOUDFLARE_API_TOKEN") "") as [Hk|Hk];
    [simpl; tauto|]; simpl.
  split; [|intros [?|[?|?]]; congruence].
  intros H. repeat case_match; simplify_eq;
  match goal with Hp : config.parseSyncInterval _ = inr _ |- _ =>
    apply parseSyncInterval_err in Hp; discriminate end.
Qed.


(** X3: once the credentials are set, [LoadConfig] accepts LOG_LEVEL
    only when it is empty, "debug", "warn" or "error", and otherwise fails
    with the LOG_LEVEL error, before SYNC_INTERVAL is looked at; it then
    succeeds exactly when SYNC_INTERVAL is accepted.  The default level
    Info is obtained only with an empty LOG_LEVEL: "info" is refused. *)
Theorem LoadConfig_log_level (Getenv : string → string)
    (Hcred : Getenv "CLOUDFLARE_ACCOUNT_ID" ≠ "" ∧ Getenv "CLOUDFLARE_TUNNEL_ID" ≠ "" ∧
             Getenv "CLOUDFLARE_API_TOKEN" ≠ "") :
  let v := Getenv "LOG_LEVEL" in
  (v ∉ [""; "debug"; "warn"; "error"] →
     config.LoadConfig Getenv = inr (config.ErrLogLevel v)) ∧
  ((∃ c, config.LoadConfig Getenv = inl c) ↔
     v ∈ [""; "debug"; "warn"; "error"] ∧ ∃ d, config.parseSyncInterval Getenv = inl d) ∧
  (∀ c, config.LoadConfig Getenv = inl c → config.LogLevel c = Info ↔ v = "").
Proof.
  destruct Hcred as (Ha & Ht & Hk). intros v. unfold config.LoadConfig.
  rewrite (proj2 (String.eqb_neq _ _) Ha), (proj2 (String.eqb_neq _ _) Ht),
    (proj2 (String.eqb_neq _ _) Hk). simpl. fold v.
  assert (Hacc : v ∈ [""; "debug"; "warn"; "error"] ↔ v = "" ∨ v = "debug" ∨ v = "warn" ∨ v = "error").
  { rewrite !elem_of_cons, elem_of_nil. tauto. }
  rewrite Hacc.
  destruct (String.eqb_spec v "debug") as [Hv|Hv];
  [|destruct (String.eqb_spec v "warn") as [Hv'|Hv'];
  [|destruct (String.eqb_spec v "error") as [Hv''|Hv''];
  [|destruct (String.eqb_spec v "") as [Hv'''|Hv''']]]].
  1-4: split; [intros Hn; exfalso; apply Hn; tauto|];
    (split; [split; [intros [c Hc]; split; [tauto|];
                     destruct (config.parseSyncInterval Getenv); [by eexists|discriminate]
                    |intros [_ [d Hd]]; rewrite Hd; by eexists]|]);
    intros c; destruct (config.parseSyncInterval Getenv); [|discriminate];
    intros [= <-]; simpl; split; intros; first [done|discriminate|congruence].
  split; [intros _; reflexivity|].
  split; [split; [intros [c Hc]; discriminate|intros [H _]; tauto]|intros c Hc; discriminate].
Qed.

Lemma LoadConfig_log_level_witness :
  let env := λ k, if String.eqb k "LOG_LEVEL" then "info" else "x" in
  (env "CLOUDFLARE_ACCOUNT_ID" ≠ "" ∧ env "CLOUDFLARE_TUNNEL_ID" ≠ "" ∧
   env "CLOUDFLARE_API_TOKEN" ≠ "") ∧
  config.LoadConfig env = inr (config.ErrLogLevel "info").
Proof.
  intros env.
  assert (Hc : env "CLOUDFLARE_ACCOUNT_ID" ≠ "" ∧ env "CLOUDFLARE_TUNNEL_ID" ≠ "" ∧
               env "CLOUDFLARE_API_TOKEN" ≠ "") by (vm_compute; repeat split; discriminate).
  split; [exact Hc|].
  pose proof (LoadConfig_log_level env Hc) as H. cbv zeta in H.
  apply (proj1 H). intros Hin. rewrite !elem_of_cons, elem_of_nil in Hin.
  vm_compute in Hin. intuition discriminate.
Defined.

Lemma to_int64_small v : 0 ≤ v < 2 ^ 63 → config.to_int64 v = v.
Proof.
  intros Hv. unfold config.to_int64. rewrite Z.mod_small by lia.
  destruct (Z.geb_spec v (2 ^ 63)); lia.
Qed.

Lemma to_int64_wrap v : 2 ^ 63 ≤ v < 2 ^ 64 → config.to_int64 v = v - 2 ^ 64.
Proof.
  intros Hv. unfold config.to_int64. rewrite Z.mod_small by lia.
  destruct (Z.geb_spec v (2 ^ 63)); lia.
Qed.

(** X4: an empty or unset SYNC_INTERVAL gives the default of 15 seconds;
    any other value is refused unless [strconv.Atoi] parses it to a
    positive integer [sec], and then the interval is the int64 product
    [sec * time.Second] with its wrap-around: [sec] seconds up to
    9223372036, and a negative duration for [sec] from 9223372037 to
    18446744073, values [LoadConfig] accepts. *)
Theorem parseSyncInterval_values (Getenv : string → string) :
  let raw := Getenv "SYNC_INTERVAL" in
  (raw = "" → config.parseSyncInterval Getenv = inl (15 * config.Second)) ∧
  (raw ≠ "" → ∀ sec ok, Strconv.Atoi raw = (sec, ok) →
     ((ok = false ∨ sec ≤ 0) → config.parseSyncInterval Getenv = inr (config.ErrSyncInterval raw)) ∧
     (ok = true → 0 < sec →
        config.parseSyncInterval Getenv = inl (config.to_int64 (sec * config.Second)) ∧
        (sec ≤ 9223372036 → config.to_int64 (sec * config.Second) = sec * config.Second) ∧
        (9223372037 ≤ sec ≤ 18446744073 → config.to_int64 (sec * config.Second) < 0))).
Proof.
  intros raw. unfold config.parseSyncInterval. fold raw. split.
  - intros ->. reflexivity.
  - intros Hne sec ok Ha. rewrite (proj2 (String.eqb_neq _ _) Hne), Ha. split.
    + intros [->|Hs]; [reflexivity|]. by rewrite (proj2 (Z.leb_le _ _) Hs), orb_true_r.
    + intros -> Hs. rewrite (proj2 (Z.leb_gt _ _) Hs). simpl. split; [reflexivity|].
      unfold config.Second. split; intros Hr.
      * apply to_int64_small. lia.
      * rewrite to_int64_wrap; lia.
Qed.

(* ----------------------------------------------------------------- *)
(** ** Hostname fields of an annotation *)

Lemma string_app_cons a (s1 s2 : string) : String a s1 +:+ s2 = String a (s1 +:+ s2).
Proof. reflexivity. Qed.

Lemma chars_app (s1 s2 : string) :
  String.list_ascii_of_string (s1 +:+ s2) =
    String.list_ascii_of_string s1 ++ String.list_ascii_of_string s2.
Proof.
  induction s1 as [|a s1 IH]; [done|]. rewrite string_app_cons. simpl. by rewrite IH.
Qed.

Lemma chars_rev (s : string) :
  String.list_ascii_of_string (rev s) = reverse (String.list_ascii_of_string s).
Proof.
  induction s as [|a s IH]; simpl; [done|].
  by rewrite chars_app, IH, reverse_cons.
Qed.

Lemma string_app_nil_r (s : string) : s +:+ "" = s.
Proof. induction s as [|a s IH]; [done|]. by rewrite string_app_cons, IH. Qed.

Lemma string_app_assoc (s1 s2 s3 : string) : s1 +:+ (s2 +:+ s3) = (s1 +:+ s2) +:+ s3.
Proof. induction s1 as [|a s1 IH]; [done|]. by rewrite !string_app_cons, IH. Qed.

Lemma rev_app (s1 s2 : string) : rev (s1 +:+ s2) = rev s2 +:+ rev s1.
Proof.
  induction s1 as [|a s1 IH]; [simpl; by rewrite string_app_nil_r|].
  rewrite string_app_cons. simpl. by rewrite IH, string_app_assoc.
Qed.

Lemma rev_rev (s : string) : rev (rev s) = s.
Proof. induction s as [|a s IH]; simpl; [done|]. by rewrite rev_app, IH. Qed.

Lemma trim_left_id (s : string) :
  (∀ c, c ∈ String.list_ascii_of_string s → is_space c = false) → trim_left s = s.
Proof.
  destruct s as [|a s]; simpl; [done|]. intros H.
  by rewrite (H a (list_elem_of_here _ _)).
Qed.

Lemma TrimSpace_id (s : string) :
  (∀ c, c ∈ String.list_ascii_of_string s → is_space c = false) → TrimSpace s = s.
Proof.
  intros H. unfold TrimSpace. rewrite (trim_left_id s H), trim_left_id, rev_rev; [done|].
  intros c. rewrite chars_rev, elem_of_reverse. apply H.
Qed.

Lemma comma_to_space_chars (s : string) c :
  c ∈ String.list_ascii_of_string (comma_to_space s) → c ≠ ","%char.
Proof.
  induction s as [|a s IH]; simpl; intros Hc; [by apply elem_of_nil in Hc|].
  apply elem_of_cons in Hc as [->|Hc]; [|by apply IH].
  destruct (Ascii.eqb_spec a ","%char); [discriminate|done].
Qed.

Lemma fields_aux_chars (s cur d : string) :
  (∀ c, c ∈ String.list_ascii_of_string s → c ≠ ","%char) →
  (∀ c, c ∈ String.list_ascii_of_string cur → field_char c) →
  d ∈ fields_aux s cur → d ≠ "" ∧ ∀ c, c ∈ String.list_ascii_of_string d → field_char c.
Proof.
  assert (Hlast : ∀ cur, (∀ c, c ∈ String.list_ascii_of_string cur → field_char c) →
            d ∈ (if String.eqb cur "" then [] else [rev cur]) →
            d ≠ "" ∧ ∀ c, c ∈ String.list_ascii_of_string d → field_char c).
  { intros cur' Hcur Hd. destruct (String.eqb_spec cur' "") as [->|Hne];
      [by apply elem_of_nil in Hd|].
    apply list_elem_of_singleton in Hd as ->. split.
    - intros Hr. apply Hne. rewrite <- (rev_rev cur'), Hr. done.
    - intros c. rewrite chars_rev, elem_of_reverse. apply Hcur. }
  revert cur. induction s as [|a s IH]; intros cur Hs Hcur Hd; simpl in Hd.
  - by apply (Hlast cur).
  - destruct (is_space a) eqn:Ha.
    + apply elem_of_app in Hd as [Hd|Hd]; [by apply (Hlast cur)|].
      apply (IH ""); [intros c Hc; apply Hs; simpl; by right|intros c Hc; by apply elem_of_nil in Hc|done].
    + apply (IH (String a cur)); [intros c Hc; apply Hs; simpl; by right| |done].
      intros c Hc. simpl in Hc. apply elem_of_cons in Hc as [->|Hc]; [|by apply Hcur].
      split; [done|apply Hs; simpl; left].
Qed.

(** X5: every hostname [SyncKube] and [runSync] read from a hostnames
    annotation, a field of the annotation with its commas turned into
    spaces, is non-empty, has no white space and no comma, and is left
    unchanged by [strings.TrimSpace]: their [hostname == ""] check never
    skips one. *)
Theorem Fields_hostnames (s : string) (d : string) :
  d ∈ Fields (comma_to_space s) →
  d ≠ "" ∧ TrimSpace d = d ∧ ∀ c, c ∈ String.list_ascii_of_string d → field_char c.
Proof.
  intros Hd. apply fields_aux_chars in Hd as [Hne Hc].
  - split; [done|split; [|done]]. apply TrimSpace_id. intros c Hin. apply (Hc c Hin).
  - apply comma_to_space_chars.
  - intros c Hc. by apply elem_of_nil in Hc.
Qed.

Lemma Fields_hostnames_witness :
  "b.example.com" ∈ Fields (comma_to_space "a.example.com, b.example.com") ∧
  ("b.example.com" ≠ "" ∧ TrimSpace "b.example.com" = "b.example.com" ∧
   ∀ c, c ∈ String.list_ascii_of_string "b.example.com" → field_char c).
Proof.
  assert (Hd : "b.example.com" ∈ Fields (comma_to_space "a.example.com, b.example.com")).
  { vm_compute. right. left. }
  split; [exact Hd|].
  exact (Fields_hostnames "a.example.com, b.example.com" "b.example.com" Hd).
Defined.

(* ----------------------------------------------------------------- *)
(** ** The two [chooseServicePort] functions *)

Lemma chooseServicePort_fst_agree (upstreamPortAnnotation : string) (svc : Service)
    (Hann : ∀ raw0, Annotations svc !! upstreamPortAnnotation = Some raw0 →
            TrimSpace raw0 ≠ "" →
            snd (Strconv.Atoi (TrimSpace raw0)) = true ∧
            1 ≤ fst (Strconv.Atoi (TrimSpace raw0)) ≤ 65535) :
  fst (chooseServicePort upstreamPortAnnotation svc) =
    fst (chooseServicePort_main upstreamPortAnnotation svc).
Proof.
  unfold chooseServicePort, chooseServicePort_main.
  destruct (Annotations svc !! upstreamPortAnnotation) as [raw0|] eqn:Hr;
    [|by destruct (Ports svc)].
  destruct (bool_decide_reflect (TrimSpace raw0 ≠ "")) as [Hne|Hne]; [|by destruct (Ports svc)].
  destruct (Hann raw0 eq_refl Hne) as [Hok Hb].
  destruct (Strconv.Atoi (TrimSpace raw0)) as [val ok]. simpl in Hok, Hb. subst ok.
  assert (H1 : (val <=? 0) = false) by (apply Z.leb_gt; lia).
  assert (H2 : (val >? 65535) = false) by (rewrite Z.gtb_ltb; apply Z.ltb_ge; lia).
  by rewrite H1, H2.
Qed.

(** X6: the port choice of the [sync] package and that of [main.go] give
    the same port for every service whose port annotation is absent,
    blank, or an integer in [1, 65535]; they differ only on an invalid
    annotation. *)
Theorem chooseServicePort_agrees_main (upstreamPortAnnotation : string) (svc : Service)
    (Hann : ∀ raw0, Annotations svc !! upstreamPortAnnotation = Some raw0 →
            TrimSpace raw0 ≠ "" →
            snd (Strconv.Atoi (TrimSpace raw0)) = true ∧
            1 ≤ fst (Strconv.Atoi (TrimSpace raw0)) ≤ 65535) :
  fst (chooseServicePort upstreamPortAnnotation svc) =
    fst (chooseServicePort_main upstreamPortAnnotation svc).
Proof. exact (chooseServicePort_fst_agree upstreamPortAnnotation svc Hann). Qed.

Lemma chooseServicePort_agrees_main_witness :
  let svc := mkService "web" "default"
               {["cloudflare-tunnel-upstream-port" := " 8080 "]} [9090%Z] in
  (∀ raw0, Annotations svc !! "cloudflare-tunnel-upstream-port" = Some raw0 →
           TrimSpace raw0 ≠ "" →
           snd (Strconv.Atoi (TrimSpace raw0)) = true ∧
           1 ≤ fst (Strconv.Atoi (TrimSpace raw0)) ≤ 65535) ∧
  fst (chooseServicePort "cloudflare-tunnel-upstream-port" svc) =
    fst (chooseServicePort_main "cloudflare-tunnel-upstream-port" svc).
Proof.
  intros svc.
  assert (Hann : ∀ raw0, Annotations svc !! "cloudflare-tunnel-upstream-port" = Some raw0 →
                 TrimSpace raw0 ≠ "" →
                 snd (Strconv.Atoi (TrimSpace raw0)) = true ∧
                 1 ≤ fst (Strconv.Atoi (TrimSpace raw0)) ≤ 65535).
  { intros raw0 Hr _. vm_compute in Hr. injection Hr as <-.
    replace (Strconv.Atoi (TrimSpace " 8080 ")) with (8080, true) by reflexivity.
    simpl. split; [done|lia]. }
  split; [exact Hann|].
  exact (chooseServicePort_agrees_main "cloudflare-tunnel-upstream-port" svc Hann).
Defined.

(* ----------------------------------------------------------------- *)
(** ** The paging loops *)

Lemma paged_honest_from {A} (keep : list A → list A) errf get (pg : Z → list A) (N T : Z)
    (HN : N = Z.max 1 T) (Hget : ∀ p, 1 ≤ p ≤ N → get p = Ok (pg p, p, T)) :
  ∀ fuel p acc, 1 ≤ p ≤ N → N - p < Z.of_nat fuel →
  paged keep errf get fuel p acc =
    Some (Ok (acc ++ concat (map (λ i, keep (pg i)) (seqZ p (N - p + 1))))).
Proof.
  induction fuel as [|fuel IH]; intros p acc Hp Hf; [lia|]. simpl.
  rewrite (Hget p Hp).
  rewrite (seqZ_cons p (N - p + 1)) by lia. simpl.
  destruct (Z.leb_spec T p) as [HTp|HTp]; simpl.
  - assert (p = N) by lia. subst p. replace (Z.pred (N - N + 1)) with 0 by lia.
    simpl. by rewrite !app_nil_r.
  - destruct (Z.eqb_spec T 0) as [HT0|HT0]; simpl.
    + assert (p = N) by lia. lia.
    + rewrite IH by lia. rewrite <- app_assoc. do 3 f_equal.
      replace (Z.pred (N - p + 1)) with (N - (p + 1) + 1) by lia.
      by replace (Z.succ p) with (p + 1) by lia.
Qed.

(** X7: against a server that answers the request for page [p] with
    page [p] of [T] ([T >= 0]), the paging loop of [loadZones] and
    [loadDNSRecords] fetches pages 1 to [max(1, T)], one per iteration,
    and returns what it keeps of them in page order; with [T = 0] it stops
    after page 1. *)
Theorem paged_honest_server {A} (keep : list A → list A) (errf : Z → string → string)
    (get : Z → result (list A * Z * Z)) (pg : Z → list A) (T : Z)
    (Hget : ∀ p, 1 ≤ p ≤ Z.max 1 T → get p = Ok (pg p, p, T))
    (fuel : nat) (Hfuel : Z.max 1 T ≤ Z.of_nat fuel) :
  paged keep errf get fuel 1 [] =
    Some (Ok (concat (map (λ p, keep (pg p)) (seqZ 1 (Z.max 1 T))))).
Proof.
  pose proof (Z.le_max_l 1 T).
  rewrite (paged_honest_from keep errf get pg (Z.max 1 T) T eq_refl Hget fuel 1 []); [|lia|lia].
  simpl. by rewrite Z.sub_add.
Qed.

(** X8: the paging loop stops only on an error or on a reply whose
    [Page] is at least its non-zero [TotalPages] (or whose [TotalPages] is
    0); it compares the [Page] the server reports, not the page it asked
    for, so against a server whose replies always report a page below a
    non-zero total (for instance one that ignores the [page] query and
    answers page 1 of 2) it never ends. *)
Theorem paged_never_ends {A} (keep : list A → list A) (errf : Z → string → string)
    (get : Z → result (list A * Z * Z))
    (Hget : ∀ p, ∃ res pg totalPages, get p = Ok (res, pg, totalPages) ∧
                 pg < totalPages ∧ totalPages ≠ 0)
    (fuel : nat) (page : Z) (acc : list A) :
  paged keep errf get fuel page acc = None.
Proof.
  revert page acc. induction fuel as [|fuel IH]; intros page acc; [done|]. simpl.
  destruct (Hget page) as (res & pg & tp & -> & Hlt & Hne).
  rewrite (proj2 (Z.leb_gt _ _) Hlt), (proj2 (Z.eqb_neq _ _) Hne). apply IH.
Qed.

Lemma paged_honest_server_witness :
  let z1 := mkZone "Z1" "example.com" in
  let z2 := mkZone "Z2" "other.org" in
  let pg := λ p : Z, if p =? 1 then [z1] else [z2] in
  let get := λ p : Z, if (1 <=? p) && (p <=? 2) then Ok (pg p, p, 2) else Err "no such page" in
  (∀ p, 1 ≤ p ≤ Z.max 1 2 → get p = Ok (pg p, p, 2)) ∧ Z.max 1 2 ≤ Z.of_nat 2 ∧
  loadZones_paged get 2 = Some (Ok (concat (map (λ p, pg p) (seqZ 1 (Z.max 1 2))))).
Proof.
  intros z1 z2 pg get.
  assert (Hget : ∀ p, 1 ≤ p ≤ Z.max 1 2 → get p = Ok (pg p, p, 2)).
  { intros p Hp. unfold get. simpl in Hp.
    by rewrite (proj2 (Z.leb_le 1 p)), (proj2 (Z.leb_le p 2)) by lia. }
  assert (Hf : Z.max 1 2 ≤ Z.of_nat 2) by (simpl; lia).
  split; [exact Hget|split; [exact Hf|]].
  exact (paged_honest_server (λ l, l) (λ p e, "GET /zones page " +:+ pretty p +:+ ": " +:+ e)
           get pg 2 Hget 2 Hf).
Defined.

Lemma paged_never_ends_witness :
  let get := λ _ : Z, @Ok (list zoneSummary * Z * Z) ([mkZone "Z1" "example.com"], 1, 2) in
  (∀ p, ∃ res pg totalPages, get p = Ok (res, pg, totalPages) ∧ pg < totalPages ∧
                             totalPages ≠ 0) ∧
  loadZones_paged get 1000 = None.
Proof.
  intros get.
  assert (Hget : ∀ p, ∃ res pg totalPages, get p = Ok (res, pg, totalPages) ∧
                      pg < totalPages ∧ totalPages ≠ 0).
  { intros p. exists [mkZone "Z1" "example.com"], 1, 2. split; [reflexivity|lia]. }
  split; [exact Hget|].
  exact (paged_never_ends (λ l, l) (λ p e, "GET /zones page " +:+ pretty p +:+ ": " +:+ e)
           get Hget 1000 1 []).
Defined.

(* ----------------------------------------------------------------- *)
(** ** [SyncKube] and [runSync] over a cluster *)

Lemma append_all_app st l1 l2 : append_all st (l1 ++ l2) = append_all (append_all st l1) l2.
Proof. unfold append_all. apply fold_left_app. Qed.

Lemma SyncKube_service_pairs hA pA ns svc st :
  fst (SyncKube_service hA pA ns svc st) =
    append_all st (service_pairs (λ s, fst (chooseServicePort pA s)) hA ns svc).
Proof.
  unfold SyncKube_service, service_pairs.
  destruct (Annotations svc !! hA) as [hs|]; [|done].
  destruct (String.eqb _ _); [done|].
  destruct (chooseServicePort pA svc) as [port plogs]. simpl.
  destruct (bool_decide (port = 0)); [done|].
  generalize ("http://" +:+ svc_Name svc +:+ "." +:+ ns +:+ ".svc.cluster.local:"
              +:+ pretty port). intros url.
  generalize plogs. generalize st.
  induction (Fields (comma_to_space hs)) as [|d ds IH]; intros st0 logs0; simpl; [done|].
  destruct (String.eqb (TrimSpace d) ""); [apply IH|].
  destruct (Append st0 (TrimSpace d) url) as [st' err] eqn:Ha.
  unfold append_all at 1. simpl. rewrite Ha. simpl.
  destruct err; apply IH.
Qed.

Lemma SyncKube_pairs hA pA nss ls :
  SyncKube hA pA (Ok nss) ls =
    Ok (append_all NewSyncState (cluster_pairs (λ s, fst (chooseServicePort pA s)) hA ls nss)).
Proof.
  unfold SyncKube, cluster_pairs. f_equal. generalize NewSyncState.
  induction (sort_strings nss) as [|ns l IH]; intros st; simpl; [done|].
  rewrite append_all_app, <- IH. f_equal.
  destruct (ls ns) as [svcs|e]; [|done].
  revert st. induction svcs as [|svc svcs IH']; intros st; simpl; [done|].
  by rewrite append_all_app, <- IH', SyncKube_service_pairs.
Qed.

Lemma runSync_service_pairs hA pA ns svc :
  runSync_service hA pA ns svc =
    map rule_of (service_pairs (λ s, fst (chooseServicePort_main pA s)) hA ns svc).
Proof.
  unfold runSync_service, service_pairs.
  destruct (Annotations svc !! hA) as [hs|]; [|done].
  destruct (String.eqb _ _); [done|].
  destruct (bool_decide _); [done|].
  induction (Fields (comma_to_space hs)) as [|d ds IH]; simpl; [done|].
  rewrite map_app, <- IH. by destruct (String.eqb (TrimSpace d) "").
Qed.

Lemma runSync_rules_pairs hA pA nss ls :
  runSync_rules hA pA (Ok nss) ls =
    Ok (map rule_of (cluster_pairs (λ s, fst (chooseServicePort_main pA s)) hA ls nss)).
Proof.
  unfold runSync_rules, cluster_pairs. f_equal.
  induction (sort_strings nss) as [|ns l IH]; simpl; [done|].
  rewrite map_app, <- IH. f_equal.
  destruct (ls ns) as [svcs|e]; [|done].
  induction svcs as [|svc svcs IH']; simpl; [done|].
  by rewrite map_app, <- IH', runSync_service_pairs.
Qed.

Lemma insert_string_perm s l : insert_string s l ≡ₚ s :: l.
Proof.
  induction l as [|s' l IH]; simpl; [done|].
  destruct (String.ltb s' s); [|done]. rewrite IH. apply perm_swap.
Qed.

Lemma sort_strings_perm l : sort_strings l ≡ₚ l.
Proof. induction l as [|s l IH]; simpl; [done|]. by rewrite insert_string_perm, IH. Qed.

Lemma cluster_pairs_ext f1 f2 hA ls nss :
  (∀ ns svcs svc, ns ∈ nss → ls ns = Ok svcs → svc ∈ svcs → f1 svc = f2 svc) →
  cluster_pairs f1 hA ls nss = cluster_pairs f2 hA ls nss.
Proof.
  intros Hf. unfold cluster_pairs.
  assert (Hin : ∀ ns, ns ∈ sort_strings nss → ns ∈ nss).
  { intros ns. by rewrite sort_strings_perm. }
  induction (sort_strings nss) as [|ns l IH]; simpl; [done|].
  rewrite IH; [|intros n Hn; apply Hin; by right]. f_equal.
  destruct (ls ns) as [svcs|e] eqn:Hls; [|done].
  assert (Hsvc : ∀ svc, svc ∈ svcs → f1 svc = f2 svc).
  { intros svc Hsvc. apply (Hf ns svcs svc); [apply Hin; left|done|done]. }
  clear Hls. induction svcs as [|svc svcs IH']; simpl; [done|].
  rewrite IH'; [|intros s Hs; apply Hsvc; by right]. f_equal.
  unfold service_pairs. by rewrite (Hsvc svc (list_elem_of_here _ _)).
Qed.

Lemma first_value_nodup h v pairs :
  NoDup (map fst pairs) → first_value h pairs = Some v ↔ (h, v) ∈ pairs.
Proof.
  induction pairs as [|[k w] ps IH]; simpl; intros Hnd.
  - split; [done|intros Hin; by apply elem_of_nil in Hin].
  - apply NoDup_cons in Hnd as [Hk Hnd]. rewrite elem_of_cons.
    destruct (String.eqb_spec k h) as [->|Hne].
    + split; [intros [= ->]; by left|].
      intros [[= ->]|Hin]; [done|]. exfalso. apply Hk.
      apply list_elem_of_fmap. by exists (h, v).
    + rewrite IH; [|done]. split; [by right|intros [[= ->]|?]; [congruence|done]].
Qed.

Lemma append_all_nodup pairs m :
  NoDup (map fst pairs) → HostToService (append_all NewSyncState pairs) = Some m →
  map_to_list m ≡ₚ pairs.
Proof.
  intros Hnd Hm. destruct (append_all_lookup ∅ pairs) as (m' & Hm' & Hl).
  unfold NewSyncState in Hm. rewrite Hm' in Hm. injection Hm as <-.
  apply NoDup_Permutation; [apply NoDup_map_to_list|by eapply NoDup_fmap_1|].
  intros [h v]. rewrite elem_of_map_to_list, Hl, lookup_empty. by apply first_value_nodup.
Qed.

Lemma string_leb_trans a b c :
  String.leb a b = true → String.leb b c = true → String.leb a c = true.
Proof.
  unfold String.leb. revert b c.
  induction a as [|x a IH]; intros [|y b] [|z c]; simpl; try congruence.
  unfold Ascii.compare.
  destruct (N.compare_spec (N_of_ascii x) (N_of_ascii y)) as [Hxy|Hxy|Hxy];
  destruct (N.compare_spec (N_of_ascii y) (N_of_ascii z)) as [Hyz|Hyz|Hyz];
  destruct (N.compare_spec (N_of_ascii x) (N_of_ascii z)) as [Hxz|Hxz|Hxz];
    try lia; try congruence. apply IH.
Qed.

Lemma rules_sorted_unique l1 l2 :
  Sorted rule_le l1 → Sorted rule_le l2 → l1 ≡ₚ l2 → NoDup (map Hostname l1) → l1 = l2.
Proof.
  assert (Htr : Transitive rule_le).
  { intros a b c. unfold rule_le. apply string_leb_trans. }
  revert l2. induction l1 as [|a t1 IH]; intros l2 H1 H2 Hp Hnd.
  - by apply Permutation_nil in Hp.
  - destruct l2 as [|b t2]; [by apply Permutation_length in Hp|].
    apply Sorted_StronglySorted in H1 as HS1; [|done].
    apply Sorted_StronglySorted in H2 as HS2; [|done].
    apply StronglySorted_inv in HS1 as [_ Hf1]. apply StronglySorted_inv in HS2 as [_ Hf2].
    simpl in Hnd. apply NoDup_cons in Hnd as [Hna Hnd].
    assert (a = b) as <-.
    { assert (Ha : a ∈ b :: t2) by (rewrite <- Hp; left).
      assert (Hb : b ∈ a :: t1) by (rewrite Hp; left).
      apply elem_of_cons in Ha as [->|Ha]; [done|].
      apply elem_of_cons in Hb as [->|Hb]; [done|].
      exfalso. apply Hna.
      rewrite Forall_forall in Hf1, Hf2.
      assert (Heq : Hostname a = Hostname b).
      { apply String.leb_antisym; [apply (Hf1 b Hb)|apply (Hf2 a Ha)]. }
      rewrite Heq. apply list_elem_of_fmap. by exists b. }
    f_equal. apply IH; [by inversion H1|by inversion H2| |done].
    by apply Permutation_cons_inv in Hp.
Qed.

Lemma first_value_elem h v pairs : first_value h pairs = Some v → (h, v) ∈ pairs.
Proof.
  induction pairs as [|[k w] ps IH]; simpl; [done|].
  destruct (String.eqb_spec k h) as [->|]; [intros [= ->]; left|intros; right; auto].
Qed.

Lemma Fields_host (s d : string) :
  d ∈ Fields (comma_to_space s) →
  TrimSpace d = d ∧ d ≠ "" ∧ ∀ c, c ∈ String.list_ascii_of_string d → field_char c.
Proof.
  intros Hd. apply fields_aux_chars in Hd as [Hne Hc].
  - split; [|done]. apply TrimSpace_id. intros c Hin. apply (Hc c Hin).
  - apply comma_to_space_chars.
  - intros c Hc. by apply elem_of_nil in Hc.
Qed.

Lemma cluster_pairs_keys f hA ls nss h v :
  (h, v) ∈ cluster_pairs f hA ls nss →
  h ≠ "" ∧ ∀ c, c ∈ String.list_ascii_of_string h → field_char c.
Proof.
  unfold cluster_pairs. rewrite list_elem_of_In, in_flat_map.
  intros (ns & _ & Hin). destruct (ls ns) as [svcs|]; [|done].
  apply in_flat_map in Hin as (svc & _ & Hin).
  unfold service_pairs in Hin.
  destruct (Annotations svc !! hA) as [hs|]; [|done].
  destruct (String.eqb _ _); [done|]. destruct (bool_decide _); [done|].
  apply in_flat_map in Hin as (d & Hd & Hin).
  apply list_elem_of_In in Hd. destruct (Fields_host hs d Hd) as (Ht & Hne & Hc).
  rewrite Ht in Hin. destruct (String.eqb d ""); [done|].
  destruct Hin as [[= <- _]|[]]. done.
Qed.

(** X9: [SyncKube] over a successful namespace listing maps each hostname
    to the URL of the first service, namespaces taken in ascending order
    and services in the order listed, that claims it with a usable port;
    every mapped hostname is non-empty and has no white space or comma. *)
Theorem SyncKube_first_wins hA pA nss ls :
  ∃ st m, SyncKube hA pA (Ok nss) ls = Ok st ∧ HostToService st = Some m ∧
    (∀ h, m !! h = first_value h (cluster_pairs (λ s, fst (chooseServicePort pA s)) hA ls nss)) ∧
    (∀ h v, m !! h = Some v → h ≠ "" ∧ ∀ c, c ∈ String.list_ascii_of_string h → field_char c).
Proof.
  destruct (append_all_lookup ∅ (cluster_pairs (λ s, fst (chooseServicePort pA s)) hA ls nss))
    as (m & Hm & Hl).
  eexists _, m. split; [apply SyncKube_pairs|]. split; [exact Hm|].
  assert (Hl' : ∀ h, m !! h = first_value h (cluster_pairs (λ s, fst (chooseServicePort pA s)) hA ls nss)).
  { intros h. by rewrite Hl, lookup_empty. }
  split; [exact Hl'|].
  intros h v Hv. rewrite Hl' in Hv. apply first_value_elem in Hv.
  by apply cluster_pairs_keys in Hv.
Qed.

(** X10: when every listed service's port annotation is absent, blank or a
    port in [1, 65535] and no hostname is claimed twice, [runSync] of
    [main.go] publishes exactly the rule list that [SyncKube] followed by
    [SyncTunnel] publishes, given that [sort.Slice] returns a sorted
    permutation and Go's map iteration visits every entry once. *)
Theorem runSync_agrees_SyncKube_SyncTunnel sort_slice range_order reply
    (Hsort : ∀ l, sort_slice l ≡ₚ l ∧ Sorted rule_le (sort_slice l))
    (Hperm : ∀ n A (l : list A), range_order n A l ≡ₚ l)
    (cfg : config.Config) nss ls
    (Hports : ∀ ns svcs svc raw0, ns ∈ nss → ls ns = Ok svcs → svc ∈ svcs →
       Annotations svc !! config.ServiceUpstreamPortAnnotation cfg = Some raw0 →
       TrimSpace raw0 ≠ "" →
       snd (Strconv.Atoi (TrimSpace raw0)) = true ∧
       1 ≤ fst (Strconv.Atoi (TrimSpace raw0)) ≤ 65535)
    (Hnodup : ∀ rules, runSync_rules (config.ServiceHostnamesAnnotation cfg)
       (config.ServiceUpstreamPortAnnotation cfg) (Ok nss) ls = Ok rules →
       NoDup (map Hostname rules)) :
  ∃ st, SyncKube (config.ServiceHostnamesAnnotation cfg)
          (config.ServiceUpstreamPortAnnotation cfg) (Ok nss) ls = Ok st ∧
  ∀ w, requests (w_trace (fst (runSync sort_slice reply cfg (Ok nss) ls w))) =
       requests (w_trace (fst (SyncTunnel range_order reply
          (mkConfig (config.CloudFlareAccountID cfg) (config.CloudFlareTunnelID cfg)) st w))).
Proof.
  set (hA := config.ServiceHostnamesAnnotation cfg).
  set (pA := config.ServiceUpstreamPortAnnotation cfg).
  set (pairs := cluster_pairs (λ s, fst (chooseServicePort pA s)) hA ls nss).
  assert (Hmain : cluster_pairs (λ s, fst (chooseServicePort_main pA s)) hA ls nss = pairs).
  { symmetry. apply cluster_pairs_ext. intros ns svcs svc Hns Hls Hsvc.
    apply chooseServicePort_fst_agree. intros raw0 Hr Hne.
    by apply (Hports ns svcs svc raw0). }
  assert (Hrules : runSync_rules hA pA (Ok nss) ls = Ok (map rule_of pairs)).
  { by rewrite runSync_rules_pairs, Hmain. }
  assert (Hnd : NoDup (map fst pairs)).
  { specialize (Hnodup _ Hrules). rewrite map_map in Hnodup.
    erewrite map_ext; [exact Hnodup|]. by intros [h v]. }
  destruct (append_all_lookup ∅ pairs) as (m & Hm & _).
  exists (append_all NewSyncState pairs). split; [apply SyncKube_pairs|].
  intros w.
  assert (Hes : range_order (w_tick w) _ (entries_of (append_all NewSyncState pairs)) ≡ₚ pairs).
  { rewrite Hperm. unfold entries_of, NewSyncState. rewrite Hm. by apply append_all_nodup. }
  rewrite SyncTunnel_request.
  unfold runSync. fold hA pA. rewrite Hrules.
  unfold mbind, M_bind, request. simpl.
  destruct (reply _ _); simpl; rewrite requests_snoc_req; do 3 f_equal;
    unfold ingressRules; f_equal;
    (apply rules_sorted_unique;
     [apply Hsort|apply sort_rules_sorted| |]).
  all: first
    [ rewrite (proj1 (Hsort _)), sort_rules_perm; symmetry;
      etransitivity; [apply Permutation_map, Hes|];
      unfold rule_of; apply reflexive_eq, map_ext; by intros [h v]
    | rewrite (Permutation_map Hostname (proj1 (Hsort _))), map_map;
      erewrite map_ext; [exact Hnd|]; by intros [h v] ].
Qed.

Lemma runSync_agrees_SyncKube_SyncTunnel_witness :
  let cfg := config.mkConfig "acc" "tun" "token" config.defaultServiceHostnamesAnnotation
               config.defaultServiceUpstreamPortAnnotation config.defaultSyncInterval Info in
  let web := mkService "web" "default"
               {["cloudflare-tunnel-hostnames" := "b.example.com, a.example.com"]} [80] in
  let ls := λ ns : string, if String.eqb ns "default" then Ok [web] else Err "forbidden" in
  let nss := ["kube-system"; "default"] in
  (∀ l, sort_rules l ≡ₚ l ∧ Sorted rule_le (sort_rules l)) ∧
  (∀ n A (l : list A), in_order n A l ≡ₚ l) ∧
  (∀ ns svcs svc raw0, ns ∈ nss → ls ns = Ok svcs → svc ∈ svcs →
     Annotations svc !! config.ServiceUpstreamPortAnnotation cfg = Some raw0 →
     TrimSpace raw0 ≠ "" →
     snd (Strconv.Atoi (TrimSpace raw0)) = true ∧
     1 ≤ fst (Strconv.Atoi (TrimSpace raw0)) ≤ 65535) ∧
  (∀ rules, runSync_rules (config.ServiceHostnamesAnnotation cfg)
     (config.ServiceUpstreamPortAnnotation cfg) (Ok nss) ls = Ok rules →
     NoDup (map Hostname rules)) ∧
  ∃ st, SyncKube (config.ServiceHostnamesAnnotation cfg)
          (config.ServiceUpstreamPortAnnotation cfg) (Ok nss) ls = Ok st ∧
  ∀ w, requests (w_trace (fst (runSync sort_rules all_ok cfg (Ok nss) ls w))) =
       requests (w_trace (fst (SyncTunnel in_order all_ok
          (mkConfig (config.CloudFlareAccountID cfg) (config.CloudFlareTunnelID cfg)) st w))).
Proof.
  intros cfg web ls nss.
  assert (Hs : ∀ l, sort_rules l ≡ₚ l ∧ Sorted rule_le (sort_rules l)).
  { intros l. split; [apply sort_rules_perm|apply sort_rules_sorted]. }
  assert (Hp : ∀ n A (l : list A), in_order n A l ≡ₚ l) by (intros; reflexivity).
  assert (Hports : ∀ ns svcs svc raw0, ns ∈ nss → ls ns = Ok svcs → svc ∈ svcs →
     Annotations svc !! config.ServiceUpstreamPortAnnotation cfg = Some raw0 →
     TrimSpace raw0 ≠ "" →
     snd (Strconv.Atoi (TrimSpace raw0)) = true ∧
     1 ≤ fst (Strconv.Atoi (TrimSpace raw0)) ≤ 65535).
  { intros ns svcs svc raw0 _ Hls Hsvc Hr _. unfold ls in Hls.
    destruct (String.eqb ns "default"); [|discriminate].
    injection Hls as <-. apply list_elem_of_singleton in Hsvc as ->.
    vm_compute in Hr. discriminate. }
  assert (Hnd : ∀ rules, runSync_rules (config.ServiceHostnamesAnnotation cfg)
     (config.ServiceUpstreamPortAnnotation cfg) (Ok nss) ls = Ok rules →
     NoDup (map Hostname rules)).
  { intros rules Hr. vm_compute in Hr. injection Hr as <-.
    apply (bool_decide_unpack _). vm_compute. reflexivity. }
  split; [exact Hs|split; [exact Hp|split; [exact Hports|split; [exact Hnd|]]]].
  exact (runSync_agrees_SyncKube_SyncTunnel sort_rules in_order all_ok
           Hs Hp cfg nss ls Hports Hnd).
Defined.

(** X11: [runSync] returns the wrapped namespace-listing error without
    any request; otherwise it issues one [PUT] whose rules are every
    (hostname, URL) pair its loops collect, a hostname claimed twice giving
    two rules, each with a non-empty hostname, followed by the catch-all
    rule. *)
Theorem runSync_publishes_all_pairs sort_slice reply
    (Hsort : ∀ l, sort_slice l ≡ₚ l) (cfg : config.Config) nsl ls w :
  (∀ e, nsl = Err e →
     runSync sort_slice reply cfg nsl ls w = (w, Err ("failed to list namespaces: " +:+ e))) ∧
  (∀ nss, nsl = Ok nss → ∃ rs,
     requests (w_trace (fst (runSync sort_slice reply cfg nsl ls w))) =
       requests (w_trace w) ++
       [PutTunnelConfig (config.CloudFlareAccountID cfg) (config.CloudFlareTunnelID cfg)
          (rs ++ [mkRule "" "http_status:404"])] ∧
     rs ≡ₚ map rule_of (cluster_pairs
              (λ s, fst (chooseServicePort_main (config.ServiceUpstreamPortAnnotation cfg) s))
              (config.ServiceHostnamesAnnotation cfg) ls nss) ∧
     ∀ r, r ∈ rs → Hostname r ≠ "").
Proof.
  split.
  - intros e ->. reflexivity.
  - intros nss ->.
    set (pairs := cluster_pairs
              (λ s, fst (chooseServicePort_main (config.ServiceUpstreamPortAnnotation cfg) s))
              (config.ServiceHostnamesAnnotation cfg) ls nss).
    exists (sort_slice (map rule_of pairs)). split; [|split; [apply Hsort|]].
    + unfold runSync. rewrite runSync_rules_pairs. fold pairs.
      unfold mbind, M_bind, request. simpl.
      destruct (reply _ _); simpl; apply requests_snoc_req.
    + intros r Hr. rewrite Hsort in Hr. apply list_elem_of_fmap in Hr as ([h v] & -> & Hin).
      simpl. by apply cluster_pairs_keys in Hin as [Hne _].
Qed.

Lemma runSync_publishes_all_pairs_witness :
  let cfg := config.mkConfig "acc" "tun" "token" config.defaultServiceHostnamesAnnotation
               config.defaultServiceUpstreamPortAnnotation config.defaultSyncInterval Info in
  let web := mkService "web" "default"
               {["cloudflare-tunnel-hostnames" := "a.example.com"]} [80] in
  let api := mkService "api" "default"
               {["cloudflare-tunnel-hostnames" := "a.example.com"]} [8080] in
  let ls := λ _ : string, Ok [web; api] in
  let w := mkWorld [] (λ _, []) [] 0 in
  (∀ l, sort_rules l ≡ₚ l) ∧
  (∀ e, Ok ["default"] = @Err (list string) e →
     runSync sort_rules all_ok cfg (Ok ["default"]) ls w =
       (w, Err ("failed to list namespaces: " +:+ e))) ∧
  (∀ nss, Ok ["default"] = Ok nss → ∃ rs,
     requests (w_trace (fst (runSync sort_rules all_ok cfg (Ok ["default"]) ls w))) =
       requests (w_trace w) ++
       [PutTunnelConfig (config.CloudFlareAccountID cfg) (config.CloudFlareTunnelID cfg)
          (rs ++ [mkRule "" "http_status:404"])] ∧
     rs ≡ₚ map rule_of (cluster_pairs
              (λ s, fst (chooseServicePort_main (config.ServiceUpstreamPortAnnotation cfg) s))
              (config.ServiceHostnamesAnnotation cfg) ls nss) ∧
     ∀ r, r ∈ rs → Hostname r ≠ "").
Proof.
  intros cfg web api ls w.
  assert (Hs : ∀ l, sort_rules l ≡ₚ l) by apply sort_rules_perm.
  split; [exact Hs|].
  exact (runSync_publishes_all_pairs sort_rules all_ok Hs cfg (Ok ["default"]) ls w).
Defined.

(* ----------------------------------------------------------------- *)
(** ** Zones and CNAMEs that [SyncDNS] never touches *)

Lemma zone_ids_lookup zones zn zid :
  zone_ids zones !! zn = Some zid → ∃ z, z ∈ zones ∧ zone_Name z = zn ∧ zone_ID z = zid.
Proof.
  unfold zone_ids.
  assert (Hgen : ∀ acc : gmap string string, fold_left (λ acc z, <[zone_Name z := zone_ID z]> acc) zones acc !! zn = Some zid →
            acc !! zn = Some zid ∨ ∃ z, z ∈ zones ∧ zone_Name z = zn ∧ zone_ID z = zid).
  { induction zones as [|z zs IH]; intros acc H; simpl in H; [by left|].
    destruct (IH _ H) as [Ha|(z' & Hz' & Hn & Hi)].
    - destruct (decide (zone_Name z = zn)) as [<-|Hne].
      + rewrite lookup_insert_eq in Ha. injection Ha as <-. right. exists z. split; [left|done].
      + rewrite lookup_insert_ne in Ha by done. by left.
    - right. exists z'. split; [by right|done]. }
  intros H. destruct (Hgen ∅ H) as [Ha|Hz]; [by rewrite lookup_empty in Ha|done].
Qed.

Lemma bestMatchingZone_some_zone h zones :
  bestMatchingZone h zones ≠ "" →
  ∃ z, z ∈ zones ∧ bestMatchingZone h zones = normalizeHost (zone_Name z).
Proof.
  unfold bestMatchingZone. destruct (bmz_fold_inv (normalizeHost h) zones "") as (_ & _ & Hw).
  intros Hne. destruct Hw as [Hb|(z & Hz & _ & Hn)]; [done|]. by exists z.
Qed.

(** X12: [SyncDNS] looks the ID of a zone up by the zone's name as listed,
    but files hostnames under normalized zone names: a zone whose listed
    name is not the normalized name of some listed zone (for instance
    [Example.com]) receives no request and keeps its records, whatever
    hostnames it should serve. *)
Theorem SyncDNS_unnormalized_zone_untouched range_order reply
    (Hperm : ∀ n A (l : list A), range_order n A l ≡ₚ l)
    (rt : Runtime) (st : SyncState) (w : world) (zid : string)
    (Hzid : ∀ z, z ∈ w_zones w → zone_ID z = zid →
            ∀ z', z' ∈ w_zones w → normalizeHost (zone_Name z') ≠ zone_Name z) :
  let w' := fst (SyncDNS range_order reply rt st w) in
  calls_since (λ c, zone_of c ≠ Some zid) w w' ∧ w_records w' zid = w_records w zid.
Proof.
  set (okc := λ c, zone_of c ≠ Some zid).
  set (I := λ w', calls_since okc w w' ∧ w_zones w' = w_zones w ∧
                  w_records w' zid = w_records w zid).
  assert (HI : hoare I (SyncDNS range_order reply rt st) (λ _, I) (λ _, I)).
  { apply (frame_SyncDNS range_order reply Hperm I okc).
    - intros w1 l (H1 & H2 & H3). split; [by apply calls_since_log|done].
    - intros w1 (H1 & H2 & H3). done.
    - intros w1 c (H1 & H2 & H3) Hc. split; [by apply calls_since_req|]. split; [done|].
      simpl. rewrite <- H3. destruct (reply_ok _); [|done]. by apply apply_call_other_zone.
    - intros cfg _. done.
    - intros cfg m zn hosts zid' w1 _ _ Hzn Hne Hhosts Hzid' _ (_ & Hz1 & _).
      assert (Hdiff : zid' ≠ zid).
      { intros ->. destruct hosts as [|h hosts]; [done|].
        destruct (Hhosts h ltac:(by left)) as (_ & Hb & _).
        apply zone_ids_lookup in Hzid' as (z & Hz & Hn & Hi).
        rewrite <- Hb in Hzn, Hn.
        destruct (bestMatchingZone_some_zone h (w_zones w1) Hzn) as (z' & Hz' & Hb').
        rewrite Hz1 in Hz, Hz'. apply (Hzid z Hz Hi z' Hz'). by rewrite <- Hb', Hn. }
      split; [|split].
      + unfold okc. simpl. congruence.
      + intros rec _ _ _. unfold okc. simpl. split; congruence.
      + intros h _ _ _. unfold okc. simpl. congruence. }
  specialize (HI w (conj (calls_since_refl _ w) (conj eq_refl eq_refl))).
  simpl. destruct (SyncDNS range_order reply rt st w) as [w' res].
  destruct res; destruct HI as (H1 & _ & H3); by split.
Qed.

Lemma SyncDNS_unnormalized_zone_untouched_witness :
  let w := ex_world [mkZone "Z1" "Example.com"] [managed_cname "r1" "old.example.com" ex_target] [] in
  let st := ex_state ["www.example.com"] in
  (∀ n A (l : list A), in_order n A l ≡ₚ l) ∧
  (∀ z, z ∈ w_zones w → zone_ID z = "Z1" →
     ∀ z', z' ∈ w_zones w → normalizeHost (zone_Name z') ≠ zone_Name z) ∧
  let w' := fst (SyncDNS in_order all_ok ex_rt st w) in
  calls_since (λ c, zone_of c ≠ Some "Z1") w w' ∧ w_records w' "Z1" = w_records w "Z1".
Proof.
  intros w st.
  assert (Hp : ∀ n A (l : list A), in_order n A l ≡ₚ l) by (intros; reflexivity).
  assert (Hz : ∀ z, z ∈ w_zones w → zone_ID z = "Z1" →
     ∀ z', z' ∈ w_zones w → normalizeHost (zone_Name z') ≠ zone_Name z).
  { intros z Hz _ z' Hz'. simpl in Hz, Hz'.
    apply list_elem_of_singleton in Hz as ->. apply list_elem_of_singleton in Hz' as ->.
    vm_compute. discriminate. }
  split; [exact Hp|split; [exact Hz|]].
  exact (SyncDNS_unnormalized_zone_untouched in_order all_ok Hp ex_rt st w "Z1" Hz).
Defined.

Lemma index_records_last (L : list dnsRecord) (cm0 : gmap string dnsRecord)
    (ha0 : gset string) n :
  (∃ r, r ∈ L ∧ Type' r = "CNAME" ∧ normalizeHost (Name r) = n) →
  ∃ r, (fold_left
      (fun '((cnameByName, hasAorAAAA) : gmap string dnsRecord * gset string) rec =>
         let name := normalizeHost (Name rec) in
         if String.eqb (Type' rec) "A" || String.eqb (Type' rec) "AAAA"
         then (cnameByName, {[name]} ∪ hasAorAAAA)
         else if String.eqb (Type' rec) "CNAME"
         then (<[name := rec]> cnameByName, hasAorAAAA)
         else (cnameByName, hasAorAAAA)) L (cm0, ha0)).1 !! n = Some r ∧ r ∈ L.
Proof.
  revert cm0 ha0. induction L as [|r L IH]; intros cm0 ha0 (r0 & Hr0 & Hc0 & Hn0);
    [by apply elem_of_nil in Hr0|].
  apply elem_of_cons in Hr0 as [<-|Hr0].
  - simpl. rewrite Hc0. simpl.
    pose proof (index_records_acc L (<[n := r0]> cm0) ha0) as Hacc.
    rewrite Hn0. destruct (fold_left _ L _) as [cm ha]. destruct Hacc as (H1 & H2 & _).
    destruct (H2 n) as [r' Hr']; [rewrite lookup_insert_eq; by eexists|].
    exists r'. split; [done|].
    destruct (H1 n r' Hr') as [Hi|(Hin & _)].
    + rewrite lookup_insert_eq in Hi. injection Hi as <-. by left.
    + by right.
  - simpl. destruct (String.eqb (Type' r) "A" || String.eqb (Type' r) "AAAA");
      [|destruct (String.eqb (Type' r) "CNAME")];
      (edestruct IH as (r' & Hr' & Hin); [by exists r0|]);
      exists r'; (split; [exact Hr'|by right]).
Qed.

Lemma NoDup_map_inj {A B} (f : A → B) (l : list A) x y :
  NoDup (map f l) → x ∈ l → y ∈ l → f x = f y → x = y.
Proof.
  induction l as [|a l IH]; intros Hnd Hx Hy Hf; [by apply elem_of_nil in Hx|].
  simpl in Hnd. apply NoDup_cons in Hnd as [Ha Hnd].
  apply elem_of_cons in Hx as [->|Hx]; apply elem_of_cons in Hy as [->|Hy]; try done.
  - exfalso. apply Ha. rewrite Hf. apply list_elem_of_fmap. by exists y.
  - exfalso. apply Ha. rewrite <- Hf. apply list_elem_of_fmap. by exists x.
  - by apply IH.
Qed.

(** The CNAME index of a zone never holds a CNAME that a later CNAME of
    the same normalized name shadows. *)
Lemma index_records_shadowed L1 rec L2 rec2 :
  NoDup (map ID (L1 ++ rec :: L2)) → Type' rec = "CNAME" →
  rec2 ∈ L2 → Type' rec2 = "CNAME" → normalizeHost (Name rec2) = normalizeHost (Name rec) →
  ∀ n r, (index_records (filter (λ r, is_address_or_cname (Type' r)) (L1 ++ rec :: L2))).1 !! n
           = Some r → ID r ≠ ID rec.
Proof.
  intros Hnd Hc Hr2 Hc2 Hn2 n r Hr Hid.
  pose proof (index_records_spec (filter (λ r, is_address_or_cname (Type' r)) (L1 ++ rec :: L2)))
    as Hspec.
  destruct (index_records _) as [cm ha] eqn:Hix. simpl in Hr.
  destruct Hspec as (Hcm & _ & _).
  destruct (Hcm n r Hr) as (Hrin & Hrc & Hrn).
  apply list_elem_of_filter in Hrin as [_ Hrin].
  assert (Hrec : rec ∈ L1 ++ rec :: L2) by (apply elem_of_app; right; left).
  assert (r = rec) as -> by (by apply (NoDup_map_inj ID (L1 ++ rec :: L2))).
  assert (HP : is_address_or_cname (Type' rec) = true)
    by (unfold is_address_or_cname; by rewrite Hc, orb_true_r).
  unfold index_records in Hix.
  rewrite filter_app, filter_cons_True in Hix; [|by rewrite HP].
  replace (filter (λ r, is_address_or_cname (Type' r)) L1 ++
             rec :: filter (λ r, is_address_or_cname (Type' r)) L2)
    with ((filter (λ r, is_address_or_cname (Type' r)) L1 ++ [rec]) ++
             filter (λ r, is_address_or_cname (Type' r)) L2) in Hix
    by (by rewrite <- app_assoc).
  rewrite fold_left_app in Hix.
  destruct (fold_left _ (filter _ L1 ++ [rec]) _) as [cm0 ha0].
  destruct (index_records_last (filter (λ r, is_address_or_cname (Type' r)) L2) cm0 ha0 n)
    as (r' & Hr' & Hin').
  { exists rec2. split; [|split; [done|congruence]].
    apply list_elem_of_filter. split; [|done].
    unfold is_address_or_cname. by rewrite Hc2, orb_true_r. }
  assert (Hcm' : cm !! n = Some r').
  { rewrite <- Hr'. change cm with (cm, ha).1. rewrite <- Hix. reflexivity. }
  rewrite Hr in Hcm'. injection Hcm' as <-.
  apply list_elem_of_filter in Hin' as [_ Hin'].
  rewrite map_app in Hnd. apply NoDup_app in Hnd as (_ & _ & Hnd). simpl in Hnd.
  apply NoDup_cons in Hnd as [Hnot _]. apply Hnot.
  apply list_elem_of_fmap. by exists rec.
Qed.

(** The invariant through [syncZoneRecords], the requests on existing
    CNAMEs being those on the CNAME index of the zone's records. *)
Lemma frame_syncZoneRecords_index range_order reply
    (Hperm : ∀ n A (l : list A), range_order n A l ≡ₚ l)
    (I : world → Prop) (okc : call → Prop)
    (I_log : ∀ w l, I w → I (after_log w l))
    (I_tick : ∀ w, I w → I (after_tick w))
    (I_req : ∀ w c, I w → okc c → I (after_request reply w c))
    zid zn hosts st target R :
  okc (GetDNSRecords zid) →
  (∀ n rec, (index_records (filter (λ r, is_address_or_cname (Type' r)) R)).1 !! n = Some rec →
     okc (DeleteDNSRecord zid (ID rec)) ∧ okc (PatchCNAME zid (ID rec) target)) →
  (∀ h, okc (PostCNAME zid h target)) →
  hoare (λ w, I w ∧ w_records w zid = R)
    (syncZoneRecords range_order reply zid zn hosts st target) (λ _, I) (λ _, I).
Proof.
  intros HG HDU HP. unfold syncZoneRecords.
  eapply hoare_bind with (Q := λ _ w, I w ∧ w_records w zid = R).
  { intros w [HI HR]. split; [by apply I_log|done]. }
  intros ?.
  eapply hoare_bind with
    (Q := λ recs w, I w ∧ recs = filter (λ r, is_address_or_cname (Type' r)) R).
  { apply hoare_wrap. unfold loadDNSRecords.
    eapply hoare_bind with (Q := λ _ w, I w ∧ w_records w zid = R).
    { intros w [HI HR]. split; [by apply I_req|].
      simpl. by destruct (reply_ok _). }
    intros r. destruct r.
    - intros w [HI HR]. simpl. split; [done|]. by rewrite HR.
    - apply hoare_throw. by intros w [HI _].
    - intros w [HI HR]. simpl. split; [done|]. by rewrite HR. }
  intros recs. apply hoare_pre. intros w1 [HI1 ->].
  revert HDU. destruct (index_records _) as [cm ha] eqn:Hix. intros HDU. simpl in HDU.
  eapply hoare_bind with (Q := λ cn w, I w ∧ cn ≡ₚ map_to_list cm).
  { intros w ->. split; [by apply I_tick|]. apply Hperm. }
  intros cn. apply hoare_pre. intros w2 [HI2 Hcn].
  eapply hoare_bind.
  { eapply hoare_conseq; [apply (frame_handle_cnames reply I okc I_log I_req)|by intros w ->|done|done].
    intros name rec Hin _. rewrite Hcn in Hin. apply elem_of_map_to_list in Hin.
    by apply (HDU name). }
  intros seen.
  apply (frame_create_missing reply I okc I_log I_req). intros h _ _ _. apply HP.
Qed.

(** X13: when a zone lists two CNAMEs whose names normalize to the same
    hostname, [syncZoneRecords] only ever handles the later one: the
    earlier one (IDs being unique in the zone) is neither deleted nor
    patched and is still in the zone afterwards, whether it is managed or
    not, desired or not, and whether the run succeeds or fails. *)
Theorem syncZoneRecords_shadowed_cname_kept range_order reply
    (Hperm : ∀ n A (l : list A), range_order n A l ≡ₚ l)
    zid zn hosts st target (w : world) L1 rec L2 rec2
    (HR : w_records w zid = L1 ++ rec :: L2) (Hids : NoDup (map ID (w_records w zid)))
    (Hc : Type' rec = "CNAME") (Hr2 : rec2 ∈ L2) (Hc2 : Type' rec2 = "CNAME")
    (Hn : normalizeHost (Name rec2) = normalizeHost (Name rec)) :
  let w' := fst (syncZoneRecords range_order reply zid zn hosts st target w) in
  calls_since (spares zid (ID rec)) w w' ∧ keeps_record zid rec (w_records w').
Proof.
  set (I := λ w', calls_since (spares zid (ID rec)) w w' ∧ keeps_record zid rec (w_records w')).
  assert (HI : hoare (λ w', I w' ∧ w_records w' zid = L1 ++ rec :: L2)
                 (syncZoneRecords range_order reply zid zn hosts st target) (λ _, I) (λ _, I)).
  { apply (frame_syncZoneRecords_index range_order reply Hperm I (spares zid (ID rec))).
    - intros w1 l [H1 H2]. split; [by apply calls_since_log|by apply keeps_record_log].
    - intros w1 [H1 H2]. done.
    - intros w1 c [H1 H2] Hc'. split; [by apply calls_since_req|by apply keeps_record_req].
    - split; discriminate.
    - intros n r Hr. rewrite HR in Hids.
      pose proof (index_records_shadowed L1 rec L2 rec2 Hids Hc Hr2 Hc2 Hn n r Hr) as Hne.
      unfold spares. split; split; [intros Heq|intros ? Heq|intros Heq|intros ? Heq]; simplify_eq; congruence.
    - intros h. split; discriminate. }
  assert (Hk : keeps_record zid rec (w_records w)).
  { split; [rewrite HR; apply elem_of_app; right; left|].
    intros r' Hr' Hid. apply (NoDup_map_inj ID (w_records w zid)); [done|done| |done].
    rewrite HR. apply elem_of_app. right. left. }
  specialize (HI w (conj (conj (calls_since_refl _ w) Hk) HR)).
  simpl. destruct (syncZoneRecords range_order reply zid zn hosts st target w) as [w' res].
  by destruct res.
Qed.

Lemma syncZoneRecords_shadowed_cname_kept_witness :
  let old := managed_cname "r1" "WWW.example.com" "old.example.net" in
  let new := managed_cname "r2" "www.example.com." ex_target in
  let w := ex_world [mkZone "Z1" "example.com"] [old; new] [] in
  (∀ n A (l : list A), in_order n A l ≡ₚ l) ∧
  w_records w "Z1" = [] ++ old :: [new] ∧ NoDup (map ID (w_records w "Z1")) ∧
  Type' old = "CNAME" ∧ new ∈ [new] ∧ Type' new = "CNAME" ∧
  normalizeHost (Name new) = normalizeHost (Name old) ∧
  let w' := fst (syncZoneRecords in_order all_ok "Z1" "example.com" ["www.example.com"]
                   (ex_state ["www.example.com"]) ex_target w) in
  calls_since (spares "Z1" (ID old)) w w' ∧ keeps_record "Z1" old (w_records w').
Proof.
  intros old new w.
  assert (Hp : ∀ n A (l : list A), in_order n A l ≡ₚ l) by (intros; reflexivity).
  assert (HR : w_records w "Z1" = [] ++ old :: [new]) by reflexivity.
  assert (Hids : NoDup (map ID (w_records w "Z1")))
    by (apply (bool_decide_unpack _); vm_compute; reflexivity).
  assert (Hc : Type' old = "CNAME") by reflexivity.
  assert (Hr2 : new ∈ [new]) by left.
  assert (Hc2 : Type' new = "CNAME") by reflexivity.
  assert (Hn : normalizeHost (Name new) = normalizeHost (Name old)) by reflexivity.
  do 7 (split; [assumption|]).
  exact (syncZoneRecords_shadowed_cname_kept in_order all_ok Hp "Z1" "example.com"
           ["www.example.com"] (ex_state ["www.example.com"]) ex_target w [] old [new] new
           HR Hids Hc Hr2 Hc2 Hn).
Defined.
